(** * Red Archive: a shallow embedding of [src/archive.c]

    The archive reader ([unpack]) and writer ([pack]) of the Red Archive
    tool, with their three codecs (store, run-length, sliding window),
    written as Rocq functions over byte lists.

    Conventions of the embedding.
    - A byte is a [Byte.byte]; [byte_val] is its value in [0, 255].
    - A C buffer is a [list byte]; a read is stdpp's lookup [buf !! i] and
      an access outside the buffer (undefined behaviour in C) ends the run
      with [OutOfBounds].
    - Whether plain [char] is signed is fixed by the compiler, not by the
      source; it is the parameter [char_signed].
    - [malloc] returns memory with unspecified content: the parameter
      [junk] gives the byte found at each index of a fresh buffer.
    - The archive stream is the list of the file's bytes together with a
      position; the output folder is a finite map from file names to
      contents; what the program prints is kept as a list of messages.
    - Cursors are natural numbers. In [src/archive.c] they are 32-bit
      [unsigned int]s; a run that stays within the buffers never moves
      one beyond the size of its buffer (see [rle_group_cursor] and
      [win_group_cursor]), so they do not wrap.

    Two embeddings of an iteration of [unpack].
    - [extract], [unpack_entry], [unpack_loop] and [unpack] follow the
      data: every [fopen] of an output file is taken to succeed and the
      calls of [free] are left out.
    - [run_extract], [run_unpack_entry], [run_unpack_loop] and
      [run_unpack] follow lines 128-375 statement by statement, with the
      result of each [fopen] ([fopen_wb]: the names ["."] and [".."] pass
      the filename check and can never be opened for writing) and with
      the blocks that [malloc] returns and [free] releases. A run ends at
      the first statement that C leaves undefined: an access outside a
      buffer, a second [free] of a block, an access to a freed block.
      [compressed_data] is freed twice on the paths of levels 0 and 1
      (lines 154 and 187, then line 368).
    - [extract_heap] lists the calls of [malloc] and [free] of an
      iteration as events; [run_extract_agrees] relates the three.

    Outside the embedding.
    - The operating system: opening the archive and the folder is taken
      to succeed, and [fseek] to a position inside the archive to return
      0. Integers are read as on a little-endian host with a 32-bit
      [int]. *)

From Stdlib Require Import ZArith Lia.
From Stdlib Require Import Strings.Byte.
From stdpp Require Import base option list gmap.

Local Open Scope Z_scope.

(** ** Bytes and C integer types *)

Definition byte_val (b : byte) : Z := Z.of_N (Byte.to_N b).

Definition byte_of_Z (z : Z) : byte :=
  default x00 (Byte.of_N (Z.to_N (z mod 256))).

#[global] Instance byte_eq_decision : EqDecision byte := Byte.byte_eq_dec.

#[global] Instance byte_countable : Countable byte :=
  inj_countable Byte.to_N Byte.of_N Byte.of_to_N.

(** The value of a byte held in a plain [char] once promoted to [int]. *)
Definition char_val (char_signed : bool) (b : byte) : Z :=
  if char_signed && (128 <=? byte_val b) then byte_val b - 256 else byte_val b.

(** Conversion of an [int] to [unsigned char]. *)
Definition to_uchar (z : Z) : Z := z mod 256.

(** [((c >> i) & 1) == 1] on a promoted [char]. *)
Definition bit_is_set (c : Z) (i : Z) : bool :=
  Z.land (Z.shiftr c i) 1 =? 1.

(** ** Filename validation *)

Definition FILENAME_SIZE : nat := 13.

Definition valid_filename_character (character : Z) : bool :=
  ((36 <=? character) && (character <=? 41)) ||
  ((48 <=? character) && (character <=? 57)) ||
  ((64 <=? character) && (character <=? 90)) ||
  ((94 <=? character) && (character <=? 123)) ||
  (character =? 33) ||
  (character =? 45) ||
  (character =? 46) ||
  (character =? 125) ||
  (character =? 126).

(** The [for] loop of lines 72-82 on the bytes still to visit, the first
    of which has index [i]: [true] when the loop is left without
    returning [EXIT_FAILURE]. *)
Fixpoint filename_loop (char_signed : bool) (filename_last_i : nat)
    (i : nat) (rest : list byte) : bool :=
  match rest with
  | [] => true
  | c :: rest' =>
      if (0 <? i)%nat && (char_val char_signed c =? 0) then true
      else if negb (valid_filename_character (char_val char_signed c))
              || ((i =? filename_last_i)%nat
                  && negb (char_val char_signed c =? 0))
      then false
      else filename_loop char_signed filename_last_i (S i) rest'
  end.

Definition filename_ok (char_signed : bool) (filename_buffer : list byte) : bool :=
  filename_loop char_signed (length filename_buffer - 1) 0 filename_buffer.

(** The C string that starts a buffer: the bytes before the first zero. *)
Fixpoint c_string (buffer : list byte) : list byte :=
  match buffer with
  | [] => []
  | c :: rest => if decide (c = x00) then [] else c :: c_string rest
  end.

Definition strlen (buffer : list byte) : nat := length (c_string buffer).

(** How lines 58-82 dispose of the bytes that the [fread] of line 56 put
    in [filename_buffer]. *)
Inductive filename_verdict : Type :=
  | NoFilename        (* line 59: nothing read, [EXIT_FAILURE] *)
  | EndOfArchive      (* line 66: [break] *)
  | BadFilename       (* line 77: [EXIT_FAILURE] *)
  | GoodFilename.

Definition check_filename (char_signed : bool) (filename_buffer : list byte)
    : filename_verdict :=
  let filename_read := length filename_buffer in
  if decide (filename_read = 0%nat) then NoFilename
  else if decide (filename_read = 1%nat ∧ head filename_buffer = Some x00)
  then EndOfArchive
  else if negb (filename_ok char_signed filename_buffer) then BadFilename
  else GoodFilename.

(** ** Outcome of running a piece of the program *)

Inductive exec (A : Type) : Type :=
  | Ok (a : A)
  | OutOfBounds
  | OutOfFuel.
Arguments Ok {A} a.
Arguments OutOfBounds {A}.
Arguments OutOfFuel {A}.

Definition exec_bind {A B : Type} (m : exec A) (k : A -> exec B) : exec B :=
  match m with
  | Ok a => k a
  | OutOfBounds => OutOfBounds
  | OutOfFuel => OutOfFuel
  end.

Notation "x <-- m ;; k" := (exec_bind m (fun x => k))
  (at level 100, m at next level, right associativity).

(** [buffer[index]] as an rvalue. *)
Definition load (buffer : list byte) (index : nat) : exec byte :=
  match buffer !! index with
  | Some b => Ok b
  | None => OutOfBounds
  end.

(** [buffer[index] = b]. *)
Definition store (buffer : list byte) (index : nat) (b : byte) : exec (list byte) :=
  if decide (index < length buffer)%nat then Ok (<[index := b]> buffer)
  else OutOfBounds.

(** [malloc(size)]: a buffer of [size] bytes of unspecified content. *)
Definition malloc (junk : nat -> byte) (size : nat) : list byte :=
  junk <$> seq 0 size.

(** ** Run-length codec (compression level 1), lines 158-184 *)

Record rle_state : Type := RleState {
  rle_compressed_pointer : nat;
  rle_uncompressed_data : list byte;
  rle_uncompressed_pointer : nat
}.

(** Lines 174-176: [count - i] iterations are left. *)
Fixpoint rle_duplicate (compressed_data : list byte) (left : nat)
    (st : rle_state) : exec rle_state :=
  match left with
  | O => Ok st
  | S left' =>
      b <-- load compressed_data (rle_compressed_pointer st) ;;
      data <-- store (rle_uncompressed_data st) (rle_uncompressed_pointer st) b ;;
      rle_duplicate compressed_data left'
        (RleState (rle_compressed_pointer st) data
                  (S (rle_uncompressed_pointer st)))
  end.

(** Lines 180-182: [flag + 1 - i] iterations are left. *)
Fixpoint rle_literal (compressed_data : list byte) (left : nat)
    (st : rle_state) : exec rle_state :=
  match left with
  | O => Ok st
  | S left' =>
      b <-- load compressed_data (rle_compressed_pointer st) ;;
      data <-- store (rle_uncompressed_data st) (rle_uncompressed_pointer st) b ;;
      rle_literal compressed_data left'
        (RleState (S (rle_compressed_pointer st)) data
                  (S (rle_uncompressed_pointer st)))
  end.

(** One iteration of the [while] of line 163, entered with
    [compressed_pointer < compressed_size]. *)
Definition rle_group (compressed_data : list byte) (st : rle_state) : exec rle_state :=
  b <-- load compressed_data (rle_compressed_pointer st) ;;
  let flag := to_uchar (byte_val b) in
  let st1 := RleState (S (rle_compressed_pointer st))
                      (rle_uncompressed_data st) (rle_uncompressed_pointer st) in
  if 127 <? flag then
    let count := to_uchar (flag - 125) in
    st2 <-- rle_duplicate compressed_data (Z.to_nat count) st1 ;;
    Ok (RleState (S (rle_compressed_pointer st2))
                 (rle_uncompressed_data st2) (rle_uncompressed_pointer st2))
  else
    rle_literal compressed_data (Z.to_nat (flag + 1)) st1.

Fixpoint rle_loop (fuel : nat) (compressed_data : list byte)
    (st : rle_state) : exec rle_state :=
  if decide (rle_compressed_pointer st < length compressed_data)%nat then
    match fuel with
    | O => OutOfFuel
    | S fuel' =>
        st' <-- rle_group compressed_data st ;;
        rle_loop fuel' compressed_data st'
    end
  else Ok st.

(** The decoder of a level-1 entry: [compressed_data] holds
    [compressed_size] bytes, [uncompressed_data] is the fresh buffer of
    [uncompressed_size] bytes. One unit of fuel per payload byte. *)
Definition rle_decode (compressed_data uncompressed_data : list byte) : exec rle_state :=
  rle_loop (length compressed_data) compressed_data
           (RleState 0 uncompressed_data 0).

(** ** Sliding-window codec (compression levels above 1), lines 215-338 *)

(** Conversion of an [int] to [unsigned int]. *)
Definition to_uint (z : Z) : Z := z mod 2 ^ 32.

(** Accesses with an [int] index. *)
Definition load_at (buffer : list byte) (index : Z) : exec byte :=
  if index <? 0 then OutOfBounds else load buffer (Z.to_nat index).

Definition store_at (buffer : list byte) (index : Z) (b : byte) : exec (list byte) :=
  if index <? 0 then OutOfBounds else store buffer (Z.to_nat index) b.

Definition offset_bits_of (compression_level : Z) : Z := to_uchar (6 - compression_level).
Definition run_length_bits_of (offset_bits : Z) : Z := to_uchar (8 - offset_bits).
Definition max_run_length_of (offset_bits : Z) : Z :=
  Z.shiftl 1 (run_length_bits_of offset_bits) + 2.
Definition max_offset_of (offset_bits : Z) : Z :=
  Z.shiftl 1 (offset_bits + 8) - 1.

Record win_state : Type := WinState {
  compressed_pointer : nat;
  uncompressed_data : list byte;
  uncompressed_pointer : nat;
  sliding_window : list byte;
  sliding_offset : Z
}.

Inductive escape_message : Type :=
  | InvalidOffset
  | InvalidRunLength.

(** How a piece of the decoder is left: by falling through, or by
    [goto ESCAPE_LOOP] after printing a message. *)
Inductive signal : Type :=
  | Next (st : win_state)
  | Escape (message : escape_message) (st : win_state).

(** The state in which a piece of the decoder is left. *)
Definition signal_state (r : signal) : win_state :=
  match r with
  | Next st => st
  | Escape _ st => st
  end.

(** Body of the loop of lines 267-272 for bit [i] of the first byte [c]:
    the state is [(offset, count)]. *)
Definition first_byte_bit (c : Z) (acc : Z * Z) (i : Z) : Z * Z :=
  let '(offset, count) := acc in
  let offset := if bit_is_set c i then offset + Z.shiftl 1 count else offset in
  (offset, count + 1).

(** Body of the loop of lines 275-287 for bit [i] of the second byte [c]:
    the state is [(offset, run_length, count)]. *)
Definition second_byte_bit (offset_bits : Z) (c : Z) (acc : Z * Z * Z) (i : Z)
    : Z * Z * Z :=
  let '(offset, run_length, count) := acc in
  let count := if i =? offset_bits then 0 else count in
  let '(offset, run_length) :=
    if bit_is_set c i then
      if offset_bits <=? i then (offset, run_length + Z.shiftl 1 count)
      else (offset + Z.shiftl 1 count, run_length)
    else (offset, run_length) in
  (offset, run_length, count + 1).

Definition byte_indices : list Z := [0; 1; 2; 3; 4; 5; 6; 7].

(** Lines 265-288 on the two promoted bytes of a token:
    [(offset, run_length)]. *)
Definition decode_token (offset_bits : Z) (c1 c2 : Z) : Z * Z :=
  let '(offset, count) := foldl (first_byte_bit c1) (-1, 0) byte_indices in
  let '(offset, run_length, _) :=
    foldl (second_byte_bit offset_bits c2) (offset, 2, count) byte_indices in
  (offset, run_length).

Definition advance (max_offset : Z) (cursor : Z) : Z :=
  if cursor <? max_offset then cursor + 1 else 0.

(** Lines 303-332: [run_length - i] iterations are left. *)
Fixpoint copy_run (max_offset : Z) (left : nat) (offset : Z) (st : win_state)
    : exec signal :=
  match left with
  | O => Ok (Next st)
  | S left' =>
      if (max_offset <? offset)
         || (Z.of_nat (uncompressed_pointer st) <=? to_uint offset)
      then Ok (Escape InvalidOffset st)
      else
        b <-- load_at (sliding_window st) offset ;;
        window <-- store_at (sliding_window st) (sliding_offset st) b ;;
        data <-- store (uncompressed_data st) (uncompressed_pointer st) b ;;
        copy_run max_offset left' (advance max_offset offset)
          (WinState (compressed_pointer st) data (S (uncompressed_pointer st))
                    window (advance max_offset (sliding_offset st)))
  end.

(** Lines 264-332: a token whose flag bit is clear. *)
Definition back_reference (char_signed : bool) (offset_bits : Z)
    (compressed_data : list byte) (st : win_state) : exec signal :=
  c1 <-- load compressed_data (compressed_pointer st) ;;
  c2 <-- load compressed_data (S (compressed_pointer st)) ;;
  let '(offset, run_length) :=
    decode_token offset_bits (char_val char_signed c1) (char_val char_signed c2) in
  let st' := WinState (S (S (compressed_pointer st))) (uncompressed_data st)
                      (uncompressed_pointer st) (sliding_window st)
                      (sliding_offset st) in
  if offset <? 0 then Ok (Escape InvalidOffset st')
  else if max_run_length_of offset_bits <? run_length
  then Ok (Escape InvalidRunLength st')
  else copy_run (max_offset_of offset_bits) (Z.to_nat run_length) offset st'.

(** Lines 246-260: a token whose flag bit is set. *)
Definition literal (offset_bits : Z) (compressed_data : list byte)
    (st : win_state) : exec signal :=
  b <-- load compressed_data (compressed_pointer st) ;;
  data <-- store (uncompressed_data st) (uncompressed_pointer st) b ;;
  window <-- store_at (sliding_window st) (sliding_offset st) b ;;
  Ok (Next (WinState (S (compressed_pointer st)) data
                     (S (uncompressed_pointer st)) window
                     (advance (max_offset_of offset_bits) (sliding_offset st)))).

(** Lines 243-337: the tokens of one flag byte, [8 - bit] of them left. *)
Fixpoint token_loop (char_signed : bool) (offset_bits : Z)
    (compressed_data : list byte) (flag : Z) (left : nat) (bit : Z)
    (st : win_state) : exec signal :=
  match left with
  | O => Ok (Next st)
  | S left' =>
      r <-- (if bit_is_set flag bit
             then literal offset_bits compressed_data st
             else back_reference char_signed offset_bits compressed_data st) ;;
      match r with
      | Escape message st' => Ok (Escape message st')
      | Next st' =>
          if decide (length compressed_data <= compressed_pointer st')%nat
          then Ok (Next st')
          else token_loop char_signed offset_bits compressed_data flag
                          left' (bit + 1) st'
      end
  end.

(** One iteration of the [while] of line 238. *)
Definition win_group (char_signed : bool) (offset_bits : Z)
    (compressed_data : list byte) (st : win_state) : exec signal :=
  c <-- load compressed_data (compressed_pointer st) ;;
  token_loop char_signed offset_bits compressed_data (char_val char_signed c) 8 0
    (WinState (S (compressed_pointer st)) (uncompressed_data st)
              (uncompressed_pointer st) (sliding_window st) (sliding_offset st)).

Fixpoint win_loop (fuel : nat) (char_signed : bool) (offset_bits : Z)
    (compressed_data : list byte) (st : win_state) : exec signal :=
  if decide (compressed_pointer st < length compressed_data)%nat then
    match fuel with
    | O => OutOfFuel
    | S fuel' =>
        r <-- win_group char_signed offset_bits compressed_data st ;;
        match r with
        | Escape message st' => Ok (Escape message st')
        | Next st' => win_loop fuel' char_signed offset_bits compressed_data st'
        end
    end
  else Ok (Next st).

(** The decoder of an entry of a supported level above 1:
    [uncompressed_data] and [sliding_window] are the fresh buffers of
    lines 231 and 235. One unit of fuel per payload byte. *)
Definition win_decode (char_signed : bool) (offset_bits : Z)
    (compressed_data uncompressed_data sliding_window : list byte) : exec signal :=
  win_loop (length compressed_data) char_signed offset_bits compressed_data
           (WinState 0 uncompressed_data 0 sliding_window 0).

(** ** The archive reader, lines 38-381 *)

Definition EXIT_SUCCESS : Z := 0.
Definition EXIT_FAILURE : Z := 1.

(** What [unpack] prints, on either stream. *)
Inductive message : Type :=
  | CouldNotReadFilename
  | InvalidFilename
  | Extracting (filename : list byte)
  | CouldNotReadCompressedSize
  | CouldNotReadUncompressedSize
  | CouldNotReadCompressionLevel
  | CouldNotReadFileData
  | CompressedSizeMismatch
  | OutputSizeMismatch
  | CouldNotWriteFileData
  | ErrorOpeningFile (filename : list byte)
  | UnsupportedRunAndOffsetLength (filename : list byte)
  | InvalidOffsetDuringDecompression (filename : list byte)
  | InvalidRunLengthDuringDecompression (filename : list byte)
  | DoesNotMatchExpectedSize (filename : list byte).

(** The output folder and the messages printed so far (latest first). *)
Record world : Type := World {
  files : gmap (list byte) (list byte);
  printed : list message
}.

Definition say (m : message) (w : world) : world :=
  World (files w) (m :: printed w).

(** [fwrite] of the whole buffer to the file that [fopen(file_path, "wb")]
    has opened, and [fclose]. *)
Definition write_file (filename data : list byte) (w : world) : world :=
  World (<[filename := data]> (files w)) (printed w).

(** [fread] of up to [size] bytes at position [stream]. *)
Definition fread (archive : list byte) (stream size : nat) : list byte :=
  take size (drop stream archive).

(** A 4-byte object read as an [unsigned int] on a little-endian host. *)
Definition uint_of_bytes (bytes : list byte) : Z :=
  foldr (fun b acc => byte_val b + 256 * acc) 0 bytes.

Definition read_uint (archive : list byte) (stream : nat) : option nat :=
  let bytes := fread archive stream 4 in
  if decide (length bytes = 4%nat) then Some (Z.to_nat (uint_of_bytes bytes))
  else None.

Definition escape_line (m : escape_message) (filename : list byte) : message :=
  match m with
  | InvalidOffset => InvalidOffsetDuringDecompression filename
  | InvalidRunLength => InvalidRunLengthDuringDecompression filename
  end.

(** How one iteration of the [while (1)] of line 50 ends. *)
Inductive step : Type :=
  | Return (status : Z) (w : world)
  | Break (w : world)
  | Continue (stream : nat) (w : world).

(** Lines 136-375: the entry [filename] whose payload [compressed_data]
    has been read; [stream] is the position of the archive stream, just
    after the payload, and [position] that of the payload. The data only:
    the entry's file is taken to open and the calls of [free] are left
    out; [run_extract] has both. *)
Definition extract (char_signed : bool) (junk : nat -> byte)
    (filename : list byte) (compressed_size uncompressed_size : nat)
    (compression_level : Z) (compressed_data : list byte)
    (position stream : nat) (w : world) : exec step :=
  if compression_level =? 0 then
    let w := if decide (compressed_size ≠ uncompressed_size)
             then say CompressedSizeMismatch w else w in
    Ok (Continue (position + compressed_size)
                 (write_file filename compressed_data w))
  else if compression_level =? 1 then
    st <-- rle_decode compressed_data (malloc junk uncompressed_size) ;;
    let w := if decide (rle_uncompressed_pointer st ≠ uncompressed_size)
             then say OutputSizeMismatch w else w in
    let w := write_file filename (rle_uncompressed_data st) w in
    (* [fwrite(uncompressed_data, uncompressed_size, 1, file_pointer)]
       returns 0 when [uncompressed_size] is 0 *)
    if decide (uncompressed_size = 0%nat)
    then Ok (Return EXIT_FAILURE (say CouldNotWriteFileData w))
    else Ok (Continue (position + compressed_size) w)
  else if 1 <? compression_level then
    let offset_bits := offset_bits_of compression_level in
    if 8 <? offset_bits then
      Ok (Continue stream (say (UnsupportedRunAndOffsetLength filename) w))
    else
      r <-- win_decode char_signed offset_bits compressed_data
              (malloc junk uncompressed_size)
              (malloc junk (Z.to_nat (max_offset_of offset_bits))) ;;
      let '(st, w) :=
        match r with
        | Next st => (st, w)
        | Escape m st => (st, say (escape_line m filename) w)
        end in
      let w := if decide (uncompressed_pointer st ≠ uncompressed_size
                          ∨ compressed_pointer st ≠ compressed_size)
               then say (DoesNotMatchExpectedSize filename) w else w in
      Ok (Continue (position + compressed_size)
                   (write_file filename (uncompressed_data st) w))
  else Ok (Return EXIT_FAILURE w).

(** What lines 51-126 leave: a way out of the iteration, or the header
    and the payload of an entry. *)
Inductive parsed : Type :=
  | Stop (s : step)
  | Entry (filename : list byte) (compressed_size uncompressed_size : nat)
          (compression_level : Z) (position : nat)
          (compressed_data : list byte) (w : world).

(** Lines 51-126, the stream being at [position]. *)
Definition read_entry (char_signed : bool) (archive : list byte)
    (position : nat) (w : world) : parsed :=
  let filename_buffer := fread archive position FILENAME_SIZE in
  match check_filename char_signed filename_buffer with
  | NoFilename => Stop (Return EXIT_FAILURE (say CouldNotReadFilename w))
  | EndOfArchive => Stop (Break w)
  | BadFilename => Stop (Return EXIT_FAILURE (say InvalidFilename w))
  | GoodFilename =>
    let filename := c_string filename_buffer in
    let w := say (Extracting filename) w in
    let stream := (position + strlen filename_buffer + 1)%nat in
    match read_uint archive stream with
    | None => Stop (Return EXIT_FAILURE (say CouldNotReadCompressedSize w))
    | Some compressed_size =>
    match read_uint archive (stream + 4) with
    | None => Stop (Return EXIT_FAILURE (say CouldNotReadUncompressedSize w))
    | Some uncompressed_size =>
    match archive !! (stream + 8)%nat with
    | None => Stop (Return EXIT_FAILURE (say CouldNotReadCompressionLevel w))
    | Some level =>
        let position := (stream + 9)%nat in
        let compressed_data := fread archive position compressed_size in
        (* [fread(compressed_data, compressed_size, 1, archive_pointer)]
           returns 0 when [compressed_size] is 0 *)
        if decide (compressed_size = 0%nat
                   ∨ (length compressed_data < compressed_size)%nat)
        then Stop (Return EXIT_FAILURE (say CouldNotReadFileData w))
        else Entry filename compressed_size uncompressed_size
                   (char_val char_signed level) position compressed_data w
    end end end
  end.

(** Lines 51-375: one iteration of the loop, the stream being at
    [position]. *)
Definition unpack_entry (char_signed : bool) (junk : nat -> byte)
    (archive : list byte) (position : nat) (w : world) : exec step :=
  match read_entry char_signed archive position w with
  | Stop s => Ok s
  | Entry filename compressed_size uncompressed_size compression_level
          position compressed_data w =>
      extract char_signed junk filename compressed_size uncompressed_size
              compression_level compressed_data
              position (position + compressed_size) w
  end.

Fixpoint unpack_loop (fuel : nat) (char_signed : bool) (junk : nat -> byte)
    (archive : list byte) (position : nat) (w : world) : exec (Z * world) :=
  match fuel with
  | O => OutOfFuel
  | S fuel' =>
      s <-- unpack_entry char_signed junk archive position w ;;
      match s with
      | Return status w' => Ok (status, w')
      | Break w' => Ok (EXIT_SUCCESS, w')
      | Continue stream w' =>
          unpack_loop fuel' char_signed junk archive stream w'
      end
  end.

(** [unpack(archive_path, folder_path)] for an archive file that can be
    opened and holds [archive], and a folder that holds [folder]. Every
    iteration that goes on moves the stream forward, so one unit of fuel
    per archive byte, and one more, is enough. *)
Definition unpack (char_signed : bool) (junk : nat -> byte)
    (archive : list byte) (folder : gmap (list byte) (list byte))
    : exec (Z * world) :=
  unpack_loop (S (length archive)) char_signed junk archive 0 (World folder []).

(** ** The archive writer, lines 383-470 *)

Definition dot : list byte := [x2e].
Definition dotdot : list byte := [x2e; x2e].

(** Lines 435-439. *)
Definition file_size_bytes (file_size : Z) : list byte :=
  let u := to_uint file_size in
  [ byte_of_Z (Z.land u 255);
    byte_of_Z (Z.land (Z.shiftr u 8) 255);
    byte_of_Z (Z.land (Z.shiftr u 16) 255);
    byte_of_Z (Z.land (Z.shiftr u 24) 255) ].

(** Lines 442-447: the name and its terminator, the size twice, and a
    zero for the compression level, [strlen(d_name) + 10] bytes. *)
Definition metadata (d_name : list byte) (file_size : Z) : list byte :=
  d_name ++ [x00] ++ file_size_bytes file_size ++ file_size_bytes file_size
         ++ [x00].

(** The loop of lines 400-456 over the entries that [readdir] returns,
    each with the content of its file; [archive] is what has been written
    so far. *)
Fixpoint pack_loop (entries : list (list byte * list byte))
    (archive : list byte) : list byte :=
  match entries with
  | [] => archive
  | (d_name, file_data) :: entries' =>
      if decide (d_name = dot ∨ d_name = dotdot) then pack_loop entries' archive
      else
        pack_loop entries'
          (archive ++ metadata d_name (Z.of_nat (length file_data)) ++ file_data)
  end.

(** [pack(folder_path, archive_path)] for a folder and files that can be
    opened: the bytes of the archive written. *)
Definition pack (entries : list (list byte * list byte)) : list byte :=
  pack_loop entries [] ++ [x00].

(** ** The world that a step leaves *)

Definition step_world (s : step) : world :=
  match s with
  | Return _ w => w
  | Break w => w
  | Continue _ w => w
  end.

(** ** Strings and blocks in buffers, [<string.h>] *)

(** [bytes] stored from [index] on, one byte after the other. *)
Fixpoint write_bytes (dest : list byte) (index : nat) (bytes : list byte)
    : exec (list byte) :=
  match bytes with
  | [] => Ok dest
  | b :: bytes' =>
      dest' <-- store dest index b ;;
      write_bytes dest' (S index) bytes'
  end.

(** [strcpy(dest, src)]: the string that [src] holds and its terminator,
    from the start of [dest]. A buffer without a zero byte holds no
    string: the call reads past its end. *)
Definition strcpy (dest src : list byte) : exec (list byte) :=
  if decide (x00 ∈ src) then write_bytes dest 0 (c_string src ++ [x00])
  else OutOfBounds.

(** [strcat(dest, src)]: the same, from the terminator of the string that
    [dest] holds. *)
Definition strcat (dest src : list byte) : exec (list byte) :=
  if decide (x00 ∈ dest ∧ x00 ∈ src)
  then write_bytes dest (strlen dest) (c_string src ++ [x00])
  else OutOfBounds.

(** [memcpy(&dest[index], src, n)]. *)
Definition memcpy (dest : list byte) (index : nat) (src : list byte) (n : nat)
    : exec (list byte) :=
  if decide (n <= length src)%nat then write_bytes dest index (take n src)
  else OutOfBounds.

(** The string ["/"]. *)
Definition slash : list byte := [x2f; x00].

(** Lines 129-133 of [unpack] and 410-414 of [pack]: the path of a file
    of the folder, built in a fresh block of
    [strlen(filename) + strlen(folder_path) + 2] bytes. *)
Definition file_path (junk : nat -> byte) (folder_path filename : list byte)
    : exec (list byte) :=
  let file_path_size := (strlen filename + strlen folder_path + 2)%nat in
  path <-- strcpy (malloc junk file_path_size) folder_path ;;
  path <-- strcat path slash ;;
  strcat path filename.

(** Lines 442-447 of [pack]: the metadata of an entry, built in a fresh
    block of [strlen(d_name) + 10] bytes. *)
Definition metadata_block (junk : nat -> byte) (d_name : list byte)
    (file_size : Z) : exec (list byte) :=
  let metadata_size := (strlen d_name + 10)%nat in
  buffer <-- strcpy (malloc junk metadata_size) d_name ;;
  buffer <-- memcpy buffer (metadata_size - 9) (file_size_bytes file_size) 4 ;;
  buffer <-- memcpy buffer (metadata_size - 5) (file_size_bytes file_size) 4 ;;
  store buffer (metadata_size - 1) x00.

(** ** The heap blocks of one iteration of [unpack], lines 121-368 *)

Inductive block : Type :=
  | CompressedData
  | FilePath
  | UncompressedData
  | SlidingWindow.

#[global] Instance block_eq_decision : EqDecision block.
Proof. solve_decision. Defined.

(** What the program does with a block. *)
Inductive heap_event : Type :=
  | Malloc (b : block)
  | Access (b : block)
  | Free (b : block).

(** How a sequence of events ends: with some blocks still allocated, or
    at the first event that [<stdlib.h>] leaves undefined. *)
Inductive heap_verdict : Type :=
  | StillAllocated (blocks : list block)
  | DoubleFree (b : block)
  | UseAfterFree (b : block).

Fixpoint heap_run (allocated : list block) (events : list heap_event)
    : heap_verdict :=
  match events with
  | [] => StillAllocated allocated
  | Malloc b :: events' => heap_run (b :: allocated) events'
  | Access b :: events' =>
      if decide (b ∈ allocated) then heap_run allocated events'
      else UseAfterFree b
  | Free b :: events' =>
      if decide (b ∈ allocated)
      then heap_run (filter (fun b' => b' ≠ b) allocated) events'
      else DoubleFree b
  end.

(** The events of lines 121-375 for an entry whose payload has been read:
    the branches of [extract], with the calls of [malloc] and [free] and
    the accesses to the blocks in the order of the source. [file_opens]
    tells whether the [fopen] of the entry's file succeeds; [extract] is
    the case where it does. *)
Definition extract_heap (char_signed : bool) (junk : nat -> byte)
    (uncompressed_size : nat) (compression_level : Z)
    (compressed_data : list byte) (file_opens : bool)
    : exec (list heap_event) :=
  let entry := [Malloc CompressedData; Access CompressedData;   (* 121-122 *)
                Malloc FilePath; Access FilePath] in            (* 130-133 *)
  if compression_level =? 0 then
    Ok (entry ++ [Access FilePath; Free FilePath]               (* 143-144 *)
          ++ (if file_opens
              then [Access CompressedData; Free CompressedData] (* 152-154 *)
                   ++ [Free CompressedData]                     (* 368 *)
              else [Access FilePath]))                          (* 147 *)
  else if compression_level =? 1 then
    _ <-- rle_decode compressed_data (malloc junk uncompressed_size) ;;
    Ok (entry ++ [Malloc UncompressedData;                      (* 159 *)
                  Access CompressedData; Access UncompressedData;
                  Free CompressedData;                          (* 187 *)
                  Access FilePath; Free FilePath]               (* 195-196 *)
          ++ (if file_opens
              then [Access UncompressedData;                    (* 205 *)
                    Free UncompressedData]                      (* 207 *)
                   ++ (if decide (uncompressed_size = 0%nat) then []
                       else [Free CompressedData])              (* 368 *)
              else [Free UncompressedData; Access FilePath]))   (* 199-200 *)
  else if 1 <? compression_level then
    let offset_bits := offset_bits_of compression_level in
    if 8 <? offset_bits then
      Ok (entry ++ [Free FilePath; Free CompressedData])        (* 219-220 *)
    else
      r <-- win_decode char_signed offset_bits compressed_data
              (malloc junk uncompressed_size)
              (malloc junk (Z.to_nat (max_offset_of offset_bits))) ;;
      Ok (entry ++ [Malloc UncompressedData;                    (* 231 *)
                    Malloc SlidingWindow;                       (* 235 *)
                    Access CompressedData; Access UncompressedData;
                    Access SlidingWindow]
            ++ match r with
               | Next _ => [Free SlidingWindow]                 (* 340 *)
               | Escape _ _ => []                               (* goto *)
               end
            ++ [Access FilePath]                                (* 349 *)
            ++ (if file_opens
                then [Free FilePath;                            (* 353 *)
                      Access UncompressedData;                  (* 356 *)
                      Free UncompressedData;                    (* 360 *)
                      Free CompressedData]                      (* 368 *)
                else [Access FilePath]))                        (* 350 *)
  else Ok entry.

(** ** An iteration with its files and its blocks, lines 128-375 *)

(** What the C standard leaves undefined and an iteration can run into. *)
Inductive undefined : Type :=
  | OutsideBuffer                 (* an access outside a buffer *)
  | FreedTwice (b : block)        (* [free] of a block already freed *)
  | UsedAfterFree (b : block).    (* an access to a block already freed *)

(** A run of a piece of the program, with what is undefined told
    apart. *)
Inductive run (A : Type) : Type :=
  | Done (a : A)
  | Undefined (u : undefined)
  | NoFuel.
Arguments Done {A} a.
Arguments Undefined {A} u.
Arguments NoFuel {A}.

Definition run_bind {A B : Type} (m : run A) (k : A -> run B) : run B :=
  match m with
  | Done a => k a
  | Undefined u => Undefined u
  | NoFuel => NoFuel
  end.

Notation "x <~~ m ;; k" := (run_bind m (fun x => k))
  (at level 100, m at next level, right associativity).

(** A piece of the program that accesses buffers only. *)
Definition within_buffers {A : Type} (m : exec A) : run A :=
  match m with
  | Ok a => Done a
  | OutOfBounds => Undefined OutsideBuffer
  | OutOfFuel => NoFuel
  end.

(** [free(b)]: [allocated] are the blocks that [malloc] has returned and
    [free] has not yet released. *)
Definition free (b : block) (allocated : list block) : run (list block) :=
  if decide (b ∈ allocated)
  then Done (filter (fun b' => b' ≠ b) allocated)
  else Undefined (FreedTwice b).

(** A read or a write of the bytes of [b]. *)
Definition access (b : block) (allocated : list block) : run (list block) :=
  if decide (b ∈ allocated) then Done allocated
  else Undefined (UsedAfterFree b).

(** Whether [fopen(file_path, "wb")] returns a stream for the file
    [filename] of the output folder. ["."] and [".."] name directories,
    which cannot be opened for writing; for the other names [writable]
    tells what the operating system grants. *)
Definition fopen_wb (writable : list byte -> bool) (filename : list byte)
    : bool :=
  if decide (filename = dot ∨ filename = dotdot) then false
  else writable filename.

(** Lines 128-375 statement by statement, for the entry [filename] whose
    payload [compressed_data] has been read: what [extract] computes, the
    result of [fopen] and the blocks of [extract_heap] together. The run
    ends with the way out of the iteration and the blocks it leaves
    allocated, or at the first statement that is undefined. *)
Definition run_extract (writable : list byte -> bool) (char_signed : bool)
    (junk : nat -> byte) (filename : list byte)
    (compressed_size uncompressed_size : nat) (compression_level : Z)
    (compressed_data : list byte) (position stream : nat) (w : world)
    : run (step * list block) :=
  let file_opens := fopen_wb writable filename in
  let allocated := [FilePath; CompressedData] in               (* 121, 130 *)
  if compression_level =? 0 then
    let w := if decide (compressed_size ≠ uncompressed_size)
             then say CompressedSizeMismatch w else w in
    allocated <~~ access FilePath allocated ;;                  (* 143 *)
    allocated <~~ free FilePath allocated ;;                    (* 144 *)
    if file_opens then
      allocated <~~ access CompressedData allocated ;;          (* 152 *)
      let w := write_file filename compressed_data w in
      allocated <~~ free CompressedData allocated ;;            (* 154 *)
      allocated <~~ free CompressedData allocated ;;            (* 368 *)
      Done (Continue (position + compressed_size) w, allocated)
    else
      allocated <~~ access FilePath allocated ;;                (* 147 *)
      Done (Return EXIT_FAILURE (say (ErrorOpeningFile filename) w),
            allocated)
  else if compression_level =? 1 then
    let allocated := UncompressedData :: allocated in           (* 159 *)
    st <~~ within_buffers
             (rle_decode compressed_data (malloc junk uncompressed_size)) ;;
    allocated <~~ free CompressedData allocated ;;              (* 187 *)
    let w := if decide (rle_uncompressed_pointer st ≠ uncompressed_size)
             then say OutputSizeMismatch w else w in
    allocated <~~ access FilePath allocated ;;                  (* 195 *)
    allocated <~~ free FilePath allocated ;;                    (* 196 *)
    if file_opens then
      allocated <~~ access UncompressedData allocated ;;        (* 205 *)
      let w := write_file filename (rle_uncompressed_data st) w in
      allocated <~~ free UncompressedData allocated ;;          (* 207 *)
      (* [fwrite(uncompressed_data, uncompressed_size, 1, file_pointer)]
         returns 0 when [uncompressed_size] is 0 *)
      if decide (uncompressed_size = 0%nat)
      then Done (Return EXIT_FAILURE (say CouldNotWriteFileData w), allocated)
      else
        allocated <~~ free CompressedData allocated ;;          (* 368 *)
        Done (Continue (position + compressed_size) w, allocated)
    else
      allocated <~~ free UncompressedData allocated ;;          (* 199 *)
      allocated <~~ access FilePath allocated ;;                (* 200 *)
      Done (Return EXIT_FAILURE (say (ErrorOpeningFile filename) w),
            allocated)
  else if 1 <? compression_level then
    let offset_bits := offset_bits_of compression_level in
    if 8 <? offset_bits then
      let w := say (UnsupportedRunAndOffsetLength filename) w in
      allocated <~~ free FilePath allocated ;;                  (* 219 *)
      allocated <~~ free CompressedData allocated ;;            (* 220 *)
      Done (Continue stream w, allocated)
    else
      let allocated :=
        SlidingWindow :: UncompressedData :: allocated in       (* 231, 235 *)
      r <~~ within_buffers
              (win_decode char_signed offset_bits compressed_data
                 (malloc junk uncompressed_size)
                 (malloc junk (Z.to_nat (max_offset_of offset_bits)))) ;;
      leaving <~~ match r with
                  | Next st =>
                      allocated <~~ free SlidingWindow allocated ;; (* 340 *)
                      Done (st, w, allocated)
                  | Escape m st =>
                      Done (st, say (escape_line m filename) w, allocated)
                  end ;;
      let '(st, w, allocated) := leaving in
      let w := if decide (uncompressed_pointer st ≠ uncompressed_size
                          ∨ compressed_pointer st ≠ compressed_size)
               then say (DoesNotMatchExpectedSize filename) w else w in
      allocated <~~ access FilePath allocated ;;                (* 349 *)
      if file_opens then
        allocated <~~ free FilePath allocated ;;                (* 353 *)
        allocated <~~ access UncompressedData allocated ;;      (* 356 *)
        let w := write_file filename (uncompressed_data st) w in
        allocated <~~ free UncompressedData allocated ;;        (* 360 *)
        allocated <~~ free CompressedData allocated ;;          (* 368 *)
        Done (Continue (position + compressed_size) w, allocated)
      else
        allocated <~~ access FilePath allocated ;;              (* 350 *)
        Done (Return EXIT_FAILURE (say (ErrorOpeningFile filename) w),
              allocated)
  else Done (Return EXIT_FAILURE w, allocated).                 (* 362-365 *)

(** Lines 51-375: one iteration of the loop, the stream being at
    [position]. The blocks that an iteration leaves allocated are not
    referred to again. *)
Definition run_unpack_entry (writable : list byte -> bool)
    (char_signed : bool) (junk : nat -> byte) (archive : list byte)
    (position : nat) (w : world) : run step :=
  match read_entry char_signed archive position w with
  | Stop s => Done s
  | Entry filename compressed_size uncompressed_size compression_level
          position compressed_data w =>
      ended <~~ run_extract writable char_signed junk filename
                  compressed_size uncompressed_size compression_level
                  compressed_data position (position + compressed_size) w ;;
      Done ended.1
  end.

Fixpoint run_unpack_loop (fuel : nat) (writable : list byte -> bool)
    (char_signed : bool) (junk : nat -> byte) (archive : list byte)
    (position : nat) (w : world) : run (Z * world) :=
  match fuel with
  | O => NoFuel
  | S fuel' =>
      s <~~ run_unpack_entry writable char_signed junk archive position w ;;
      match s with
      | Return status w' => Done (status, w')
      | Break w' => Done (EXIT_SUCCESS, w')
      | Continue stream w' =>
          run_unpack_loop fuel' writable char_signed junk archive stream w'
      end
  end.

(** [unpack(archive_path, folder_path)] with the files that cannot be
    opened and the calls of [free]: the archive file can be opened and
    holds [archive], the folder holds [folder]. *)
Definition run_unpack (writable : list byte -> bool) (char_signed : bool)
    (junk : nat -> byte) (archive : list byte)
    (folder : gmap (list byte) (list byte)) : run (Z * world) :=
  run_unpack_loop (S (length archive)) writable char_signed junk archive 0
                  (World folder []).

(** ** Reference definitions, written from the format description *)

(** The legal filename character codes: 33; 36-41; 45; 46; 48-57; 64-90;
    94-123; 125; 126. *)
Definition legal_filename_byte (c : byte) : Prop :=
  let v := byte_val c in
  v = 33 ∨ 36 <= v <= 41 ∨ v = 45 ∨ v = 46 ∨ 48 <= v <= 57 ∨
  64 <= v <= 90 ∨ 94 <= v <= 123 ∨ v = 125 ∨ v = 126.

(** The same set with the range ['#'..')'] in place of 36-41. *)
Definition legal_filename_byte_from_hash (c : byte) : Prop :=
  let v := byte_val c in
  v = 33 ∨ 35 <= v <= 41 ∨ v = 45 ∨ v = 46 ∨ 48 <= v <= 57 ∨
  64 <= v <= 90 ∨ 94 <= v <= 123 ∨ v = 125 ∨ v = 126.

(** The 256 bytes, for proofs by enumeration. *)
Definition all_bytes : list byte :=
  (fun n => byte_of_Z (Z.of_nat n)) <$> seq 0 256.

(** The sum of [weight k] over the positions [k] of [positions] at which
    the byte [c] has a set bit. *)
Definition weighted_bits (c : byte) (weight : Z -> Z) (positions : list Z) : Z :=
  foldr (fun k acc => (if Z.testbit (byte_val c) k then weight k else 0) + acc)
        0 positions.

(** The offset and the run length of a back-reference token, as the
    format description words them. *)
Definition token_offset (offset_bits : Z) (c1 c2 : byte) : Z :=
  -1 + weighted_bits c1 (fun k => Z.shiftl 1 k) byte_indices
     + weighted_bits c2 (fun k => Z.shiftl 1 (8 + k))
         (filter (fun k => k < offset_bits) byte_indices).

Definition token_run_length (offset_bits : Z) (c2 : byte) : Z :=
  2 + weighted_bits c2 (fun k => Z.shiftl 1 (k - offset_bits))
        (filter (fun k => offset_bits <= k) byte_indices).

(** The run-length codec as the format description words it: the payload
    is a sequence of groups, each a flag byte [f] followed, when
    [f > 127], by one byte that stands for [f - 125] copies of itself
    and, otherwise, by [f + 1] bytes that stand for themselves.
    [rle_groups payload out]: the payload is such a sequence and [out]
    is what it stands for. *)
Inductive rle_groups : list byte -> list byte -> Prop :=
  | rle_groups_end : rle_groups [] []
  | rle_groups_duplicate (f b : byte) (payload out : list byte) :
      127 < byte_val f ->
      rle_groups payload out ->
      rle_groups (f :: b :: payload)
                 (replicate (Z.to_nat (byte_val f - 125)) b ++ out)
  | rle_groups_literal (f : byte) (run payload out : list byte) :
      byte_val f <= 127 ->
      length run = Z.to_nat (byte_val f + 1) ->
      rle_groups payload out ->
      rle_groups (f :: run ++ payload) (run ++ out).

(** The sliding-window codec as the format description words it, on
    byte lists: the payload still to read and the output produced so
    far. While the output is no longer than the window, the window holds
    the output from its index 0, so that a back-reference reads the output
    at the running offset. *)
Inductive ref_result : Type :=
  | RefNext (payload out : list byte)
  | RefEscape (message : escape_message) (payload out : list byte)
  | RefTruncated.

(** Emission of [left] bytes from the running [offset]; the boolean tells
    whether the offset check failed on the way. *)
Fixpoint ref_copy (max_offset : Z) (left : nat) (offset : Z) (out : list byte)
    : list byte * bool :=
  match left with
  | O => (out, false)
  | S left' =>
      if decide (offset <= max_offset ∧ offset < Z.of_nat (length out)) then
        match out !! Z.to_nat offset with
        | Some b =>
            ref_copy max_offset left'
              (if decide (offset < max_offset) then offset + 1 else 0)
              (out ++ [b])
        | None => (out, true)
        end
      else (out, true)
  end.

(** One token: a literal when [is_literal], else a back-reference. *)
Definition ref_token (offset_bits : Z) (is_literal : bool)
    (payload out : list byte) : ref_result :=
  if is_literal then
    match payload with
    | b :: payload' => RefNext payload' (out ++ [b])
    | [] => RefTruncated
    end
  else
    match payload with
    | c1 :: c2 :: payload' =>
        if decide (token_offset offset_bits c1 c2 < 0)
        then RefEscape InvalidOffset payload' out
        else if decide (max_run_length_of offset_bits
                        < token_run_length offset_bits c2)
        then RefEscape InvalidRunLength payload' out
        else
          match ref_copy (max_offset_of offset_bits)
                  (Z.to_nat (token_run_length offset_bits c2))
                  (token_offset offset_bits c1 c2) out with
          | (out', false) => RefNext payload' out'
          | (out', true) => RefEscape InvalidOffset payload' out'
          end
    | _ => RefTruncated
    end.

(** The tokens of one flag byte, low bit first, [left] of them at most;
    the group ends early when the payload is used up. *)
Fixpoint ref_tokens (offset_bits : Z) (flag : byte) (left : nat) (bit : Z)
    (payload out : list byte) : ref_result :=
  match left with
  | O => RefNext payload out
  | S left' =>
      match ref_token offset_bits (Z.testbit (byte_val flag) bit) payload out with
      | RefNext [] out' => RefNext [] out'
      | RefNext payload' out' =>
          ref_tokens offset_bits flag left' (bit + 1) payload' out'
      | r => r
      end
  end.

Fixpoint ref_groups (fuel : nat) (offset_bits : Z) (payload out : list byte)
    : ref_result :=
  match payload with
  | [] => RefNext [] out
  | flag :: payload' =>
      match fuel with
      | O => RefTruncated
      | S fuel' =>
          match ref_tokens offset_bits flag 8 0 payload' out with
          | RefNext payload'' out' => ref_groups fuel' offset_bits payload'' out'
          | r => r
          end
      end
  end.

Definition win_reference (offset_bits : Z) (payload : list byte) : ref_result :=
  ref_groups (length payload) offset_bits payload [].

(** What a run of the reference decoder produced, when every token it
    met was whole. *)
Definition ref_output (r : ref_result) : option (list byte) :=
  match r with
  | RefNext _ out => Some out
  | RefEscape _ _ out => Some out
  | RefTruncated => None
  end.

(** The state of the decoder of [src/archive.c] that stands for a
    reference state: the cursor is where the rest of the payload starts,
    and the output so far sits at the start of the output buffer and of
    the window. *)
Definition win_abs (compressed_data payload out buffer window : list byte)
    : win_state :=
  WinState (length compressed_data - length payload)
           (out ++ drop (length out) buffer) (length out)
           (out ++ drop (length out) window) (Z.of_nat (length out)).

Definition ref_signal (compressed_data buffer window : list byte)
    (r : ref_result) : exec signal :=
  match r with
  | RefNext payload out =>
      Ok (Next (win_abs compressed_data payload out buffer window))
  | RefEscape message payload out =>
      Ok (Escape message (win_abs compressed_data payload out buffer window))
  | RefTruncated => OutOfBounds
  end.

(** The reference run met whole tokens only and produced at most
    [limit] bytes. *)
Definition ref_fits (limit : nat) (r : ref_result) : Prop :=
  match ref_output r with
  | Some out => (length out <= limit)%nat
  | None => False
  end.

#[global] Instance ref_fits_dec (limit : nat) (r : ref_result) :
  Decision (ref_fits limit r).
Proof. unfold ref_fits. destruct (ref_output r); apply _. Defined.

(** The room for output: the decoder writes every byte it produces to the
    output buffer and to the window. *)
Definition win_limit (buffer window : list byte) : nat :=
  length buffer `min` length window.

(** The run of the decoder of [src/archive.c] that a reference run
    stands for: the same states while the tokens are whole and the output
    has room, an access outside a buffer otherwise. *)
Definition ref_exec (compressed_data buffer window : list byte)
    (r : ref_result) : exec signal :=
  if decide (ref_fits (win_limit buffer window) r)
  then ref_signal compressed_data buffer window r
  else OutOfBounds.

(** A name that an entry of the archive can carry and that the packer
    does not skip: 1 to 12 legal bytes, neither ["."] nor [".."]. *)
Definition representable_name (name : list byte) : Prop :=
  (1 <= length name <= 12)%nat
  ∧ Forall legal_filename_byte name
  ∧ (name ≠ dot ∧ name ≠ dotdot).

(** A folder entry that [pack] writes and [unpack] reads back as a whole
    entry: a representable name and a content that is not empty and whose
    size fits 32 bits. *)
Definition extractable (entry : list byte * list byte) : Prop :=
  representable_name entry.1 ∧ entry.2 ≠ []
  ∧ Z.of_nat (length entry.2) < 2 ^ 32.

(** The output folder once the file of an entry has been written. *)
Definition insert_entry (folder : gmap (list byte) (list byte))
    (entry : list byte * list byte) : gmap (list byte) (list byte) :=
  <[entry.1 := entry.2]> folder.

(** * Properties *)

(** ** Bytes *)

Lemma byte_val_range (b : byte) : 0 <= byte_val b < 256.
Proof.
  unfold byte_val. pose proof (Byte.to_N_bounded b). lia.
Qed.

Lemma byte_of_Z_val (b : byte) : byte_of_Z (byte_val b) = b.
Proof.
  unfold byte_of_Z. rewrite Z.mod_small by apply byte_val_range.
  unfold byte_val. rewrite N2Z.id, Byte.of_to_N. reflexivity.
Qed.

Lemma byte_val_of_Z (z : Z) : byte_val (byte_of_Z z) = z mod 256.
Proof.
  unfold byte_of_Z, byte_val.
  assert (Hr : 0 <= z mod 256 < 256) by (apply Z.mod_pos_bound; lia).
  destruct (Byte.of_N (Z.to_N (z mod 256))) as [b|] eqn:E.
  - apply Byte.to_of_N in E. simpl. rewrite E. lia.
  - apply Byte.of_N_None_iff in E. lia.
Qed.

Lemma byte_val_inj (a b : byte) : byte_val a = byte_val b -> a = b.
Proof.
  intros H. rewrite <- (byte_of_Z_val a), <- (byte_of_Z_val b). congruence.
Qed.

Lemma all_bytes_complete (b : byte) : b ∈ all_bytes.
Proof.
  unfold all_bytes. apply list_elem_of_fmap.
  exists (Z.to_nat (byte_val b)). pose proof (byte_val_range b). split.
  - rewrite Z2Nat.id by lia. symmetry. apply byte_of_Z_val.
  - apply elem_of_seq. lia.
Qed.

(** Enumeration principle: a boolean property checked on the 256 bytes
    holds of every byte. *)
Lemma forall_bytes (P : byte -> bool) :
  forallb P all_bytes = true -> forall b, P b = true.
Proof.
  intros H b. rewrite forallb_forall in H. apply H.
  apply list_elem_of_In. apply all_bytes_complete.
Qed.

(** Proof of a boolean equation on a byte [c] by evaluation at the 256
    bytes. *)
Ltac enumerate_bytes c :=
  revert c;
  match goal with
  | |- forall c : byte, @?lhs c = @?rhs c =>
      intros c; apply (Bool.eqb_prop (lhs c) (rhs c)); revert c;
      apply (forall_bytes (fun c => Bool.eqb (lhs c) (rhs c)));
      vm_compute; reflexivity
  end.

Lemma char_val_zero (char_signed : bool) (c : byte) :
  (char_val char_signed c =? 0) = bool_decide (c = x00).
Proof. destruct char_signed; enumerate_bytes c. Qed.

Lemma valid_filename_character_char (char_signed : bool) (c : byte) :
  valid_filename_character (char_val char_signed c)
  = valid_filename_character (byte_val c).
Proof. destruct char_signed; enumerate_bytes c. Qed.

Lemma valid_filename_character_legal (char_signed : bool) (c : byte) :
  valid_filename_character (char_val char_signed c) = true
  <-> legal_filename_byte c.
Proof.
  rewrite valid_filename_character_char.
  unfold valid_filename_character, legal_filename_byte.
  pose proof (byte_val_range c). cbv zeta.
  repeat rewrite orb_true_iff. repeat rewrite andb_true_iff.
  repeat rewrite Z.leb_le. repeat rewrite Z.eqb_eq. lia.
Qed.

Lemma legal_filename_byte_nonzero (c : byte) :
  legal_filename_byte c -> c ≠ x00.
Proof.
  intros H ->. unfold legal_filename_byte in H. vm_compute in H.
  repeat destruct H as [H|H]; try discriminate; destruct H; auto.
Qed.

(** ** Filename validation *)

Lemma legal_filename_byte_dec (c : byte) :
  {legal_filename_byte c} + {¬ legal_filename_byte c}.
Proof.
  destruct (valid_filename_character (char_val true c)) eqn:E.
  - left. apply (valid_filename_character_legal true). exact E.
  - right. intros H. apply (valid_filename_character_legal true) in H. congruence.
Qed.

Lemma filename_loop_true (char_signed : bool) (last i : nat) (rest : list byte) :
  rest ≠ [] -> (i + length rest = S last)%nat ->
  filename_loop char_signed last i rest = true
  <-> exists name tail, rest = name ++ x00 :: tail
        ∧ Forall legal_filename_byte name ∧ (i = 0%nat -> name ≠ []).
Proof.
  revert i. induction rest as [|c rest IH]; intros i Hne Hlen; [done|].
  simpl filename_loop. rewrite char_val_zero.
  destruct (decide (c = x00)) as [->|Hc].
  - rewrite bool_decide_eq_true_2 by done.
    destruct i as [|i]; simpl.
    + assert (Hz : valid_filename_character (char_val char_signed x00) = false)
        by (destruct char_signed; reflexivity).
      rewrite Hz. simpl. split; [done|].
      intros (name & tail & Heq & Hlegal & Hname).
      destruct name as [|n name]; [by destruct Hname|].
      simplify_eq/=. inversion Hlegal; subst.
      by destruct (legal_filename_byte_nonzero x00).
    + split; [|done]. intros _. exists [], rest. by repeat split.
  - rewrite bool_decide_eq_false_2 by done. rewrite andb_false_r. simpl.
    destruct (valid_filename_character (char_val char_signed c)) eqn:Hv; simpl.
    + apply valid_filename_character_legal in Hv. rewrite andb_true_r.
      destruct (Nat.eqb_spec i last) as [->|Hil].
      * assert (rest = []) by (destruct rest; [done|simpl in Hlen; lia]).
        subst rest. split; [done|].
        intros (name & tail & Heq & _ & _).
        destruct name as [|n [|? ?]]; simplify_eq/=.
      * assert (Hr : rest ≠ []) by (intros ->; simpl in Hlen; lia).
        rewrite IH by (done || simpl in Hlen; lia). split.
        -- intros (name & tail & -> & Hlegal & _).
           exists (c :: name), tail. repeat split; [by constructor|done].
        -- intros (name & tail & Heq & Hlegal & _).
           destruct name as [|n name]; simplify_eq/=.
           inversion Hlegal; subst. exists name, tail. repeat split; [done|lia].
    + split; [done|]. intros (name & tail & Heq & Hlegal & _).
      destruct name as [|n name]; simplify_eq/=.
      inversion Hlegal; subst.
      apply (valid_filename_character_legal char_signed) in H1. congruence.
Qed.

Lemma filename_ok_true (char_signed : bool) (buffer : list byte) :
  buffer ≠ [] ->
  filename_ok char_signed buffer = true
  <-> exists name tail, buffer = name ++ x00 :: tail
        ∧ name ≠ [] ∧ Forall legal_filename_byte name.
Proof.
  intros Hne. unfold filename_ok. rewrite filename_loop_true; [|done|].
  - split; intros (name & tail & ? & ? & ?); exists name, tail; auto.
  - destruct buffer; [done|]. simpl. lia.
Qed.

(** The longest legal prefix of a buffer. *)
Lemma legal_prefix (buffer : list byte) :
  Forall legal_filename_byte buffer
  ∨ exists name c tail, buffer = name ++ c :: tail
      ∧ Forall legal_filename_byte name ∧ ¬ legal_filename_byte c.
Proof.
  induction buffer as [|b buffer IH]; [by left|].
  destruct (legal_filename_byte_dec b) as [Hb|Hb].
  - destruct IH as [IH|(name & c & tail & -> & Hn & Hc)].
    + left. by constructor.
    + right. exists (b :: name), c, tail. repeat split; [by constructor|done].
  - right. exists [], b, buffer. by repeat split.
Qed.

Lemma legal_prefix_unique (n1 n2 : list byte) (c1 c2 : byte) (t1 t2 : list byte) :
  n1 ++ c1 :: t1 = n2 ++ c2 :: t2 ->
  Forall legal_filename_byte n1 -> ¬ legal_filename_byte c1 ->
  Forall legal_filename_byte n2 -> ¬ legal_filename_byte c2 ->
  n1 = n2 ∧ c1 = c2.
Proof.
  revert n2. induction n1 as [|a n1 IH]; intros [|b n2] Heq H1 Hc1 H2 Hc2;
    simplify_eq/=; auto.
  - by inversion H2; subst.
  - by inversion H1; subst.
  - inversion H1; inversion H2; subst.
    destruct (IH n2) as [-> ->]; auto.
Qed.

(** C8 (counterexample). The one-character name ["#"], code 35, lies in
    the set with the range ['#'..')'] and is followed by a terminator in
    the 13-byte window, yet the validator rejects it: the code's range
    starts at 36. And a window that starts with a zero byte and holds
    more bytes is rejected although bytes were read, no byte comes before
    its first zero byte, and a zero byte is there. *)
Lemma filename_hash_rejected :
  let name := [x23] in
  let window := name ++ x00 :: replicate 11 x00 in
  let empty_name := x00 :: x41 :: replicate 11 x00 in
  (1 <= length name <= 12)%nat
  ∧ length window = FILENAME_SIZE
  ∧ Forall legal_filename_byte_from_hash name
  ∧ check_filename true window = BadFilename
  ∧ check_filename false window = BadFilename
  ∧ length empty_name = FILENAME_SIZE
  ∧ empty_name !! 0%nat = Some x00
  ∧ check_filename true empty_name = BadFilename
  ∧ check_filename false empty_name = BadFilename.
Proof.
  cbv zeta. split; [simpl; lia|]. split; [reflexivity|].
  split; [|repeat split; reflexivity].
  constructor; [|constructor].
  unfold legal_filename_byte_from_hash. change (byte_val x23) with 35. lia.
Qed.

Lemma check_filename_none (char_signed : bool) (window : list byte) :
  check_filename char_signed window = NoFilename <-> window = [].
Proof.
  unfold check_filename. destruct window as [|b window]; [done|].
  split; [|done].
  destruct (decide (length (b :: window) = 0%nat)); [done|].
  destruct (decide (_ ∧ _)); [done|].
  by destruct (filename_ok char_signed (b :: window)).
Qed.

Lemma check_filename_end (char_signed : bool) (window : list byte) :
  check_filename char_signed window = EndOfArchive <-> window = [x00].
Proof.
  unfold check_filename. destruct window as [|b window]; [done|].
  destruct (decide (length (b :: window) = 0%nat)); [done|].
  destruct (decide (length (b :: window) = 1%nat
                    ∧ head (b :: window) = Some x00)) as [[Hl Hh]|Hnot].
  - destruct window; [|done]. simpl in Hh. by simplify_eq.
  - split; [by destruct (negb _)|]. intros Heq. destruct Hnot. by simplify_eq.
Qed.

Lemma check_filename_good (char_signed : bool) (window : list byte) :
  check_filename char_signed window = GoodFilename
  <-> exists name tail, window = name ++ x00 :: tail
        ∧ name ≠ [] ∧ Forall legal_filename_byte name.
Proof.
  unfold check_filename. destruct window as [|b window].
  { simpl. split; [done|]. intros (name & tail & Heq & _). by destruct name. }
  destruct (decide (length (b :: window) = 0%nat)); [done|].
  destruct (decide (length (b :: window) = 1%nat
                    ∧ head (b :: window) = Some x00)) as [[Hl Hh]|Hnot].
  - destruct window; [|done]. split; [done|].
    intros (name & tail & Heq & Hne & _).
    destruct name as [|? [|? ?]]; simplify_eq/=.
  - rewrite <- (filename_ok_true char_signed) by done.
    destruct (filename_ok char_signed (b :: window)); simpl; split; done.
Qed.

(** C8 (amended). The verdict on the bytes read into the filename window:
    nothing read is a failure; a lone zero byte is the end marker; the
    name is accepted exactly when a non-empty run of legal bytes (33,
    36-41, 45, 46, 48-57, 64-90, 94-123, 125, 126) is followed by a zero
    byte inside the window; it is rejected exactly when the first byte
    outside the legal set is not such a terminator (a zero byte at index
    0 included), or when every byte read is legal, so that no terminator
    was read. *)
Theorem filename_validation_contract (char_signed : bool) (window : list byte) :
  (check_filename char_signed window = NoFilename <-> window = [])
  ∧ (check_filename char_signed window = EndOfArchive <-> window = [x00])
  ∧ (check_filename char_signed window = GoodFilename
     <-> exists name tail, window = name ++ x00 :: tail
           ∧ name ≠ [] ∧ Forall legal_filename_byte name)
  ∧ (check_filename char_signed window = BadFilename
     <-> window ≠ [] ∧ window ≠ [x00]
         ∧ ((exists name c tail, window = name ++ c :: tail
               ∧ Forall legal_filename_byte name ∧ ¬ legal_filename_byte c
               ∧ (c = x00 -> name = []))
            ∨ Forall legal_filename_byte window)).
Proof.
  pose proof (check_filename_none char_signed window) as Hnone.
  pose proof (check_filename_end char_signed window) as Hend.
  pose proof (check_filename_good char_signed window) as Hgood.
  split; [done|]. split; [done|]. split; [done|].
  assert (Hbad :
    (¬ (exists name tail, window = name ++ x00 :: tail
          ∧ name ≠ [] ∧ Forall legal_filename_byte name))
    <-> ((exists name c tail, window = name ++ c :: tail
            ∧ Forall legal_filename_byte name ∧ ¬ legal_filename_byte c
            ∧ (c = x00 -> name = []))
         ∨ Forall legal_filename_byte window)).
  { split.
    - intros Hno. destruct (legal_prefix window)
        as [Hall|(name & c & tail & -> & Hn & Hc)]; [by right|left].
      exists name, c, tail. repeat split; auto.
      intros ->. destruct name as [|n name]; [done|].
      destruct Hno. exists (n :: name), tail. by repeat split.
    - intros [(name & c & tail & -> & Hn & Hc & Hz)|Hall]
             (name' & tail' & Heq & Hne & Hn').
      + assert (H0 : ¬ legal_filename_byte x00)
          by (intros H0; by apply legal_filename_byte_nonzero in H0).
        destruct (legal_prefix_unique name name' c x00 tail tail')
          as [-> ->]; auto.
      + subst window. apply Forall_app in Hall as [_ Hall].
        inversion Hall; subst. by eapply legal_filename_byte_nonzero. }
  rewrite <- Hbad, <- Hgood, <- Hend, <- Hnone.
  destruct (check_filename char_signed window); split; try done;
    intros (? & ? & ?); done.
Qed.

Lemma filename_validation_contract_witness :
  check_filename true ([x41; x42] ++ x00 :: replicate 10 x00) = GoodFilename.
Proof.
  apply (filename_validation_contract true ([x41; x42] ++ x00 :: replicate 10 x00)).
  exists [x41; x42], (replicate 10 x00).
  split; [reflexivity|]. split; [discriminate|].
  constructor; [|constructor; [|constructor]];
    unfold legal_filename_byte; cbv zeta;
    [change (byte_val x41) with 65 | change (byte_val x42) with 66]; lia.
Defined.

(** ** The archive stream *)

Lemma length_fread (archive : list byte) (stream size : nat) :
  length (fread archive stream size) = (size `min` (length archive - stream))%nat.
Proof. unfold fread. by rewrite length_take, length_drop. Qed.

Lemma fread_end_marker (archive : list byte) (position : nat) :
  fread archive position FILENAME_SIZE = [x00]
  <-> archive !! position = Some x00 ∧ length archive = S position.
Proof.
  unfold fread, FILENAME_SIZE. split.
  - intros H. assert (Hl : length (take 13 (drop position archive)) = 1%nat)
      by (by rewrite H).
    rewrite length_take, length_drop in Hl.
    assert (H0 : take 13 (drop position archive) !! 0%nat = Some x00)
      by (by rewrite H).
    rewrite lookup_take_lt, lookup_drop, Nat.add_0_r in H0 by lia.
    split; [done|lia].
  - intros [Hp Hl]. 
    rewrite (drop_S _ _ _ Hp), drop_ge by lia. done.
Qed.

Lemma extract_not_break (char_signed : bool) (junk : nat -> byte)
    (filename : list byte) (compressed_size uncompressed_size : nat)
    (compression_level : Z) (compressed_data : list byte)
    (position stream : nat) (w w' : world) :
  extract char_signed junk filename compressed_size uncompressed_size
          compression_level compressed_data position stream w ≠ Ok (Break w').
Proof.
  unfold extract.
  repeat match goal with
  | |- context [if ?b then _ else _] => destruct b
  | |- context [exec_bind ?m _] => destruct m; simpl
  | |- context [let '(_, _) := ?p in _] => destruct p
  end; discriminate.
Qed.

Lemma read_entry_break (char_signed : bool) (archive : list byte)
    (position : nat) (w w' : world) :
  read_entry char_signed archive position w = Stop (Break w')
  <-> fread archive position FILENAME_SIZE = [x00] ∧ w' = w.
Proof.
  unfold read_entry.
  pose proof (check_filename_end char_signed
                (fread archive position FILENAME_SIZE)) as Hend.
  destruct (check_filename char_signed (fread archive position FILENAME_SIZE)).
  - split; [done|]. intros [H _]. apply Hend in H. done.
  - split; [intros ?; simplify_eq|intros [_ ->]; done].
    split; [by apply Hend|done].
  - split; [done|]. intros [H _]. apply Hend in H. done.
  - split; [|intros [H _]; apply Hend in H; done].
    repeat match goal with
    | |- context [match ?o with Some _ => _ | None => _ end] => destruct o
    | |- context [if ?b then _ else _] => destruct b
    end; discriminate.
Qed.

Lemma read_entry_zero_then_data (char_signed : bool) (archive : list byte)
    (position : nat) (w : world) :
  archive !! position = Some x00 -> (S position < length archive)%nat ->
  read_entry char_signed archive position w
  = Stop (Return EXIT_FAILURE (say InvalidFilename w)).
Proof.
  intros Hp Hl. unfold read_entry.
  remember (fread archive position FILENAME_SIZE) as window eqn:Hw.
  assert (Hshape : exists c tail, window = x00 :: c :: tail).
  { subst window. unfold fread, FILENAME_SIZE.
    rewrite (drop_S _ _ _ Hp).
    destruct (drop (S position) archive) as [|c tail] eqn:Hd.
    - apply (f_equal length) in Hd. rewrite length_drop in Hd. simpl in Hd. lia.
    - simpl. eauto. }
  destruct Hshape as (c & tail & ->).
  assert (Hv : check_filename char_signed (x00 :: c :: tail) = BadFilename).
  { unfold check_filename. simpl. destruct char_signed; reflexivity. }
  by rewrite Hv.
Qed.

(** C9. The end marker is recognised only as the last byte of the
    archive: an iteration of the loop of [unpack] leaves by [break]
    exactly when the stream is at a zero byte with nothing after it, and
    then [unpack] returns 0; a zero byte in filename position followed by
    at least one more byte makes [unpack] return [EXIT_FAILURE] with the
    invalid-filename message. *)
Theorem end_marker_only_as_last_byte (char_signed : bool) (junk : nat -> byte)
    (archive : list byte) (position : nat) (w : world) :
  (forall w', unpack_entry char_signed junk archive position w = Ok (Break w')
     <-> archive !! position = Some x00 ∧ length archive = S position ∧ w' = w)
  ∧ (archive !! position = Some x00 -> length archive = S position ->
     forall fuel, unpack_loop (S fuel) char_signed junk archive position w
                  = Ok (EXIT_SUCCESS, w))
  ∧ (archive !! position = Some x00 -> (S position < length archive)%nat ->
     forall fuel, unpack_loop (S fuel) char_signed junk archive position w
                  = Ok (EXIT_FAILURE, say InvalidFilename w)).
Proof.
  assert (Hbreak : forall w',
    unpack_entry char_signed junk archive position w = Ok (Break w')
    <-> archive !! position = Some x00 ∧ length archive = S position ∧ w' = w).
  { intros w'.
    transitivity (read_entry char_signed archive position w = Stop (Break w')).
    2: { rewrite read_entry_break, fread_end_marker. tauto. }
    unfold unpack_entry.
    destruct (read_entry char_signed archive position w) eqn:E.
    - split; intros; simplify_eq; done.
    - split; [|done]. intros H. by apply extract_not_break in H. }
  split; [exact Hbreak|]. split.
  - intros Hp Hl fuel. simpl.
    destruct (Hbreak w) as [_ ->]; [|done]. done.
  - intros Hp Hl fuel. simpl. unfold unpack_entry.
    by rewrite read_entry_zero_then_data.
Qed.

Lemma end_marker_only_as_last_byte_witness :
  unpack true (fun _ => x00) [x00] ∅ = Ok (EXIT_SUCCESS, World ∅ [])
  ∧ unpack true (fun _ => x00) [x00; x00] ∅
    = Ok (EXIT_FAILURE, World ∅ [InvalidFilename]).
Proof.
  split.
  - apply (end_marker_only_as_last_byte true (fun _ => x00) [x00] 0 (World ∅ []));
      reflexivity.
  - apply (end_marker_only_as_last_byte true (fun _ => x00) [x00; x00] 0
             (World ∅ [])); [reflexivity|simpl; lia].
Defined.

(** ** Back-reference tokens *)

(** Proof of an equation between values of a type with decidable equality,
    on a byte [c], by evaluation at the 256 bytes. *)
Ltac enumerate_bytes_eq c :=
  revert c;
  match goal with
  | |- forall c : byte, @?lhs c = @?rhs c =>
      intros c;
      apply (bool_decide_eq_true_1 (lhs c = rhs c)); revert c;
      apply (forall_bytes (fun c => bool_decide (lhs c = rhs c)));
      vm_compute; reflexivity
  end.

Lemma first_byte_fold (char_signed : bool) (c : byte) :
  foldl (first_byte_bit (char_val char_signed c)) (-1, 0) byte_indices
  = (-1 + weighted_bits c (fun k => Z.shiftl 1 k) byte_indices, 8).
Proof. destruct char_signed; enumerate_bytes_eq c. Qed.

Lemma first_byte_value (c : byte) :
  weighted_bits c (fun k => Z.shiftl 1 k) byte_indices = byte_val c.
Proof. enumerate_bytes_eq c. Qed.

(** The second loop adds to the offset and the run length it starts from. *)
Lemma second_byte_fold_shift (offset_bits c : Z) (positions : list Z)
    (offset run_length count : Z) :
  foldl (second_byte_bit offset_bits c) (offset, run_length, count) positions
  = let '(a, b, n) :=
      foldl (second_byte_bit offset_bits c) (0, 0, count) positions in
    (offset + a, run_length + b, n).
Proof.
  revert offset run_length count.
  induction positions as [|i positions IH]; intros offset run_length count.
  - simpl. repeat (apply pair_equal_spec; split); lia.
  - cbn [foldl].
    destruct (second_byte_bit offset_bits c (0, 0, count) i)
      as [[a1 b1] n1] eqn:E0.
    assert (E : second_byte_bit offset_bits c (offset, run_length, count) i
                = (offset + a1, run_length + b1, n1)).
    { unfold second_byte_bit in *.
      destruct (i =? offset_bits), (bit_is_set c i), (offset_bits <=? i);
        simplify_eq; repeat (apply pair_equal_spec; split); lia. }
    rewrite E, (IH a1 b1 n1), (IH (offset + a1) (run_length + b1) n1).
    destruct (foldl (second_byte_bit offset_bits c) (0, 0, n1) positions)
      as [[a b] n].
    repeat (apply pair_equal_spec; split); lia.
Qed.

Lemma second_byte_fold (char_signed : bool) (offset_bits : Z) (c : byte) :
  0 <= offset_bits <= 8 ->
  (foldl (second_byte_bit offset_bits (char_val char_signed c)) (0, 0, 8)
         byte_indices).1
  = (weighted_bits c (fun k => Z.shiftl 1 (8 + k))
       (filter (fun k => k < offset_bits) byte_indices),
     weighted_bits c (fun k => Z.shiftl 1 (k - offset_bits))
       (filter (fun k => offset_bits <= k) byte_indices)).
Proof.
  intros H.
  assert (Hcases : offset_bits = 0 ∨ offset_bits = 1 ∨ offset_bits = 2
                   ∨ offset_bits = 3 ∨ offset_bits = 4 ∨ offset_bits = 5
                   ∨ offset_bits = 6 ∨ offset_bits = 7 ∨ offset_bits = 8) by lia.
  clear H.
  destruct char_signed;
    repeat (destruct Hcases as [->|Hcases]); try subst offset_bits;
    enumerate_bytes_eq c.
Qed.

Lemma second_byte_value (offset_bits : Z) (c : byte) :
  0 <= offset_bits <= 8 ->
  weighted_bits c (fun k => Z.shiftl 1 (8 + k))
    (filter (fun k => k < offset_bits) byte_indices)
  = 256 * (byte_val c mod 2 ^ offset_bits)
  ∧ weighted_bits c (fun k => Z.shiftl 1 (k - offset_bits))
      (filter (fun k => offset_bits <= k) byte_indices)
    = byte_val c / 2 ^ offset_bits.
Proof.
  intros H.
  assert (Hcases : offset_bits = 0 ∨ offset_bits = 1 ∨ offset_bits = 2
                   ∨ offset_bits = 3 ∨ offset_bits = 4 ∨ offset_bits = 5
                   ∨ offset_bits = 6 ∨ offset_bits = 7 ∨ offset_bits = 8) by lia.
  clear H.
  repeat (destruct Hcases as [->|Hcases]); try subst offset_bits;
    split; enumerate_bytes_eq c.
Qed.

Lemma decode_token_bits (char_signed : bool) (offset_bits : Z) (c1 c2 : byte) :
  0 <= offset_bits <= 8 ->
  decode_token offset_bits (char_val char_signed c1) (char_val char_signed c2)
  = (token_offset offset_bits c1 c2, token_run_length offset_bits c2).
Proof.
  intros H. unfold decode_token. rewrite first_byte_fold.
  rewrite second_byte_fold_shift.
  pose proof (second_byte_fold char_signed offset_bits c2 H) as E.
  destruct (foldl (second_byte_bit offset_bits (char_val char_signed c2))
              (0, 0, 8) byte_indices) as [[a b] n].
  simpl in E. injection E as -> ->. reflexivity.
Qed.

Lemma decode_token_value (char_signed : bool) (offset_bits : Z) (c1 c2 : byte) :
  0 <= offset_bits <= 8 ->
  decode_token offset_bits (char_val char_signed c1) (char_val char_signed c2)
  = (byte_val c1 + 256 * (byte_val c2 mod 2 ^ offset_bits) - 1,
     2 + byte_val c2 / 2 ^ offset_bits).
Proof.
  intros H. rewrite decode_token_bits by done.
  unfold token_offset, token_run_length.
  destruct (second_byte_value offset_bits c2 H) as [-> ->].
  rewrite first_byte_value. apply pair_equal_spec; split; lia.
Qed.

(** For a supported level the token's fields cannot exceed the limits:
    the run length stays below [max_run_length] and the offset below
    [max_offset], so that, of the checks of lines 291-300, only
    [offset < 0] can fail. *)
Lemma token_within_limits (offset_bits : Z) (c1 c2 : byte) :
  0 <= offset_bits <= 8 ->
  -1 <= token_offset offset_bits c1 c2 < max_offset_of offset_bits
  ∧ 2 <= token_run_length offset_bits c2 < max_run_length_of offset_bits.
Proof.
  intros H. unfold token_offset, token_run_length.
  destruct (second_byte_value offset_bits c2 H) as [-> ->].
  rewrite first_byte_value.
  pose proof (byte_val_range c1) as H1. pose proof (byte_val_range c2) as H2.
  unfold max_offset_of, max_run_length_of, run_length_bits_of, to_uchar.
  rewrite (Z.mod_small (8 - offset_bits)) by lia.
  rewrite !Z.shiftl_1_l.
  assert (Hp : 0 < 2 ^ offset_bits) by (apply Z.pow_pos_nonneg; lia).
  assert (Hq : 0 < 2 ^ (8 - offset_bits)) by (apply Z.pow_pos_nonneg; lia).
  assert (Hpq : 2 ^ offset_bits * 2 ^ (8 - offset_bits) = 256).
  { rewrite <- Z.pow_add_r by lia.
    replace (offset_bits + (8 - offset_bits)) with 8 by lia. reflexivity. }
  assert (Hhigh : 2 ^ (offset_bits + 8) = 256 * 2 ^ offset_bits).
  { rewrite Z.pow_add_r by lia. change (2 ^ 8) with 256. lia. }
  rewrite Hhigh.
  pose proof (Z.mod_pos_bound (byte_val c2) (2 ^ offset_bits) Hp) as Hlow.
  assert (Hdiv : 0 <= byte_val c2 / 2 ^ offset_bits < 2 ^ (8 - offset_bits)).
  { split; [apply Z.div_pos; lia|].
    apply Z.div_lt_upper_bound; lia. }
  lia.
Qed.

Lemma offset_bits_of_range (compression_level : Z) :
  0 <= offset_bits_of compression_level < 256.
Proof. unfold offset_bits_of, to_uchar. apply Z.mod_pos_bound. lia. Qed.

(** ** Buffers *)

Lemma load_app (front : list byte) (b : byte) (back : list byte) :
  load (front ++ b :: back) (length front) = Ok b.
Proof. unfold load. by rewrite list_lookup_middle. Qed.

Lemma store_app (front : list byte) (old : byte) (back : list byte) (b : byte) :
  store (front ++ old :: back) (length front) b = Ok ((front ++ [b]) ++ back).
Proof.
  unfold store. rewrite decide_True by (rewrite length_app; simpl; lia).
  f_equal. rewrite insert_app_r_alt, Nat.sub_diag by lia. simpl.
  by rewrite <- app_assoc.
Qed.

Lemma length_malloc (junk : nat -> byte) (size : nat) :
  length (malloc junk size) = size.
Proof. unfold malloc. by rewrite length_fmap, length_seq. Qed.

Lemma load_ok (buffer : list byte) (index : nat) (b : byte) :
  load buffer index = Ok b <-> buffer !! index = Some b.
Proof. unfold load. destruct (buffer !! index); split; intros; by simplify_eq. Qed.

Lemma store_ok (buffer : list byte) (index : nat) (b : byte)
    (buffer' : list byte) :
  store buffer index b = Ok buffer' ->
  (index < length buffer)%nat ∧ length buffer' = length buffer.
Proof.
  unfold store. destruct (decide _); [|done]. intros. simplify_eq.
  by rewrite length_insert.
Qed.

(** ** The run-length decoder on a payload made of whole groups *)

Lemma rle_duplicate_fill (compressed_data : list byte) (cursor : nat) (b : byte)
    (left : nat) (out fill back : list byte) :
  compressed_data !! cursor = Some b ->
  length fill = left ->
  rle_duplicate compressed_data left
    (RleState cursor (out ++ fill ++ back) (length out))
  = Ok (RleState cursor (out ++ replicate left b ++ back) (length out + left)).
Proof.
  intros Hb. revert out fill.
  induction left as [|left IH]; intros out fill Hfill.
  - destruct fill; [|done]. simpl. by rewrite Nat.add_0_r.
  - destruct fill as [|old fill]; [done|]. simpl in Hfill.
    cbn [rle_duplicate rle_compressed_pointer rle_uncompressed_data
         rle_uncompressed_pointer].
    unfold load at 1. rewrite Hb. cbn [exec_bind].
    change ((old :: fill) ++ back) with (old :: fill ++ back).
    rewrite store_app. cbn [exec_bind].
    replace (S (length out)) with (length (out ++ [b]))
      by (rewrite length_app; simpl; lia).
    rewrite IH by lia. rewrite length_app. simpl.
    rewrite <- app_assoc. do 2 f_equal. lia.
Qed.

Lemma rle_literal_fill (front run rest : list byte) (left : nat)
    (out fill back : list byte) :
  length run = left -> length fill = left ->
  rle_literal (front ++ run ++ rest) left
    (RleState (length front) (out ++ fill ++ back) (length out))
  = Ok (RleState (length front + left) (out ++ run ++ back) (length out + left)).
Proof.
  revert front run out fill.
  induction left as [|left IH]; intros front run out fill Hrun Hfill.
  - destruct run, fill; try done. simpl. by rewrite !Nat.add_0_r.
  - destruct run as [|b run], fill as [|old fill]; try done.
    simpl in Hrun, Hfill.
    cbn [rle_literal rle_compressed_pointer rle_uncompressed_data
         rle_uncompressed_pointer].
    change ((b :: run) ++ rest) with (b :: run ++ rest).
    rewrite load_app. cbn [exec_bind].
    change ((old :: fill) ++ back) with (old :: fill ++ back).
    rewrite store_app. cbn [exec_bind].
    replace (S (length out)) with (length (out ++ [b]))
      by (rewrite length_app; simpl; lia).
    replace (S (length front)) with (length (front ++ [b]))
      by (rewrite length_app; simpl; lia).
    replace (front ++ b :: run ++ rest) with ((front ++ [b]) ++ run ++ rest)
      by (by rewrite <- app_assoc).
    rewrite IH by lia. rewrite !length_app. simpl.
    rewrite <- app_assoc. do 2 f_equal; lia.
Qed.

Lemma rle_loop_groups (payload decoded : list byte) :
  rle_groups payload decoded ->
  forall (fuel : nat) (front out fill back : list byte),
  (length payload <= fuel)%nat ->
  length fill = length decoded ->
  rle_loop fuel (front ++ payload)
    (RleState (length front) (out ++ fill ++ back) (length out))
  = Ok (RleState (length front + length payload) (out ++ decoded ++ back)
                 (length out + length decoded)).
Proof.
  induction 1 as [|f b payload decoded Hf Hgroups IH
                  |f run payload decoded Hf Hrun Hgroups IH];
    intros fuel front out fill back Hfuel Hfill.
  - destruct fill; [|done].
    destruct fuel; simpl; rewrite decide_False by (rewrite length_app; simpl; lia);
      by rewrite !Nat.add_0_r.
  - destruct fuel as [|fuel]; [simpl in Hfuel; lia|].
    cbn [rle_loop rle_compressed_pointer].
    rewrite decide_True by (rewrite length_app; simpl; lia).
    unfold rle_group. cbn [rle_compressed_pointer rle_uncompressed_data
                           rle_uncompressed_pointer].
    rewrite load_app. cbn [exec_bind].
    pose proof (byte_val_range f) as Hrange.
    unfold to_uchar. rewrite (Z.mod_small (byte_val f)) by lia.
    rewrite (proj2 (Z.ltb_lt 127 (byte_val f))) by done.
    rewrite (Z.mod_small (byte_val f - 125)) by lia.
    rewrite length_app in Hfill. rewrite length_replicate in Hfill.
    set (count := Z.to_nat (byte_val f - 125)) in *.
    replace fill with (take count fill ++ drop count fill)
      by apply take_drop.
    rewrite <- (app_assoc (take count fill)).
    rewrite (rle_duplicate_fill _ _ b).
    + cbn [exec_bind rle_compressed_pointer rle_uncompressed_data
           rle_uncompressed_pointer].
      replace (front ++ f :: b :: payload) with ((front ++ [f; b]) ++ payload)
        by (by rewrite <- app_assoc).
      replace (S (S (length front))) with (length (front ++ [f; b]))
        by (rewrite length_app; simpl; lia).
      replace (length out + count)%nat with (length (out ++ replicate count b))
        by (rewrite length_app, length_replicate; lia).
      rewrite (app_assoc out).
      rewrite IH.
      * rewrite !length_app, length_replicate. simpl.
        rewrite <- !app_assoc. f_equal. f_equal; lia.
      * simpl in Hfuel. lia.
      * rewrite length_drop. lia.
    + replace (S (length front)) with (length (front ++ [f]))
        by (rewrite length_app; simpl; lia).
      replace (front ++ f :: b :: payload) with ((front ++ [f]) ++ b :: payload)
        by (by rewrite <- app_assoc).
      apply list_lookup_middle. done.
    + rewrite length_take. lia.
  - destruct fuel as [|fuel]; [simpl in Hfuel; lia|].
    cbn [rle_loop rle_compressed_pointer].
    rewrite decide_True by (rewrite length_app; simpl; lia).
    unfold rle_group. cbn [rle_compressed_pointer rle_uncompressed_data
                           rle_uncompressed_pointer].
    rewrite load_app. cbn [exec_bind].
    pose proof (byte_val_range f) as Hrange.
    unfold to_uchar. rewrite (Z.mod_small (byte_val f)) by lia.
    rewrite (proj2 (Z.ltb_ge 127 (byte_val f))) by done.
    rewrite length_app in Hfill.
    set (count := Z.to_nat (byte_val f + 1)) in *.
    replace fill with (take count fill ++ drop count fill)
      by apply take_drop.
    rewrite <- (app_assoc (take count fill)).
    replace (S (length front)) with (length (front ++ [f]))
      by (rewrite length_app; simpl; lia).
    replace (front ++ f :: run ++ payload)
      with ((front ++ [f]) ++ run ++ payload)
      by (by rewrite <- app_assoc).
    rewrite (rle_literal_fill _ run) by (done || rewrite length_take; lia).
    cbn [exec_bind].
    replace ((front ++ [f]) ++ run ++ payload)
      with ((front ++ f :: run) ++ payload)
      by (by rewrite <- !app_assoc).
    replace (length (front ++ [f]) + count)%nat with (length (front ++ f :: run))
      by (rewrite !length_app; simpl; lia).
    replace (length out + count)%nat with (length (out ++ run))
      by (rewrite length_app; lia).
    rewrite (app_assoc out).
    rewrite IH.
    + rewrite !length_app. simpl. rewrite length_app.
      rewrite <- !app_assoc. f_equal. f_equal; lia.
    + simpl in Hfuel. rewrite length_app in Hfuel. lia.
    + rewrite length_drop. lia.
Qed.

Lemma rle_decode_groups (payload decoded buffer : list byte) :
  rle_groups payload decoded ->
  (length decoded <= length buffer)%nat ->
  rle_decode payload buffer
  = Ok (RleState (length payload) (decoded ++ drop (length decoded) buffer)
                 (length decoded)).
Proof.
  intros Hgroups Hlen. unfold rle_decode.
  pose proof (rle_loop_groups payload decoded Hgroups (length payload) [] []
                (take (length decoded) buffer) (drop (length decoded) buffer))
    as H.
  simpl in H. rewrite take_drop in H. apply H; [lia|].
  rewrite length_take. lia.
Qed.




(** ** The run-length decoder within its buffers *)

Lemma rle_duplicate_ok (compressed_data : list byte) (left : nat)
    (st st' : rle_state) :
  rle_duplicate compressed_data left st = Ok st' ->
  rle_uncompressed_pointer st' = (rle_uncompressed_pointer st + left)%nat
  ∧ length (rle_uncompressed_data st') = length (rle_uncompressed_data st)
  ∧ rle_compressed_pointer st' = rle_compressed_pointer st
  ∧ ((0 < left)%nat ->
     (rle_uncompressed_pointer st + left
      <= length (rle_uncompressed_data st))%nat
     ∧ is_Some (compressed_data !! rle_compressed_pointer st)).
Proof.
  revert st. induction left as [|left IH]; intros st H.
  - simpl in H. simplify_eq. repeat split; try lia; intros; lia.
  - cbn [rle_duplicate] in H.
    destruct (load compressed_data (rle_compressed_pointer st)) as [b| |] eqn:Hb;
      try done.
    cbn [exec_bind] in H.
    destruct (store _ _ _) as [data| |] eqn:Hs; try done.
    cbn [exec_bind] in H.
    apply store_ok in Hs as [Hlt Hlen]. apply load_ok in Hb.
    apply IH in H. simpl in H. destruct H as (H1 & H2 & H3 & H4).
    repeat split; try lia; eauto.
Qed.

Lemma rle_literal_ok (compressed_data : list byte) (left : nat)
    (st st' : rle_state) :
  rle_literal compressed_data left st = Ok st' ->
  rle_uncompressed_pointer st' = (rle_uncompressed_pointer st + left)%nat
  ∧ length (rle_uncompressed_data st') = length (rle_uncompressed_data st)
  ∧ rle_compressed_pointer st' = (rle_compressed_pointer st + left)%nat
  ∧ ((0 < left)%nat ->
     (rle_uncompressed_pointer st + left
      <= length (rle_uncompressed_data st))%nat
     ∧ (rle_compressed_pointer st + left <= length compressed_data)%nat).
Proof.
  revert st. induction left as [|left IH]; intros st H.
  - simpl in H. simplify_eq. repeat split; try lia; intros; lia.
  - cbn [rle_literal] in H.
    destruct (load compressed_data (rle_compressed_pointer st)) as [b| |] eqn:Hb;
      try done.
    cbn [exec_bind] in H.
    destruct (store _ _ _) as [data| |] eqn:Hs; try done.
    cbn [exec_bind] in H.
    apply store_ok in Hs as [Hlt Hlen]. apply load_ok in Hb.
    apply lookup_lt_Some in Hb.
    apply IH in H. simpl in H. destruct H as (H1 & H2 & H3 & H4).
    repeat split; try lia;
      (destruct left; [lia|]; destruct H4 as [? ?]; lia).
Qed.

(** What one group that stays within the buffers has read and written. *)
Lemma rle_group_ok (compressed_data : list byte) (st st' : rle_state) :
  rle_group compressed_data st = Ok st' ->
  exists (f : byte) (group decoded : list byte),
    drop (rle_compressed_pointer st) compressed_data
    = f :: group ++ drop (rle_compressed_pointer st') compressed_data
    ∧ (rle_compressed_pointer st' <= length compressed_data)%nat
    ∧ (forall payload out, rle_groups payload out ->
         rle_groups (f :: group ++ payload) (decoded ++ out))
    ∧ rle_uncompressed_pointer st'
      = (rle_uncompressed_pointer st + length decoded)%nat
    ∧ (rle_uncompressed_pointer st' <= length (rle_uncompressed_data st))%nat
    ∧ length (rle_uncompressed_data st') = length (rle_uncompressed_data st).
Proof.
  unfold rle_group. intros H.
  destruct (load compressed_data (rle_compressed_pointer st)) as [f| |] eqn:Hf;
    try done.
  cbn [exec_bind] in H. apply load_ok in Hf.
  pose proof (byte_val_range f) as Hrange.
  unfold to_uchar in H. rewrite (Z.mod_small (byte_val f)) in H by lia.
  destruct (Z.ltb_spec 127 (byte_val f)) as [Hdup|Hlit].
  - rewrite (Z.mod_small (byte_val f - 125)) in H by lia.
    destruct (rle_duplicate _ _ _) as [st2| |] eqn:Hd; try done.
    cbn [exec_bind] in H. simplify_eq.
    apply rle_duplicate_ok in Hd. simpl in Hd.
    destruct Hd as (H2 & H3 & H4 & H5).
    destruct H5 as [H1 [b Hb]]; [lia|].
    exists f, [b], (replicate (Z.to_nat (byte_val f - 125)) b). simpl.
    rewrite H4, length_replicate.
    pose proof (lookup_lt_Some _ _ _ Hb).
    repeat split; try lia.
    + rewrite (drop_S _ _ _ Hf). f_equal. by rewrite (drop_S _ _ _ Hb).
    + intros payload out Hg. by constructor.
  - destruct (rle_literal _ _ _) as [st2| |] eqn:Hl; try done.
    simplify_eq. apply rle_literal_ok in Hl. simpl in Hl.
    destruct Hl as (H2 & H3 & H4 & H5).
    destruct H5 as [H1 H5]; [lia|].
    set (count := Z.to_nat (byte_val f + 1)) in *.
    exists f, (take count (drop (S (rle_compressed_pointer st)) compressed_data)),
           (take count (drop (S (rle_compressed_pointer st)) compressed_data)).
    assert (Hlen : length (take count (drop (S (rle_compressed_pointer st))
                                            compressed_data)) = count)
      by (rewrite length_take, length_drop; lia).
    rewrite Hlen. repeat split; try lia.
    + rewrite (drop_S _ _ _ Hf). f_equal. rewrite H4.
      rewrite <- (drop_drop _ count (S (rle_compressed_pointer st))).
      by rewrite take_drop.
    + intros payload out Hg. by constructor.
Qed.

Lemma rle_loop_ok (fuel : nat) (compressed_data : list byte)
    (st st' : rle_state) :
  rle_loop fuel compressed_data st = Ok st' ->
  (rle_compressed_pointer st <= length compressed_data)%nat ->
  (rle_uncompressed_pointer st <= length (rle_uncompressed_data st))%nat ->
  exists decoded,
    rle_groups (drop (rle_compressed_pointer st) compressed_data) decoded
    ∧ (rle_uncompressed_pointer st + length decoded
       <= length (rle_uncompressed_data st))%nat.
Proof.
  revert st. induction fuel as [|fuel IH]; intros st H Hcursor Hroom.
  - simpl in H. destruct (decide _); [done|].
    exists []. rewrite drop_ge by lia.
    split; [apply rle_groups_end|simpl; lia].
  - cbn [rle_loop] in H. destruct (decide _) as [Hlt|Hge].
    + destruct (rle_group compressed_data st) as [st1| |] eqn:Hg; try done.
      cbn [exec_bind] in H.
      apply rle_group_ok in Hg
        as (f & group & decoded & Hdrop & Hc & Hgroups & Hup & Hbound & Hlen).
      apply IH in H as (decoded' & Hrest & Hroom'); [|done|lia].
      exists (decoded ++ decoded'). rewrite Hdrop. split; [by apply Hgroups|].
      rewrite length_app. lia.
    + exists []. rewrite drop_ge by lia.
      split; [apply rle_groups_end|simpl; lia].
Qed.

Lemma rle_decode_ok (payload buffer : list byte) (st : rle_state) :
  rle_decode payload buffer = Ok st ->
  exists decoded, rle_groups payload decoded
                  ∧ (length decoded <= length buffer)%nat.
Proof.
  unfold rle_decode. intros H.
  apply rle_loop_ok in H as (decoded & Hg & Hroom); [|simpl; lia..].
  simpl in *. rewrite drop_0 in Hg. eauto.
Qed.

(** ** Progress of the decoding loops *)

Lemma load_in_fuel (buffer : list byte) (index : nat) :
  load buffer index ≠ OutOfFuel.
Proof. unfold load. by destruct (buffer !! index). Qed.

Lemma store_in_fuel (buffer : list byte) (index : nat) (b : byte) :
  store buffer index b ≠ OutOfFuel.
Proof. unfold store. by destruct (decide _). Qed.

Lemma rle_duplicate_in_fuel (compressed_data : list byte) (left : nat)
    (st : rle_state) :
  rle_duplicate compressed_data left st ≠ OutOfFuel.
Proof.
  revert st. induction left as [|left IH]; intros st; [done|].
  cbn [rle_duplicate].
  pose proof (load_in_fuel compressed_data (rle_compressed_pointer st)).
  destruct (load compressed_data (rle_compressed_pointer st)) as [b| |];
    try done.
  cbn [exec_bind].
  pose proof (store_in_fuel (rle_uncompressed_data st)
                (rle_uncompressed_pointer st) b).
  destruct (store _ _ _) as [data| |]; try done.
  cbn [exec_bind]. apply IH.
Qed.

Lemma rle_literal_in_fuel (compressed_data : list byte) (left : nat)
    (st : rle_state) :
  rle_literal compressed_data left st ≠ OutOfFuel.
Proof.
  revert st. induction left as [|left IH]; intros st; [done|].
  cbn [rle_literal].
  pose proof (load_in_fuel compressed_data (rle_compressed_pointer st)).
  destruct (load compressed_data (rle_compressed_pointer st)) as [b| |];
    try done.
  cbn [exec_bind].
  pose proof (store_in_fuel (rle_uncompressed_data st)
                (rle_uncompressed_pointer st) b).
  destruct (store _ _ _) as [data| |]; try done.
  cbn [exec_bind]. apply IH.
Qed.

(** A group moves the cursor forward and, when it stays within the
    buffers, not beyond the end of the payload. *)
Lemma rle_group_cursor (compressed_data : list byte) (st : rle_state) :
  match rle_group compressed_data st with
  | Ok st' =>
      (rle_compressed_pointer st < rle_compressed_pointer st'
       <= length compressed_data)%nat
  | OutOfBounds => True
  | OutOfFuel => False
  end.
Proof.
  destruct (rle_group compressed_data st) as [st'| |] eqn:H; [|done|].
  - apply rle_group_ok in H
      as (f & group & decoded & Hdrop & Hend & _).
    split; [|done].
    apply (f_equal length) in Hdrop.
    rewrite length_drop in Hdrop. simpl in Hdrop.
    rewrite length_app, length_drop in Hdrop. lia.
  - unfold rle_group in H.
    pose proof (load_in_fuel compressed_data (rle_compressed_pointer st)).
    destruct (load compressed_data (rle_compressed_pointer st)); try done.
    cbn [exec_bind] in H. destruct (127 <? _).
    + match type of H with context [rle_duplicate ?cd ?n ?s] =>
        pose proof (rle_duplicate_in_fuel cd n s);
        destruct (rle_duplicate cd n s) end; done.
    + by apply rle_literal_in_fuel in H.
Qed.

Lemma rle_loop_fuel (compressed_data : list byte) (fuel1 fuel2 : nat)
    (st : rle_state) :
  (length compressed_data - rle_compressed_pointer st <= fuel1)%nat ->
  (length compressed_data - rle_compressed_pointer st <= fuel2)%nat ->
  rle_loop fuel1 compressed_data st = rle_loop fuel2 compressed_data st
  ∧ rle_loop fuel1 compressed_data st ≠ OutOfFuel.
Proof.
  revert fuel2 st. induction fuel1 as [|fuel1 IH]; intros fuel2 st H1 H2.
  - destruct fuel2; simpl; destruct (decide _); try done; lia.
  - cbn [rle_loop]. destruct (decide _) as [Hlt|Hge].
    + destruct fuel2 as [|fuel2]; [lia|]. cbn [rle_loop].
      rewrite decide_True by done.
      pose proof (rle_group_cursor compressed_data st) as Hg.
      destruct (rle_group compressed_data st) as [st'| |]; try done.
      cbn [exec_bind]. apply IH; lia.
    + destruct fuel2; simpl; by rewrite decide_False.
Qed.

Lemma rle_decode_in_fuel (payload buffer : list byte) :
  rle_decode payload buffer ≠ OutOfFuel.
Proof.
  unfold rle_decode.
  apply (rle_loop_fuel _ _ (length payload)); simpl; lia.
Qed.

Lemma load_at_in_fuel (buffer : list byte) (index : Z) :
  load_at buffer index ≠ OutOfFuel.
Proof. unfold load_at. destruct (index <? 0); [done|apply load_in_fuel]. Qed.

Lemma store_at_in_fuel (buffer : list byte) (index : Z) (b : byte) :
  store_at buffer index b ≠ OutOfFuel.
Proof. unfold store_at. destruct (index <? 0); [done|apply store_in_fuel]. Qed.

Lemma copy_run_cursor (max_offset : Z) (left : nat) (offset : Z)
    (st : win_state) :
  match copy_run max_offset left offset st with
  | Ok r => compressed_pointer (signal_state r) = compressed_pointer st
  | OutOfBounds => True
  | OutOfFuel => False
  end.
Proof.
  revert offset st. induction left as [|left IH]; intros offset st; [done|].
  cbn [copy_run]. destruct (_ || _); [done|].
  pose proof (load_at_in_fuel (sliding_window st) offset).
  destruct (load_at (sliding_window st) offset) as [b| |]; try done.
  cbn [exec_bind].
  pose proof (store_at_in_fuel (sliding_window st) (sliding_offset st) b).
  destruct (store_at _ _ _) as [window| |]; try done.
  cbn [exec_bind].
  pose proof (store_in_fuel (uncompressed_data st) (uncompressed_pointer st) b).
  destruct (store _ _ _) as [data| |]; try done.
  cbn [exec_bind]. apply (IH _ (WinState _ _ _ _ _)).
Qed.

Lemma back_reference_cursor (char_signed : bool) (offset_bits : Z)
    (compressed_data : list byte) (st : win_state) :
  match back_reference char_signed offset_bits compressed_data st with
  | Ok r =>
      compressed_pointer (signal_state r) = S (S (compressed_pointer st))
      ∧ (S (S (compressed_pointer st)) <= length compressed_data)%nat
  | OutOfBounds => True
  | OutOfFuel => False
  end.
Proof.
  unfold back_reference.
  pose proof (load_in_fuel compressed_data (compressed_pointer st)).
  destruct (load compressed_data (compressed_pointer st)) as [c1| |]; try done.
  cbn [exec_bind].
  pose proof (load_in_fuel compressed_data (S (compressed_pointer st))).
  destruct (load compressed_data (S (compressed_pointer st))) as [c2| |] eqn:Hc2;
    try done.
  apply load_ok, lookup_lt_Some in Hc2.
  cbn [exec_bind]. destruct (decode_token _ _ _) as [offset run_length].
  destruct (offset <? 0); [done|]. destruct (_ <? run_length); [done|].
  match goal with |- context [copy_run ?m ?n ?o ?s] =>
    pose proof (copy_run_cursor m n o s) as Hc;
    destruct (copy_run m n o s) end; done.
Qed.

Lemma literal_cursor (offset_bits : Z) (compressed_data : list byte)
    (st : win_state) :
  match literal offset_bits compressed_data st with
  | Ok r =>
      compressed_pointer (signal_state r) = S (compressed_pointer st)
      ∧ (S (compressed_pointer st) <= length compressed_data)%nat
  | OutOfBounds => True
  | OutOfFuel => False
  end.
Proof.
  unfold literal.
  pose proof (load_in_fuel compressed_data (compressed_pointer st)).
  destruct (load compressed_data (compressed_pointer st)) as [b| |] eqn:Hb;
    try done.
  apply load_ok, lookup_lt_Some in Hb.
  cbn [exec_bind].
  pose proof (store_in_fuel (uncompressed_data st) (uncompressed_pointer st) b).
  destruct (store _ _ _) as [data| |]; try done.
  cbn [exec_bind].
  pose proof (store_at_in_fuel (sliding_window st) (sliding_offset st) b).
  destruct (store_at _ _ _) as [window| |]; done.
Qed.

Lemma token_loop_cursor (char_signed : bool) (offset_bits : Z)
    (compressed_data : list byte) (flag : Z) (left : nat) (bit : Z)
    (st : win_state) :
  match token_loop char_signed offset_bits compressed_data flag left bit st with
  | Ok r =>
      (compressed_pointer st <= compressed_pointer (signal_state r))%nat
      ∧ ((compressed_pointer st <= length compressed_data)%nat ->
         (compressed_pointer (signal_state r) <= length compressed_data)%nat)
  | OutOfBounds => True
  | OutOfFuel => False
  end.
Proof.
  revert bit st. induction left as [|left IH]; intros bit st; [done|].
  cbn [token_loop].
  assert (Htoken :
    match (if bit_is_set flag bit
           then literal offset_bits compressed_data st
           else back_reference char_signed offset_bits compressed_data st) with
    | Ok r =>
        (compressed_pointer st < compressed_pointer (signal_state r)
         <= length compressed_data)%nat
    | OutOfBounds => True
    | OutOfFuel => False
    end).
  { destruct (bit_is_set flag bit).
    - pose proof (literal_cursor offset_bits compressed_data st) as H.
      destruct (literal _ _ _); try done. lia.
    - pose proof (back_reference_cursor char_signed offset_bits
                    compressed_data st) as H.
      destruct (back_reference _ _ _ _); try done. lia. }
  destruct (if bit_is_set flag bit then _ else _) as [[st'|m st']| |];
    cbn [exec_bind]; simpl in Htoken; [|simpl; lia|done|done].
  destruct (decide _); [simpl; lia|].
  specialize (IH (bit + 1) st').
  destruct (token_loop _ _ _ _ _ _ _); try done. lia.
Qed.

(** A flag byte with its tokens moves the cursor forward and, when it
    stays within the buffers, not beyond the end of the payload. *)
Lemma win_group_cursor (char_signed : bool) (offset_bits : Z)
    (compressed_data : list byte) (st : win_state) :
  match win_group char_signed offset_bits compressed_data st with
  | Ok r =>
      (compressed_pointer st < compressed_pointer (signal_state r)
       <= length compressed_data)%nat
  | OutOfBounds => True
  | OutOfFuel => False
  end.
Proof.
  unfold win_group.
  pose proof (load_in_fuel compressed_data (compressed_pointer st)).
  destruct (load compressed_data (compressed_pointer st)) as [c| |] eqn:Hc;
    try done.
  apply load_ok, lookup_lt_Some in Hc.
  cbn [exec_bind].
  match goal with |- context [token_loop ?a ?b ?c ?d ?e ?f ?s] =>
    pose proof (token_loop_cursor a b c d e f s) as Ht;
    destruct (token_loop a b c d e f s) end; try done.
  simpl in Ht. lia.
Qed.

Lemma win_loop_fuel (char_signed : bool) (offset_bits : Z)
    (compressed_data : list byte) (fuel1 fuel2 : nat) (st : win_state) :
  (length compressed_data - compressed_pointer st <= fuel1)%nat ->
  (length compressed_data - compressed_pointer st <= fuel2)%nat ->
  win_loop fuel1 char_signed offset_bits compressed_data st
  = win_loop fuel2 char_signed offset_bits compressed_data st
  ∧ win_loop fuel1 char_signed offset_bits compressed_data st ≠ OutOfFuel.
Proof.
  revert fuel2 st. induction fuel1 as [|fuel1 IH]; intros fuel2 st H1 H2.
  - destruct fuel2; simpl; destruct (decide _); try done; lia.
  - cbn [win_loop]. destruct (decide _) as [Hlt|Hge].
    + destruct fuel2 as [|fuel2]; [lia|]. cbn [win_loop].
      rewrite decide_True by done.
      pose proof (win_group_cursor char_signed offset_bits compressed_data st)
        as Hg.
      destruct (win_group char_signed offset_bits compressed_data st)
        as [[st'|m st']| |]; try done.
      cbn [exec_bind]. simpl in Hg. apply IH; lia.
    + destruct fuel2; simpl; by rewrite decide_False.
Qed.

(** C10. Both decoding loops end. Every iteration of the outer loop that
    goes on moves [compressed_pointer] forward by at least one (the flag
    byte) and, as long as no access leaves a buffer, not beyond
    [compressed_size], so that the 32-bit cursor does not wrap. The loop
    therefore makes at most [compressed_size - compressed_pointer]
    iterations: with that much fuel or more the run never stops for lack
    of fuel, and its result does not depend on the fuel given. It ends
    with the final state, with an escape, or at an access outside a
    buffer. *)
Theorem decode_loops_terminate :
  (forall (compressed_data : list byte) (st st' : rle_state),
     rle_group compressed_data st = Ok st' ->
     (rle_compressed_pointer st < rle_compressed_pointer st'
      <= length compressed_data)%nat)
  ∧ (forall (compressed_data : list byte) (fuel : nat) (st : rle_state),
       (length compressed_data - rle_compressed_pointer st <= fuel)%nat ->
       rle_loop fuel compressed_data st ≠ OutOfFuel
       ∧ rle_loop fuel compressed_data st
         = rle_loop (length compressed_data - rle_compressed_pointer st)
                    compressed_data st)
  ∧ (forall compressed_data uncompressed_data : list byte,
       rle_decode compressed_data uncompressed_data ≠ OutOfFuel)
  ∧ (forall (char_signed : bool) (offset_bits : Z)
            (compressed_data : list byte) (st : win_state) (r : signal),
       win_group char_signed offset_bits compressed_data st = Ok r ->
       (compressed_pointer st < compressed_pointer (signal_state r)
        <= length compressed_data)%nat)
  ∧ (forall (char_signed : bool) (offset_bits : Z)
            (compressed_data : list byte) (fuel : nat) (st : win_state),
       (length compressed_data - compressed_pointer st <= fuel)%nat ->
       win_loop fuel char_signed offset_bits compressed_data st ≠ OutOfFuel
       ∧ win_loop fuel char_signed offset_bits compressed_data st
         = win_loop (length compressed_data - compressed_pointer st)
                    char_signed offset_bits compressed_data st)
  ∧ (forall (char_signed : bool) (offset_bits : Z)
            (compressed_data uncompressed_data sliding_window : list byte),
       win_decode char_signed offset_bits compressed_data uncompressed_data
                  sliding_window ≠ OutOfFuel).
Proof.
  split; [|split; [|split; [|split; [|split]]]].
  - intros compressed_data st st' H.
    pose proof (rle_group_cursor compressed_data st) as Hg.
    by rewrite H in Hg.
  - intros compressed_data fuel st H.
    destruct (rle_loop_fuel compressed_data fuel
                (length compressed_data - rle_compressed_pointer st) st)
      as [Heq Hne]; [done|done|]. by split.
  - intros compressed_data uncompressed_data. unfold rle_decode.
    apply (rle_loop_fuel _ _ (length compressed_data)); simpl; lia.
  - intros char_signed offset_bits compressed_data st r H.
    pose proof (win_group_cursor char_signed offset_bits compressed_data st)
      as Hg.
    by rewrite H in Hg.
  - intros char_signed offset_bits compressed_data fuel st H.
    destruct (win_loop_fuel char_signed offset_bits compressed_data fuel
                (length compressed_data - compressed_pointer st) st)
      as [Heq Hne]; [done|done|]. by split.
  - intros char_signed offset_bits compressed_data uncompressed_data
           sliding_window. unfold win_decode.
    apply (win_loop_fuel _ _ _ _ (length compressed_data)); simpl; lia.
Qed.

Lemma decode_loops_terminate_witness :
  rle_loop 5 [x00; x41; x80; x42] (RleState 0 [x00; x00; x00; x00] 0)
  ≠ OutOfFuel
  ∧ win_loop 5 true 4 [x01; x41; x00; x00] (WinState 0 [x00; x00] 0 [x00] 0)
    ≠ OutOfFuel.
Proof.
  destruct decode_loops_terminate as (_ & Hrle & _ & _ & Hwin & _).
  split.
  - apply (Hrle [x00; x41; x80; x42] 5%nat (RleState 0 [x00; x00; x00; x00] 0)).
    simpl. lia.
  - apply (Hwin true 4 [x01; x41; x00; x00] 5%nat
                (WinState 0 [x00; x00] 0 [x00] 0)).
    simpl. lia.
Defined.

(** ** The window decoder follows the reference decoder *)

Lemma bit_is_set_char (char_signed : bool) (c : byte) (bit : Z) :
  0 <= bit < 8 ->
  bit_is_set (char_val char_signed c) bit = Z.testbit (byte_val c) bit.
Proof.
  intros H.
  assert (Hcases : bit = 0 ∨ bit = 1 ∨ bit = 2 ∨ bit = 3 ∨ bit = 4 ∨ bit = 5
                   ∨ bit = 6 ∨ bit = 7) by lia.
  clear H.
  destruct char_signed;
    repeat (destruct Hcases as [->|Hcases]); try subst bit; enumerate_bytes c.
Qed.

Lemma max_offset_of_range (offset_bits : Z) :
  0 <= offset_bits <= 8 -> 255 <= max_offset_of offset_bits <= 65535.
Proof.
  intros H.
  assert (Hcases : offset_bits = 0 ∨ offset_bits = 1 ∨ offset_bits = 2
                   ∨ offset_bits = 3 ∨ offset_bits = 4 ∨ offset_bits = 5
                   ∨ offset_bits = 6 ∨ offset_bits = 7 ∨ offset_bits = 8) by lia.
  repeat (destruct Hcases as [->|Hcases]); try subst offset_bits;
    vm_compute; split; discriminate.
Qed.

Lemma store_next (out buffer : list byte) (b : byte) :
  (length out < length buffer)%nat ->
  store (out ++ drop (length out) buffer) (length out) b
  = Ok ((out ++ [b]) ++ drop (length (out ++ [b])) buffer).
Proof.
  intros H. destruct (lookup_lt_is_Some_2 buffer (length out) H) as [old Hold].
  rewrite (drop_S _ _ _ Hold), store_app, length_app. simpl.
  by rewrite Nat.add_1_r.
Qed.

Lemma store_at_nat (buffer : list byte) (index : nat) (b : byte) :
  store_at buffer (Z.of_nat index) b = store buffer index b.
Proof.
  unfold store_at. rewrite (proj2 (Z.ltb_ge _ _)) by lia. by rewrite Nat2Z.id.
Qed.

Lemma load_prefix (out back : list byte) (index : nat) (b : byte) :
  out !! index = Some b -> load (out ++ back) index = Ok b.
Proof. intros H. unfold load. by rewrite (lookup_app_l_Some _ _ _ _ H). Qed.

Lemma ref_copy_length (max_offset : Z) (left : nat) (offset : Z)
    (out : list byte) :
  (length out <= length (ref_copy max_offset left offset out).1)%nat.
Proof.
  revert offset out. induction left as [|left IH]; intros offset out; [done|].
  cbn [ref_copy]. destruct (decide _); [|done].
  destruct (out !! Z.to_nat offset) as [b|]; [|done].
  etransitivity; [|apply IH]. rewrite length_app. lia.
Qed.

Lemma suffix_cursor (compressed_data : list byte) (b : byte)
    (payload : list byte) :
  (b :: payload) `suffix_of` compressed_data ->
  compressed_data !! (length compressed_data - length (b :: payload))%nat = Some b
  ∧ S (length compressed_data - length (b :: payload))
    = (length compressed_data - length payload)%nat
  ∧ (length compressed_data - length (b :: payload) < length compressed_data)%nat
  ∧ payload `suffix_of` compressed_data.
Proof.
  intros [front ->]. rewrite length_app. simpl.
  replace (length front + S (length payload) - S (length payload))%nat
    with (length front) by lia.
  repeat split; try lia.
  - by rewrite list_lookup_middle.
  - exists (front ++ [b]). by rewrite <- app_assoc.
Qed.

Lemma ref_token_grows (offset_bits : Z) (is_literal : bool)
    (payload out : list byte) :
  match ref_token offset_bits is_literal payload out with
  | RefNext payload' out' | RefEscape _ payload' out' =>
      (length out <= length out')%nat
      ∧ payload' `suffix_of` payload
      ∧ (length payload' < length payload)%nat
  | RefTruncated => True
  end.
Proof.
  unfold ref_token. destruct is_literal.
  - destruct payload as [|b payload]; [done|].
    rewrite length_app. simpl. repeat split; try lia.
    by apply suffix_cons_r.
  - destruct payload as [|c1 [|c2 payload]]; try done.
    assert (Hs : payload `suffix_of` c1 :: c2 :: payload)
      by (by do 2 apply suffix_cons_r).
    destruct (decide _); [simpl; repeat split; (done || lia)|].
    destruct (decide _); [simpl; repeat split; (done || lia)|].
    pose proof (ref_copy_length (max_offset_of offset_bits)
                  (Z.to_nat (token_run_length offset_bits c2))
                  (token_offset offset_bits c1 c2) out) as Hgrow.
    destruct (ref_copy _ _ _ _) as [out' [|]]; simpl in *;
      repeat split; (done || lia).
Qed.

Lemma ref_tokens_grows (offset_bits : Z) (flag : byte) (left : nat) (bit : Z)
    (payload out : list byte) :
  match ref_tokens offset_bits flag left bit payload out with
  | RefNext payload' out' | RefEscape _ payload' out' =>
      (length out <= length out')%nat
      ∧ payload' `suffix_of` payload
  | RefTruncated => True
  end.
Proof.
  revert bit payload out.
  induction left as [|left IH]; intros bit payload out; [done|].
  cbn [ref_tokens].
  pose proof (ref_token_grows offset_bits (Z.testbit (byte_val flag) bit)
                payload out) as Htoken.
  destruct (ref_token _ _ _ _) as [[|p payload'] out'| |]; try done.
  - by destruct Htoken as (? & ? & _).
  - destruct Htoken as (Hlen & Hsuffix & _).
    specialize (IH (bit + 1) (p :: payload') out').
    destruct (ref_tokens _ _ _ _ _ _); try done;
      destruct IH as [? ?]; (split; [lia|by etransitivity]).
  - by destruct Htoken as (? & ? & _).
Qed.

Lemma ref_groups_grows (fuel : nat) (offset_bits : Z) (payload out : list byte) :
  match ref_output (ref_groups fuel offset_bits payload out) with
  | Some out' => (length out <= length out')%nat
  | None => True
  end.
Proof.
  revert payload out. induction fuel as [|fuel IH]; intros [|flag payload] out;
    try (simpl; lia); try done.
  cbn [ref_groups].
  pose proof (ref_tokens_grows offset_bits flag 8 0 payload out) as Htokens.
  destruct (ref_tokens _ _ _ _ _ _) as [payload' out'| |]; try done.
  - specialize (IH payload' out').
    destruct (ref_output _); [|done]. lia.
  - simpl. lia.
Qed.

Lemma store_full (out buffer : list byte) (b : byte) :
  (length buffer <= length out)%nat ->
  store (out ++ drop (length out) buffer) (length out) b = OutOfBounds.
Proof.
  intros H. unfold store. rewrite drop_ge by done.
  rewrite decide_False; [done|]. rewrite length_app. simpl. lia.
Qed.

Lemma ref_copy_run (max_offset : Z) (left : nat) (offset : Z)
    (out : list byte) :
  0 <= offset < Z.of_nat (length out) ->
  offset + Z.of_nat left <= max_offset + 1 ->
  exists run : list byte,
    ref_copy max_offset left offset out = (out ++ run, false)
    ∧ length run = left
    ∧ forall k : nat, (k < left)%nat ->
        run !! k = (out ++ run) !! (Z.to_nat offset + k)%nat.
Proof.
  revert offset out. induction left as [|left IH]; intros offset out Ho Hend.
  { exists []. rewrite app_nil_r. split; [done|]. split; [done|].
    intros k Hk. by apply Nat.nlt_0_r in Hk. }
  cbn [ref_copy]. rewrite decide_True by lia.
  destruct (lookup_lt_is_Some_2 out (Z.to_nat offset)) as [b Hb]; [lia|].
  rewrite Hb.
  assert (Hnext : exists run : list byte,
    ref_copy max_offset left
      (if decide (offset < max_offset) then offset + 1 else 0) (out ++ [b])
    = ((out ++ [b]) ++ run, false)
    ∧ length run = left
    ∧ forall k : nat, (k < left)%nat ->
        run !! k = ((out ++ [b]) ++ run) !! (Z.to_nat (offset + 1) + k)%nat).
  { destruct left as [|left'].
    - exists []. rewrite app_nil_r. split; [done|]. split; [done|].
      intros k Hk. by apply Nat.nlt_0_r in Hk.
    - rewrite decide_True by lia. apply IH; [|lia].
      rewrite length_app. simpl. lia. }
  destruct Hnext as (run & Hcopy & Hlen & Hrun).
  exists (b :: run). rewrite Hcopy, <- app_assoc. simpl.
  split; [done|]. split; [by rewrite Hlen|].
  intros [|k] Hk.
  - simpl. rewrite Nat.add_0_r. by rewrite (lookup_app_l_Some _ _ _ _ Hb).
  - simpl. rewrite Hrun by lia. rewrite <- app_assoc. simpl.
    f_equal. lia.
Qed.

Section WindowSimulation.

Variable char_signed : bool.
Variable offset_bits : Z.
Variables compressed_data buffer window : list byte.

Hypothesis supported : 0 <= offset_bits <= 8.
Hypothesis window_size :
  length window = Z.to_nat (max_offset_of offset_bits).

Lemma copy_run_ref (left : nat) (offset : Z) (payload out : list byte) :
  0 <= offset ->
  (length out <= win_limit buffer window)%nat ->
  copy_run (max_offset_of offset_bits) left offset
    (win_abs compressed_data payload out buffer window)
  = let r := ref_copy (max_offset_of offset_bits) left offset out in
    if decide (length r.1 <= win_limit buffer window)%nat
    then Ok ((if r.2 then Escape InvalidOffset else Next)
               (win_abs compressed_data payload r.1 buffer window))
    else OutOfBounds.
Proof.
  pose proof (max_offset_of_range _ supported) as Hmax.
  revert offset out. induction left as [|left IH]; intros offset out Hoffset Hlen.
  - simpl. by rewrite decide_True.
  - cbn [ref_copy copy_run]. unfold win_abs.
    cbn [sliding_window sliding_offset uncompressed_data
         uncompressed_pointer compressed_pointer].
    unfold win_limit in Hlen.
    destruct (decide (offset <= max_offset_of offset_bits
                      ∧ offset < Z.of_nat (length out)))
      as [[Hle Hlt]|Hno].
    + destruct (lookup_lt_is_Some_2 out (Z.to_nat offset)) as [b Hbyte]; [lia|].
      rewrite Hbyte.
      unfold to_uint. rewrite (Z.mod_small offset) by lia.
      rewrite (proj2 (Z.ltb_ge (max_offset_of offset_bits) offset)) by lia.
      rewrite (proj2 (Z.leb_gt (Z.of_nat (length out)) offset)) by lia.
      cbn [orb]. unfold load_at. rewrite (proj2 (Z.ltb_ge offset 0)) by lia.
      rewrite (load_prefix _ _ _ _ Hbyte). cbn [exec_bind].
      rewrite store_at_nat.
      pose proof (ref_copy_length (max_offset_of offset_bits) left
                    (if decide (offset < max_offset_of offset_bits)
                     then offset + 1 else 0) (out ++ [b])) as Hgrow.
      rewrite length_app in Hgrow. simpl in Hgrow.
      destruct (decide (length out < win_limit buffer window)%nat)
        as [Hroom|Hfull]; unfold win_limit in *.
      * rewrite store_next by lia. cbn [exec_bind].
        rewrite store_next by lia. cbn [exec_bind].
        unfold advance at 2.
        rewrite (proj2 (Z.ltb_lt (Z.of_nat (length out)) _)) by lia.
        replace (Z.of_nat (length out) + 1)
          with (Z.of_nat (length (out ++ [b])))
          by (rewrite length_app; simpl; lia).
        replace (S (length out)) with (length (out ++ [b]))
          by (rewrite length_app; simpl; lia).
        assert (Hadv : advance (max_offset_of offset_bits) offset
                       = if decide (offset < max_offset_of offset_bits)
                         then offset + 1 else 0).
        { unfold advance. destruct (decide _).
          - by rewrite (proj2 (Z.ltb_lt _ _)).
          - by rewrite (proj2 (Z.ltb_ge _ _)) by lia. }
        rewrite Hadv.
        apply (IH _ (out ++ [b])).
        -- destruct (decide _); lia.
        -- unfold win_limit. rewrite length_app. simpl. lia.
      * rewrite decide_False by lia.
        destruct (decide (length window <= length out)%nat) as [Hw|Hw].
        -- by rewrite store_full.
        -- rewrite store_next by lia. cbn [exec_bind].
           by rewrite store_full by lia.
    + cbn [fst snd]. rewrite decide_True by (unfold win_limit; lia).
      assert (Hcheck : (max_offset_of offset_bits <? offset)
                       || (Z.of_nat (length out) <=? to_uint offset) = true).
      { destruct (Z.ltb_spec (max_offset_of offset_bits) offset); [done|].
        simpl. unfold to_uint. rewrite Z.mod_small by lia.
        apply Z.leb_le. lia. }
      by rewrite Hcheck.
Qed.

Lemma ref_exec_next (payload out : list byte) :
  ref_exec compressed_data buffer window (RefNext payload out)
  = if decide (length out <= win_limit buffer window)%nat
    then Ok (Next (win_abs compressed_data payload out buffer window))
    else OutOfBounds.
Proof. unfold ref_exec, ref_fits. simpl. by repeat destruct (decide _). Qed.

Lemma ref_exec_escape (m : escape_message) (payload out : list byte) :
  ref_exec compressed_data buffer window (RefEscape m payload out)
  = if decide (length out <= win_limit buffer window)%nat
    then Ok (Escape m (win_abs compressed_data payload out buffer window))
    else OutOfBounds.
Proof. unfold ref_exec, ref_fits. simpl. by repeat destruct (decide _). Qed.

Lemma token_ref (is_literal : bool) (payload out : list byte) :
  payload `suffix_of` compressed_data ->
  (length out <= win_limit buffer window)%nat ->
  (if is_literal
   then literal offset_bits compressed_data
          (win_abs compressed_data payload out buffer window)
   else back_reference char_signed offset_bits compressed_data
          (win_abs compressed_data payload out buffer window))
  = ref_exec compressed_data buffer window
      (ref_token offset_bits is_literal payload out).
Proof.
  intros Hsuffix Hlen. pose proof (max_offset_of_range _ supported) as Hmax.
  unfold ref_token. destruct is_literal.
  - destruct payload as [|b payload].
    { unfold literal, win_abs, load. simpl. rewrite Nat.sub_0_r.
      by rewrite lookup_ge_None_2. }
    destruct (suffix_cursor _ _ _ Hsuffix) as (Hb & Hcursor & _ & _).
    rewrite ref_exec_next, length_app. simpl.
    unfold literal, win_abs.
    cbn [sliding_window sliding_offset uncompressed_data
         uncompressed_pointer compressed_pointer].
    unfold load. rewrite Hb. cbn [exec_bind].
    unfold win_limit in *.
    destruct (decide (length out + 1 <= length buffer `min` length window)%nat)
      as [Hroom|Hfull].
    + rewrite store_next by lia. cbn [exec_bind].
      rewrite store_at_nat, store_next by lia. cbn [exec_bind].
      unfold advance.
      rewrite (proj2 (Z.ltb_lt (Z.of_nat (length out)) _)) by lia.
      rewrite Hcursor, length_app. simpl. do 3 f_equal; lia.
    + destruct (decide (length buffer <= length out)%nat) as [Hbuf|Hbuf].
      * by rewrite store_full.
      * rewrite store_next by lia. cbn [exec_bind].
        rewrite store_at_nat. by rewrite store_full by lia.
  - destruct payload as [|c1 [|c2 payload]].
    { unfold back_reference, win_abs, load. simpl. rewrite Nat.sub_0_r.
      by rewrite lookup_ge_None_2. }
    { destruct (suffix_cursor _ _ _ Hsuffix) as (Hc1 & Hcursor1 & _ & _).
      unfold back_reference, win_abs, load.
      cbn [sliding_window sliding_offset uncompressed_data
           uncompressed_pointer compressed_pointer].
      rewrite Hc1. cbn [exec_bind]. rewrite Hcursor1. simpl.
      rewrite Nat.sub_0_r. by rewrite lookup_ge_None_2. }
    destruct (suffix_cursor _ _ _ Hsuffix) as (Hc1 & Hcursor1 & _ & Hsuffix1).
    destruct (suffix_cursor _ _ _ Hsuffix1) as (Hc2 & Hcursor2 & _ & _).
    unfold back_reference, win_abs.
    cbn [sliding_window sliding_offset uncompressed_data
         uncompressed_pointer compressed_pointer].
    unfold load. rewrite Hc1. cbn [exec_bind].
    rewrite Hcursor1, Hc2. cbn [exec_bind].
    rewrite decode_token_bits by done.
    rewrite Hcursor2.
    change (WinState (length compressed_data - length payload)
              (out ++ drop (length out) buffer) (length out)
              (out ++ drop (length out) window) (Z.of_nat (length out)))
      with (win_abs compressed_data payload out buffer window).
    destruct (decide (token_offset offset_bits c1 c2 < 0)) as [Hneg|Hpos].
    { rewrite (proj2 (Z.ltb_lt _ _) Hneg), ref_exec_escape.
      by rewrite decide_True. }
    rewrite (proj2 (Z.ltb_ge _ _)) by lia.
    destruct (decide (max_run_length_of offset_bits
                      < token_run_length offset_bits c2)) as [Hlong|Hshort].
    { rewrite (proj2 (Z.ltb_lt _ _) Hlong), ref_exec_escape.
      by rewrite decide_True. }
    rewrite (proj2 (Z.ltb_ge _ _)) by lia.
    rewrite copy_run_ref by (done || lia). cbv zeta.
    destruct (ref_copy (max_offset_of offset_bits)
                (Z.to_nat (token_run_length offset_bits c2))
                (token_offset offset_bits c1 c2) out)
      as [out' escaped]. cbn [fst snd].
    destruct escaped; by rewrite ?ref_exec_next, ?ref_exec_escape.
Qed.

(** Once the output has outgrown its room, the reference run stands for
    an access outside a buffer, whatever follows. *)
Lemma ref_exec_tokens_full (flag : byte) (left : nat) (bit : Z)
    (payload out : list byte) :
  ¬ (length out <= win_limit buffer window)%nat ->
  ref_exec compressed_data buffer window
    (ref_tokens offset_bits flag left bit payload out) = OutOfBounds.
Proof.
  intros Hfull. unfold ref_exec. rewrite decide_False; [done|].
  unfold ref_fits.
  pose proof (ref_tokens_grows offset_bits flag left bit payload out) as H.
  destruct (ref_tokens _ _ _ _ _ _); simpl; try done; lia.
Qed.

Lemma ref_exec_groups_full (fuel : nat) (payload out : list byte) :
  ¬ (length out <= win_limit buffer window)%nat ->
  ref_exec compressed_data buffer window
    (ref_groups fuel offset_bits payload out) = OutOfBounds.
Proof.
  intros Hfull. unfold ref_exec. rewrite decide_False; [done|].
  unfold ref_fits.
  pose proof (ref_groups_grows fuel offset_bits payload out) as H.
  destruct (ref_output _); [lia|tauto].
Qed.

Lemma tokens_ref (flag : byte) (left : nat) (bit : Z)
    (payload out : list byte) :
  0 <= bit -> bit + Z.of_nat left = 8 ->
  payload `suffix_of` compressed_data ->
  (length out <= win_limit buffer window)%nat ->
  token_loop char_signed offset_bits compressed_data
    (char_val char_signed flag) left bit
    (win_abs compressed_data payload out buffer window)
  = ref_exec compressed_data buffer window
      (ref_tokens offset_bits flag left bit payload out).
Proof.
  revert bit payload out.
  induction left as [|left IH]; intros bit payload out Hbit Hleft Hsuffix Hlen.
  { simpl. rewrite ref_exec_next. by rewrite decide_True. }
  cbn [token_loop ref_tokens].
  rewrite bit_is_set_char by lia.
  rewrite (token_ref _ payload out) by done.
  pose proof (ref_token_grows offset_bits (Z.testbit (byte_val flag) bit)
                payload out) as Htoken.
  destruct (ref_token offset_bits (Z.testbit (byte_val flag) bit) payload out)
    as [[|p payload'] out'|message payload' out'|] eqn:Href.
  - rewrite ref_exec_next. destruct (decide _); [|done].
    cbn [exec_bind]. rewrite decide_True; [done|].
    unfold win_abs. simpl. lia.
  - destruct Htoken as (Hgrow & Hsuffix' & _).
    assert (Hsuffix'' : (p :: payload') `suffix_of` compressed_data)
      by (by etransitivity).
    rewrite ref_exec_next.
    destruct (decide (length out' <= win_limit buffer window)%nat)
      as [Hroom|Hfull].
    + cbn [exec_bind].
      destruct (suffix_cursor _ _ _ Hsuffix'') as (_ & _ & Hlt & _).
      rewrite decide_False by (unfold win_abs; simpl in *; lia).
      apply IH; (done || lia).
    + cbn [exec_bind]. by rewrite ref_exec_tokens_full.
  - rewrite ref_exec_escape. by destruct (decide _).
  - done.
Qed.

Lemma groups_ref (fuel_ref fuel : nat) (payload out : list byte) :
  payload `suffix_of` compressed_data ->
  (length payload <= fuel)%nat ->
  (length payload <= fuel_ref)%nat ->
  (length out <= win_limit buffer window)%nat ->
  win_loop fuel char_signed offset_bits compressed_data
    (win_abs compressed_data payload out buffer window)
  = ref_exec compressed_data buffer window
      (ref_groups fuel_ref offset_bits payload out).
Proof.
  revert fuel payload out.
  induction fuel_ref as [|fuel_ref IH];
    intros fuel [|flag payload] out Hsuffix Hfuel Hfuel_ref Hlen;
    try (simpl in Hfuel_ref; lia).
  - cbn [ref_groups]. rewrite ref_exec_next, decide_True by done.
    destruct fuel; simpl; by rewrite decide_False by lia.
  - cbn [ref_groups]. rewrite ref_exec_next, decide_True by done.
    destruct fuel; simpl; by rewrite decide_False by lia.
  - destruct fuel as [|fuel]; [simpl in Hfuel; lia|].
    destruct (suffix_cursor _ _ _ Hsuffix) as (Hflag & Hcursor & Hlt & Hsuffix').
    cbn [win_loop ref_groups].
    rewrite decide_True by (unfold win_abs; simpl; lia).
    unfold win_group, win_abs.
    cbn [sliding_window sliding_offset uncompressed_data
         uncompressed_pointer compressed_pointer].
    unfold load. rewrite Hflag. cbn [exec_bind]. rewrite Hcursor.
    change (WinState (length compressed_data - length payload)
              (out ++ drop (length out) buffer) (length out)
              (out ++ drop (length out) window) (Z.of_nat (length out)))
      with (win_abs compressed_data payload out buffer window).
    rewrite (tokens_ref flag 8 0 payload out) by done.
    pose proof (ref_tokens_grows offset_bits flag 8 0 payload out) as Hgrow.
    destruct (ref_tokens offset_bits flag 8 0 payload out)
      as [payload' out'|message payload' out'|] eqn:Href.
    + destruct Hgrow as [Hgrow Hsuffix''].
      rewrite ref_exec_next.
      destruct (decide (length out' <= win_limit buffer window)%nat)
        as [Hroom|Hfull].
      * cbn [exec_bind].
        pose proof (suffix_length _ _ Hsuffix'') as Hshorter.
        simpl in Hfuel, Hfuel_ref.
        apply IH; try done; try lia. by etransitivity.
      * cbn [exec_bind]. by rewrite ref_exec_groups_full.
    + rewrite ref_exec_escape. by destruct (decide _).
    + done.
Qed.

(** The decoder of [src/archive.c] and the reference decoder agree on
    every payload. *)
Lemma win_decode_ref :
  win_decode char_signed offset_bits compressed_data buffer window
  = ref_exec compressed_data buffer window
      (win_reference offset_bits compressed_data).
Proof.
  unfold win_decode, win_reference.
  rewrite <- (groups_ref (length compressed_data) (length compressed_data)
                         compressed_data []); try done.
  - unfold win_abs. simpl. by rewrite Nat.sub_diag, !drop_0.
  - simpl. lia.
Qed.

End WindowSimulation.

(** ** A back-reference at the cursor *)

(** C2. In an entry of a supported level above 1, with the bytes [c1] and
    [c2] of a back-reference token at the cursor of the payload,
    [back_reference] reads the two bytes and works with an offset that
    starts at -1 and gains [1 << k] for each set bit [k] of [c1]
    (k = 0..7) and [1 << (8 + k)] for each set bit [k] below
    [offset_bits] of [c2], and with a run length that starts at 2 and
    gains [1 << (k - offset_bits)] for each set bit [k] of [c2] from
    [offset_bits] up, the weights starting again at [1 << 0] at bit
    [offset_bits]: that is [c1 + 256 * (c2 mod 2^offset_bits) - 1] and
    [2 + c2 / 2^offset_bits]. It escapes when the offset is negative or
    the run length exceeds [(1 << (8 - offset_bits)) + 2], and otherwise
    copies [run_length] bytes from [offset], the running offset being
    held to the limit [(1 << (offset_bits + 8)) - 1]. [offset_bits] is
    [6 - level] as an 8-bit unsigned number, [6 - level] itself up to
    level 6. When the output so far sits at the start of the output
    buffer and of the window, the offset is below the number of bytes
    produced and both buffers have room for the run, the token appends
    [run_length] bytes, the byte of rank [k] being the byte at index
    [offset + k] of the output. *)
Theorem back_reference_token_decoding (char_signed : bool)
    (compression_level : Z) (compressed_data : list byte) (st : win_state)
    (c1 c2 : byte) :
  let offset_bits := offset_bits_of compression_level in
  let offset := token_offset offset_bits c1 c2 in
  let run_length := token_run_length offset_bits c2 in
  let max_run_length := Z.shiftl 1 (8 - offset_bits) + 2 in
  let max_offset := Z.shiftl 1 (offset_bits + 8) - 1 in
  let st' := WinState (S (S (compressed_pointer st))) (uncompressed_data st)
               (uncompressed_pointer st) (sliding_window st)
               (sliding_offset st) in
  1 < compression_level -> offset_bits <= 8 ->
  compressed_data !! compressed_pointer st = Some c1 ->
  compressed_data !! S (compressed_pointer st) = Some c2 ->
  back_reference char_signed offset_bits compressed_data st
  = (if offset <? 0 then Ok (Escape InvalidOffset st')
     else if max_run_length <? run_length then Ok (Escape InvalidRunLength st')
     else copy_run max_offset (Z.to_nat run_length) offset st')
  ∧ offset = byte_val c1 + 256 * (byte_val c2 mod 2 ^ offset_bits) - 1
  ∧ run_length = 2 + byte_val c2 / 2 ^ offset_bits
  ∧ offset_bits = (6 - compression_level) mod 256
  ∧ (compression_level <= 6 -> offset_bits = 6 - compression_level)
  ∧ forall payload out buffer window : list byte,
      (c1 :: c2 :: payload) `suffix_of` compressed_data ->
      st = win_abs compressed_data (c1 :: c2 :: payload) out buffer window ->
      length window = Z.to_nat max_offset ->
      0 <= offset < Z.of_nat (length out) ->
      (length out + Z.to_nat run_length <= length buffer)%nat ->
      (length out + Z.to_nat run_length <= length window)%nat ->
      exists run : list byte,
        back_reference char_signed offset_bits compressed_data st
        = Ok (Next (win_abs compressed_data payload (out ++ run) buffer window))
        ∧ length run = Z.to_nat run_length
        ∧ forall k : nat, (k < length run)%nat ->
            run !! k = (out ++ run) !! (Z.to_nat offset + k)%nat.
Proof.
  intros offset_bits offset run_length max_run_length max_offset st'
         Hlevel Hsupported Hc1 Hc2.
  pose proof (offset_bits_of_range compression_level) as Hrange.
  fold offset_bits in Hrange.
  assert (H : 0 <= offset_bits <= 8) by lia.
  pose proof (decode_token_bits char_signed offset_bits c1 c2 H) as Hbits.
  pose proof (decode_token_value char_signed offset_bits c1 c2 H) as Hvalue.
  rewrite Hbits in Hvalue. injection Hvalue as Ho Hr.
  assert (Hmr : max_run_length_of offset_bits = max_run_length).
  { unfold max_run_length_of, run_length_bits_of, to_uchar.
    by rewrite Z.mod_small by lia. }
  split; [|split; [done|split; [done|split; [done|split]]]].
  - unfold back_reference, load. rewrite Hc1. cbn [exec_bind].
    rewrite Hc2. cbn [exec_bind]. rewrite Hbits, Hmr. reflexivity.
  - intros Hle. unfold offset_bits, offset_bits_of, to_uchar.
    apply Z.mod_small. lia.
  - intros payload out buffer window Hsuffix -> Hwindow Hoff Hbuffer Hroom.
    pose proof (max_offset_of_range offset_bits H) as Hmax.
    destruct (token_within_limits offset_bits c1 c2 H) as [_ Hrl].
    fold run_length in Hrl.
    pose proof (token_ref char_signed offset_bits compressed_data buffer window
                  H Hwindow false (c1 :: c2 :: payload) out Hsuffix) as Href.
    cbv iota in Href. rewrite Href by (unfold win_limit; lia).
    unfold ref_token. fold offset run_length.
    rewrite decide_False by lia. rewrite decide_False by lia.
    destruct (ref_copy_run (max_offset_of offset_bits) (Z.to_nat run_length)
                offset out) as (run & Hcopy & Hlen & Hrun);
      [done|unfold max_offset_of; fold max_offset; lia|].
    rewrite Hcopy. exists run.
    rewrite ref_exec_next.
    rewrite decide_True by (unfold win_limit; rewrite length_app; lia).
    split; [done|]. split; [done|]. intros k Hk. apply Hrun. lia.
Qed.

Lemma back_reference_token_decoding_witness :
  let junk := fun _ : nat => x00 in
  let compressed_data := [x07; x58; x59; x5a; x01; x10] in
  let st := win_abs compressed_data [x01; x10] [x58; x59; x5a]
              (malloc junk 7) (malloc junk 2047) in
  back_reference true (offset_bits_of 3) compressed_data st
  = copy_run 2047 4 0
      (WinState 6 (uncompressed_data st) 3 (sliding_window st) 3)
  ∧ token_offset (offset_bits_of 3) x01 x10 = 1 + 256 * 0 - 1
  ∧ token_run_length (offset_bits_of 3) x10 = 2 + 2
  ∧ exists run : list byte,
      back_reference true (offset_bits_of 3) compressed_data st
      = Ok (Next (win_abs compressed_data [] ([x58; x59; x5a] ++ run)
                    (malloc junk 7) (malloc junk 2047)))
      ∧ length run = 4%nat
      ∧ run !! 0%nat = Some x58 ∧ run !! 3%nat = Some x58.
Proof.
  intros junk compressed_data st.
  destruct (back_reference_token_decoding true 3 compressed_data st x01 x10)
    as (Hcode & Ho & Hr & _ & _ & Hrun).
  - lia.
  - vm_compute. discriminate.
  - reflexivity.
  - reflexivity.
  - split; [exact Hcode|]. split; [exact Ho|]. split; [exact Hr|].
    destruct (Hrun [] [x58; x59; x5a] (malloc junk 7) (malloc junk 2047))
      as (run & Hback & Hlen & Hbytes).
    + by exists [x07; x58; x59; x5a].
    + reflexivity.
    + vm_compute. reflexivity.
    + vm_compute. split; [discriminate|reflexivity].
    + vm_compute. lia.
    + vm_compute. lia.
    + exists run. split; [exact Hback|]. split; [exact Hlen|].
      change (Z.to_nat (token_run_length (offset_bits_of 3) x10)) with 4%nat
        in Hlen.
      rewrite Hlen in Hbytes.
      pose proof (Hbytes 0%nat ltac:(lia)) as H0.
      pose proof (Hbytes 3%nat ltac:(lia)) as H3.
      change (Z.to_nat (token_offset (offset_bits_of 3) x01 x10)) with 0%nat
        in H0, H3.
      simpl in H0, H3. split; [exact H0|]. rewrite H3. exact H0.
Defined.

(** ** A group of literals *)



(** ** Entries that do not stop [unpack] *)

Lemma unpack_loop_step (fuel : nat) (char_signed : bool) (junk : nat -> byte)
    (archive : list byte) (position : nat) (w : world) :
  unpack_loop (S fuel) char_signed junk archive position w
  = (s <-- unpack_entry char_signed junk archive position w ;;
     match s with
     | Return status w' => Ok (status, w')
     | Break w' => Ok (EXIT_SUCCESS, w')
     | Continue stream w' => unpack_loop fuel char_signed junk archive stream w'
     end).
Proof. reflexivity. Qed.

Lemma run_unpack_loop_step (fuel : nat) (writable : list byte -> bool)
    (char_signed : bool) (junk : nat -> byte) (archive : list byte)
    (position : nat) (w : world) :
  run_unpack_loop (S fuel) writable char_signed junk archive position w
  = (s <~~ run_unpack_entry writable char_signed junk archive position w ;;
     match s with
     | Return status w' => Done (status, w')
     | Break w' => Done (EXIT_SUCCESS, w')
     | Continue stream w' =>
         run_unpack_loop fuel writable char_signed junk archive stream w'
     end).
Proof. reflexivity. Qed.

(** An entry of a supported level above 1 whose decoder keeps within its
    buffers: the warnings, then the file or the error of [fopen]. An
    escape jumps over the [free] of line 340, and line 351 returns with
    every block still allocated. *)
Lemma run_extract_window (writable : list byte -> bool) (char_signed : bool)
    (junk : nat -> byte) (filename : list byte)
    (compressed_size uncompressed_size : nat) (compression_level : Z)
    (compressed_data : list byte) (position stream : nat) (w : world)
    (r : signal) :
  1 < compression_level -> offset_bits_of compression_level <= 8 ->
  win_decode char_signed (offset_bits_of compression_level) compressed_data
    (malloc junk uncompressed_size)
    (malloc junk (Z.to_nat (max_offset_of (offset_bits_of compression_level))))
  = Ok r ->
  let st := signal_state r in
  let w1 := match r with
            | Next _ => w
            | Escape m _ => say (escape_line m filename) w
            end in
  let w2 := if decide (uncompressed_pointer st ≠ uncompressed_size
                       ∨ compressed_pointer st ≠ compressed_size)
            then say (DoesNotMatchExpectedSize filename) w1 else w1 in
  let window := match r with
                | Next _ => []
                | Escape _ _ => [SlidingWindow]
                end in
  run_extract writable char_signed junk filename compressed_size
    uncompressed_size compression_level compressed_data position stream w
  = if fopen_wb writable filename
    then Done (Continue (position + compressed_size)
                 (write_file filename (uncompressed_data st) w2), window)
    else Done (Return EXIT_FAILURE (say (ErrorOpeningFile filename) w2),
               window ++ [UncompressedData; FilePath; CompressedData]).
Proof.
  intros Hlevel Hsupported Hdecode. cbv zeta. unfold run_extract.
  rewrite (proj2 (Z.eqb_neq compression_level 0)) by lia.
  rewrite (proj2 (Z.eqb_neq compression_level 1)) by lia.
  rewrite (proj2 (Z.ltb_lt 1 compression_level)) by lia.
  rewrite (proj2 (Z.ltb_ge 8 (offset_bits_of compression_level))) by lia.
  rewrite Hdecode. cbn [within_buffers run_bind].
  destruct r as [st|m st]; cbn [signal_state];
    destruct (fopen_wb writable filename); reflexivity.
Qed.

(** C3 (counterexample). A corrupt entry whose file cannot be opened ends
    [unpack]. The archive holds a level-3 entry named ["."] whose payload
    starts with a back-reference of offset -1, then a level-2 entry
    ["B"], then the end marker. The name passes the filename check, the
    decoder escapes on the first token and the warnings are printed; the
    [fopen] of line 349 then fails, ["."] being the output folder itself,
    and line 351 returns [EXIT_FAILURE]: the entry ["B"] is never
    read. *)
Lemma corrupt_reference_in_unopened_entry :
  let junk := fun _ : nat => xee in
  let window := malloc junk (Z.to_nat (max_offset_of (offset_bits_of 3))) in
  let archive :=
    [x2e; x00; x03; x00; x00; x00; x04; x00; x00; x00; x03; x00; x00; x00;
     x42; x00; x02; x00; x00; x00; x01; x00; x00; x00; x02; x01; x58; x00] in
  read_entry true archive 0 (World ∅ [])
  = Entry dot 3 4 3 11 [x00; x00; x00] (World ∅ [Extracting dot])
  ∧ win_decode true (offset_bits_of 3) [x00; x00; x00] (malloc junk 4) window
    = Ok (Escape InvalidOffset (WinState 3 (malloc junk 4) 0 window 0))
  ∧ run_unpack (fun _ => true) true junk archive ∅
    = Done (EXIT_FAILURE,
            World ∅ [ErrorOpeningFile dot; DoesNotMatchExpectedSize dot;
                     InvalidOffsetDuringDecompression dot; Extracting dot]).
Proof. cbv zeta. repeat split; vm_compute; reflexivity. Qed.

(** C3 (amended). In an entry of a supported level above 1, a
    back-reference at the cursor whose offset is negative, whose run
    length exceeds [max_run_length], or whose offset exceeds [max_offset]
    or is not below the number of bytes produced, makes [back_reference]
    escape with the two bytes of the token read and nothing emitted (at a
    supported level the fields of a token cannot exceed the limits, so
    the message is always that of the offset). A payload whose first
    token is a back-reference escapes on it whatever follows, nothing
    having been produced yet. When the payload of an entry holds such a
    token, that is when the decoder of the format
    escapes on it with the output [out], and [out] fits the output buffer
    and the window, the decoder of [src/archive.c] escapes in that state
    and the rest of the payload is not decoded. If the entry's file can be
    opened, the iteration prints the warnings, writes the output buffer to
    the file, leaves the sliding window allocated and no other block, and
    the loop goes on at the payload position plus the declared
    [compressed_size]. If the file cannot be opened, [unpack] returns
    [EXIT_FAILURE]. *)
Theorem corrupt_window_reference_contained (char_signed : bool)
    (junk : nat -> byte) (writable : list byte -> bool) :
  (* the checks of a back-reference, at the cursor *)
  (forall (offset_bits : Z) (compressed_data : list byte) (st : win_state)
          (c1 c2 : byte) (offset run_length : Z),
     0 <= offset_bits <= 8 ->
     compressed_data !! compressed_pointer st = Some c1 ->
     compressed_data !! S (compressed_pointer st) = Some c2 ->
     decode_token offset_bits (char_val char_signed c1)
                  (char_val char_signed c2) = (offset, run_length) ->
     offset < 0 ∨ max_run_length_of offset_bits < run_length
     ∨ max_offset_of offset_bits < offset
     ∨ Z.of_nat (uncompressed_pointer st) <= offset ->
     back_reference char_signed offset_bits compressed_data st
     = Ok (Escape
             (if (0 <=? offset) && (max_run_length_of offset_bits <? run_length)
              then InvalidRunLength else InvalidOffset)
             (WinState (S (S (compressed_pointer st))) (uncompressed_data st)
                (uncompressed_pointer st) (sliding_window st)
                (sliding_offset st))))
  (* through the loops of the decoder: a first token that is a
     back-reference *)
  ∧ (forall (offset_bits : Z) (flag c1 c2 : byte)
            (rest buffer window : list byte),
       0 <= offset_bits <= 8 ->
       Z.testbit (byte_val flag) 0 = false ->
       win_decode char_signed offset_bits (flag :: c1 :: c2 :: rest)
                  buffer window
       = Ok (Escape InvalidOffset (WinState 3 buffer 0 window 0)))
  (* the entry and the iteration *)
  ∧ (forall (archive : list byte) (position : nat) (w : world) (fuel : nat)
            (filename : list byte) (compressed_size uncompressed_size : nat)
            (compression_level : Z) (payload_position : nat)
            (compressed_data : list byte) (w1 : world)
            (m : escape_message) (rest out : list byte),
       read_entry char_signed archive position w
       = Entry filename compressed_size uncompressed_size compression_level
               payload_position compressed_data w1 ->
       1 < compression_level ->
       let offset_bits := offset_bits_of compression_level in
       offset_bits <= 8 ->
       win_reference offset_bits compressed_data = RefEscape m rest out ->
       (length out <= uncompressed_size)%nat ->
       Z.of_nat (length out) <= max_offset_of offset_bits ->
       let st := win_abs compressed_data rest out (malloc junk uncompressed_size)
                   (malloc junk (Z.to_nat (max_offset_of offset_bits))) in
       let w2 := say (escape_line m filename) w1 in
       let w3 := if decide (uncompressed_pointer st ≠ uncompressed_size
                            ∨ compressed_pointer st ≠ compressed_size)
                 then say (DoesNotMatchExpectedSize filename) w2 else w2 in
       win_decode char_signed offset_bits compressed_data
         (malloc junk uncompressed_size)
         (malloc junk (Z.to_nat (max_offset_of offset_bits)))
       = Ok (Escape m st)
       ∧ (fopen_wb writable filename = true ->
          run_extract writable char_signed junk filename compressed_size
            uncompressed_size compression_level compressed_data
            payload_position (payload_position + compressed_size) w1
          = Done (Continue (payload_position + compressed_size)
                    (write_file filename (uncompressed_data st) w3),
                  [SlidingWindow])
          ∧ run_unpack_loop (S fuel) writable char_signed junk archive
              position w
            = run_unpack_loop fuel writable char_signed junk archive
                (payload_position + compressed_size)
                (write_file filename (uncompressed_data st) w3))
       ∧ (fopen_wb writable filename = false ->
          run_unpack_loop (S fuel) writable char_signed junk archive
            position w
          = Done (EXIT_FAILURE, say (ErrorOpeningFile filename) w3))).
Proof.
  assert (Hcheck : forall (offset_bits : Z) (compressed_data : list byte)
                     (st : win_state) (c1 c2 : byte) (offset run_length : Z),
    0 <= offset_bits <= 8 ->
    compressed_data !! compressed_pointer st = Some c1 ->
    compressed_data !! S (compressed_pointer st) = Some c2 ->
    decode_token offset_bits (char_val char_signed c1)
                 (char_val char_signed c2) = (offset, run_length) ->
    offset < 0 ∨ max_run_length_of offset_bits < run_length
    ∨ max_offset_of offset_bits < offset
    ∨ Z.of_nat (uncompressed_pointer st) <= offset ->
    back_reference char_signed offset_bits compressed_data st
    = Ok (Escape
            (if (0 <=? offset) && (max_run_length_of offset_bits <? run_length)
             then InvalidRunLength else InvalidOffset)
            (WinState (S (S (compressed_pointer st))) (uncompressed_data st)
               (uncompressed_pointer st) (sliding_window st)
               (sliding_offset st)))).
  { intros offset_bits compressed_data st c1 c2 offset run_length
           Hsupported Hc1 Hc2 Htoken Hbad.
    rewrite decode_token_bits in Htoken by done.
    injection Htoken as Ho Hr.
    destruct (token_within_limits offset_bits c1 c2 Hsupported) as [Hol Hrl].
    rewrite Ho in Hol. rewrite Hr in Hrl.
    pose proof (max_offset_of_range offset_bits Hsupported) as Hmax.
    unfold back_reference, load. rewrite Hc1. cbn [exec_bind].
    rewrite Hc2. cbn [exec_bind].
    rewrite decode_token_bits by done. rewrite Ho, Hr.
    rewrite (proj2 (Z.ltb_ge (max_run_length_of offset_bits) run_length))
      by lia.
    rewrite andb_false_r.
    destruct (Z.ltb_spec offset 0) as [Hneg|Hpos]; [done|].
    destruct (Z.to_nat run_length) as [|left] eqn:Hleft; [lia|].
    cbn [copy_run uncompressed_pointer].
    unfold to_uint. rewrite (Z.mod_small offset) by lia.
    rewrite (proj2 (Z.ltb_ge (max_offset_of offset_bits) offset)) by lia.
    rewrite (proj2 (Z.leb_le (Z.of_nat (uncompressed_pointer st)) offset))
      by lia.
    reflexivity. }
  split; [exact Hcheck|]. split.
  - intros offset_bits flag c1 c2 rest buffer window Hsupported Hflag.
    unfold win_decode. cbn [length win_loop compressed_pointer].
    rewrite decide_True by lia.
    unfold win_group, load. cbn [compressed_pointer lookup list_lookup].
    cbn [exec_bind uncompressed_data uncompressed_pointer sliding_window
         sliding_offset].
    cbn [token_loop]. rewrite bit_is_set_char by lia. rewrite Hflag.
    destruct (decode_token offset_bits (char_val char_signed c1)
                (char_val char_signed c2)) as [offset run_length] eqn:Htoken.
    pose proof Htoken as Hbits. rewrite decode_token_bits in Hbits by done.
    injection Hbits as Ho Hr.
    destruct (token_within_limits offset_bits c1 c2 Hsupported) as [Hol Hrl].
    rewrite Ho in Hol. rewrite Hr in Hrl.
    rewrite (Hcheck offset_bits (flag :: c1 :: c2 :: rest)
               (WinState 1 buffer 0 window 0) c1 c2 offset run_length);
      [|done|done|done|done|simpl; lia].
    rewrite (proj2 (Z.ltb_ge (max_run_length_of offset_bits) run_length))
      by lia.
    rewrite andb_false_r. reflexivity.
  - intros archive position w fuel filename compressed_size uncompressed_size
           compression_level payload_position compressed_data w1 m rest out
           Hentry Hlevel offset_bits Hsupported Href Hbuffer Hwindow st w2 w3.
    pose proof (offset_bits_of_range compression_level) as Hrange.
    fold offset_bits in Hrange.
    assert (Hdecode :
      win_decode char_signed offset_bits compressed_data
        (malloc junk uncompressed_size)
        (malloc junk (Z.to_nat (max_offset_of offset_bits)))
      = Ok (Escape m st)).
    { rewrite win_decode_ref by (lia || by rewrite length_malloc).
      rewrite Href. unfold ref_exec. rewrite decide_True; [done|].
      unfold ref_fits, win_limit. simpl. rewrite !length_malloc. lia. }
    pose proof (run_extract_window writable char_signed junk filename
                  compressed_size uncompressed_size compression_level
                  compressed_data payload_position
                  (payload_position + compressed_size) w1 _
                  Hlevel Hsupported Hdecode) as Hrun.
    cbv zeta in Hrun. cbn [signal_state] in Hrun.
    fold offset_bits in Hrun. fold st in Hrun. fold w2 in Hrun.
    fold w3 in Hrun.
    split; [exact Hdecode|]. split.
    + intros Hopen. rewrite Hopen in Hrun. split; [exact Hrun|].
      rewrite run_unpack_loop_step. unfold run_unpack_entry.
      rewrite Hentry, Hrun. reflexivity.
    + intros Hopen. rewrite Hopen in Hrun.
      rewrite run_unpack_loop_step. unfold run_unpack_entry.
      rewrite Hentry, Hrun. reflexivity.
Qed.

Lemma corrupt_window_reference_contained_witness :
  let junk := fun _ : nat => xee in
  let archive :=
    [x41; x00; x04; x00; x00; x00; x04; x00; x00; x00; x03;
     x01; x58; x00; x00;
     x42; x00; x02; x00; x00; x00; x01; x00; x00; x00; x02; x01; x59; x00] in
  let w := World {[ [x41] := [x58; xee; xee; xee] ]}
                 [DoesNotMatchExpectedSize [x41];
                  InvalidOffsetDuringDecompression [x41]; Extracting [x41]] in
  run_unpack_loop 3 (fun _ => true) true junk archive 0 (World ∅ [])
  = run_unpack_loop 2 (fun _ => true) true junk archive 15 w
  ∧ run_unpack (fun _ => true) true junk archive ∅
    = Done (EXIT_SUCCESS,
            World {[ [x42] := [x59]; [x41] := [x58; xee; xee; xee] ]}
                  [Extracting [x42]; DoesNotMatchExpectedSize [x41];
                   InvalidOffsetDuringDecompression [x41]; Extracting [x41]]).
Proof.
  intros junk archive w.
  destruct (corrupt_window_reference_contained true junk (fun _ => true))
    as (_ & _ & Hentry).
  destruct (Hentry archive 0%nat (World ∅ []) 2%nat [x41] 4%nat 4%nat 3 11%nat
              [x01; x58; x00; x00] (World ∅ [Extracting [x41]]) InvalidOffset
              [] [x58]) as (_ & Hopen & _).
  - reflexivity.
  - lia.
  - vm_compute. discriminate.
  - vm_compute. reflexivity.
  - simpl. lia.
  - vm_compute. discriminate.
  - destruct (Hopen eq_refl) as [_ Hstep].
    split; [exact Hstep|]. vm_compute. reflexivity.
Defined.

(** C6 (counterexample). Where plain [char] is signed, the level byte
    [80] is the level -128: [6 - level] as an 8-bit unsigned number is
    134, above 8, yet the entry is not skipped: no branch of lines
    136-214 takes a negative level, the final [else] closes the archive
    and [unpack] returns [EXIT_FAILURE]; the entry that follows is never
    read. *)
Lemma negative_level_stops_unpack :
  let junk := fun _ : nat => x00 in
  let archive :=
    [x41; x00; x01; x00; x00; x00; x01; x00; x00; x00; x80; x58;
     x42; x00; x01; x00; x00; x00; x01; x00; x00; x00; x00; x59; x00] in
  8 < offset_bits_of (char_val true x80)
  ∧ 8 < to_uchar (6 - byte_val x80)
  ∧ unpack true junk archive ∅
    = Ok (EXIT_FAILURE, World ∅ [Extracting [x41]]).
Proof.
  cbv zeta. split; [vm_compute; reflexivity|].
  split; vm_compute; reflexivity.
Qed.

(** C6 (amended). An entry whose level, read as a plain [char], is above
    1 and makes [offset_bits = 6 - level], as an 8-bit unsigned number,
    exceed 8 is skipped: [unpack] prints the warning, writes no file and
    goes on with the next entry, the stream being just after the payload.
    These are the level bytes 7 to 127 where [char] is signed and 7 to
    253 where it is not. A level that is negative, that is a level byte
    of 128 or more where [char] is signed, makes [unpack] return
    [EXIT_FAILURE]. *)
Theorem unsupported_level_skipped (char_signed : bool) (junk : nat -> byte) :
  (forall (archive : list byte) (position : nat) (w : world) (fuel : nat)
          (filename : list byte) (compressed_size uncompressed_size : nat)
          (compression_level : Z) (payload_position : nat)
          (compressed_data : list byte) (w1 : world),
     read_entry char_signed archive position w
     = Entry filename compressed_size uncompressed_size compression_level
             payload_position compressed_data w1 ->
     (1 < compression_level -> 8 < offset_bits_of compression_level ->
      unpack_loop (S fuel) char_signed junk archive position w
      = unpack_loop fuel char_signed junk archive
          (payload_position + compressed_size)
          (say (UnsupportedRunAndOffsetLength filename) w1))
     ∧ (compression_level < 0 ->
        unpack_loop (S fuel) char_signed junk archive position w
        = Ok (EXIT_FAILURE, w1)))
  ∧ (forall level : byte,
       let compression_level := char_val char_signed level in
       (1 < compression_level ∧ 8 < offset_bits_of compression_level
        <-> 7 <= byte_val level <= (if char_signed then 127 else 253))
       ∧ (compression_level < 0
          <-> char_signed = true ∧ 128 <= byte_val level)).
Proof.
  split.
  - intros archive position w fuel filename compressed_size uncompressed_size
           compression_level payload_position compressed_data w1 Hentry.
    split.
    + intros Hlevel Hunsupported.
      rewrite unpack_loop_step. unfold unpack_entry. rewrite Hentry.
      unfold extract.
      rewrite (proj2 (Z.eqb_neq compression_level 0)) by lia.
      rewrite (proj2 (Z.eqb_neq compression_level 1)) by lia.
      rewrite (proj2 (Z.ltb_lt 1 compression_level)) by lia.
      rewrite (proj2 (Z.ltb_lt 8 (offset_bits_of compression_level))) by lia.
      reflexivity.
    + intros Hnegative.
      rewrite unpack_loop_step. unfold unpack_entry. rewrite Hentry.
      unfold extract.
      rewrite (proj2 (Z.eqb_neq compression_level 0)) by lia.
      rewrite (proj2 (Z.eqb_neq compression_level 1)) by lia.
      rewrite (proj2 (Z.ltb_ge 1 compression_level)) by lia.
      reflexivity.
  - intros level. cbv zeta. pose proof (byte_val_range level) as Hrange.
    unfold char_val, offset_bits_of, to_uchar.
    destruct char_signed; simpl.
    + destruct (Z.leb_spec 128 (byte_val level)).
      * split; [|split; [done|lia]]. split; lia.
      * split; [|split; [lia|intros [_ ?]; lia]].
        pose proof (Z.mod_pos_bound (6 - byte_val level) 256).
        destruct (Z.le_gt_cases (byte_val level) 6).
        -- rewrite Z.mod_small by lia. lia.
        -- replace (6 - byte_val level)
             with (262 - byte_val level + (-1) * 256) by lia.
           rewrite Z.mod_add by lia. rewrite Z.mod_small by lia. lia.
    + split; [|split; [lia|intros [? _]; done]].
      destruct (Z.le_gt_cases (byte_val level) 6).
      * rewrite Z.mod_small by lia. lia.
      * replace (6 - byte_val level)
          with (262 - byte_val level + (-1) * 256) by lia.
        rewrite Z.mod_add by lia. rewrite Z.mod_small by lia. lia.
Qed.

Lemma unsupported_level_skipped_witness :
  let junk := fun _ : nat => x00 in
  let archive :=
    [x41; x00; x01; x00; x00; x00; x01; x00; x00; x00; x07; x58;
     x42; x00; x01; x00; x00; x00; x01; x00; x00; x00; x00; x59; x00] in
  unpack_loop 3 true junk archive 0 (World ∅ [])
  = unpack_loop 2 true junk archive 12
      (World ∅ [UnsupportedRunAndOffsetLength [x41]; Extracting [x41]])
  ∧ unpack true junk archive ∅
    = Ok (EXIT_SUCCESS,
          World {[ [x42] := [x59] ]}
                [Extracting [x42]; UnsupportedRunAndOffsetLength [x41];
                 Extracting [x41]]).
Proof.
  intros junk archive.
  destruct (unsupported_level_skipped true junk) as (Hskip & _).
  destruct (Hskip archive 0%nat (World ∅ []) 2%nat [x41] 1%nat 1%nat 7 11%nat
              [x58] (World ∅ [Extracting [x41]])) as [H _]; [reflexivity|].
  split.
  - apply H; [lia|vm_compute; reflexivity].
  - vm_compute. reflexivity.
Defined.

(** ** [unpack] returns *)

Lemma win_decode_in_fuel (char_signed : bool) (offset_bits : Z)
    (compressed_data uncompressed_data sliding_window : list byte) :
  win_decode char_signed offset_bits compressed_data uncompressed_data
             sliding_window ≠ OutOfFuel.
Proof.
  unfold win_decode.
  apply (win_loop_fuel _ _ _ _ (length compressed_data)); simpl; lia.
Qed.

(** An entry that has been read lies within the archive, after the
    position its header was read from. *)
Lemma read_entry_forward (char_signed : bool) (archive : list byte)
    (position : nat) (w : world) (filename : list byte)
    (compressed_size uncompressed_size : nat) (compression_level : Z)
    (payload_position : nat) (compressed_data : list byte) (w1 : world) :
  read_entry char_signed archive position w
  = Entry filename compressed_size uncompressed_size compression_level
          payload_position compressed_data w1 ->
  (position < payload_position)%nat
  ∧ (payload_position + compressed_size <= length archive)%nat
  ∧ compressed_size ≠ 0%nat
  ∧ compressed_data = fread archive payload_position compressed_size
  ∧ length compressed_data = compressed_size.
Proof.
  unfold read_entry. intros H.
  destruct (check_filename _ _); try done.
  destruct (read_uint archive _) as [cs|]; [|done].
  destruct (read_uint archive _) as [us|]; [|done].
  destruct (archive !! _) as [level|]; [|done].
  destruct (decide _) as [|Hno]; [done|].
  injection H as <- <- <- <- <- <- <-.
  assert (Hcs : cs ≠ 0%nat) by (intros ->; apply Hno; by left).
  assert (Hlen : ¬ (length (fread archive
                              (position + strlen (fread archive position
                                                    FILENAME_SIZE) + 1 + 9) cs)
                    < cs)%nat) by (intros ?; apply Hno; by right).
  rewrite length_fread in *. repeat split; (done || lia).
Qed.

Lemma extract_forward (char_signed : bool) (junk : nat -> byte)
    (filename : list byte) (compressed_size uncompressed_size : nat)
    (compression_level : Z) (compressed_data : list byte)
    (position : nat) (w : world) :
  match extract char_signed junk filename compressed_size uncompressed_size
          compression_level compressed_data position
          (position + compressed_size) w with
  | Ok (Continue stream _) => stream = (position + compressed_size)%nat
  | Ok _ | OutOfBounds => True
  | OutOfFuel => False
  end.
Proof.
  unfold extract.
  destruct (compression_level =? 0); [done|].
  destruct (compression_level =? 1).
  { pose proof (rle_decode_in_fuel compressed_data
                  (malloc junk uncompressed_size)).
    destruct (rle_decode _ _); try done. cbn [exec_bind].
    by destruct (decide (uncompressed_size = 0%nat)). }
  destruct (1 <? compression_level); [|done].
  destruct (8 <? offset_bits_of compression_level); [done|].
  match goal with |- context [win_decode ?a ?b ?c ?d ?e] =>
    pose proof (win_decode_in_fuel a b c d e);
    destruct (win_decode a b c d e) as [[st|m st]| |] end; done.
Qed.

Lemma unpack_entry_forward (char_signed : bool) (junk : nat -> byte)
    (archive : list byte) (position : nat) (w : world) :
  match unpack_entry char_signed junk archive position w with
  | Ok (Continue stream _) => (position < stream <= length archive)%nat
  | Ok _ | OutOfBounds => True
  | OutOfFuel => False
  end.
Proof.
  unfold unpack_entry.
  destruct (read_entry char_signed archive position w)
    as [[status w'|w'|stream w']
       |filename cs us level q cd w1] eqn:Hentry; try done.
  - unfold read_entry in Hentry.
    repeat match type of Hentry with
    | context [match ?o with _ => _ end] => destruct o
    end; done.
  - apply read_entry_forward in Hentry as (Hq & Hend & _).
    pose proof (extract_forward char_signed junk filename cs us level cd q w1)
      as H.
    destruct (extract _ _ _ _ _ _ _ _ _ _) as [[| |stream w']| |]; try done.
    lia.
Qed.

Lemma unpack_loop_in_fuel (char_signed : bool) (junk : nat -> byte)
    (archive : list byte) (fuel : nat) (position : nat) (w : world) :
  (position <= length archive)%nat ->
  (length archive - position < fuel)%nat ->
  unpack_loop fuel char_signed junk archive position w ≠ OutOfFuel.
Proof.
  revert position w. induction fuel as [|fuel IH]; intros position w Hp Hfuel;
    [lia|].
  rewrite unpack_loop_step.
  pose proof (unpack_entry_forward char_signed junk archive position w) as H.
  destruct (unpack_entry _ _ _ _ _) as [[status w'|w'|stream w']| |];
    try done.
  cbn [exec_bind]. apply IH; lia.
Qed.

(** [unpack] returns, or makes an access outside a buffer: the fuel
    given by [unpack] is enough for every archive. *)
Theorem unpack_in_fuel (char_signed : bool) (junk : nat -> byte)
    (archive : list byte) (folder : gmap (list byte) (list byte)) :
  unpack char_signed junk archive folder ≠ OutOfFuel.
Proof. unfold unpack. apply unpack_loop_in_fuel; lia. Qed.

(** The reference decoder needs one unit of fuel per payload byte at
    most. *)
Lemma ref_groups_fuel (offset_bits : Z) (fuel1 fuel2 : nat)
    (payload out : list byte) :
  (length payload <= fuel1)%nat -> (length payload <= fuel2)%nat ->
  ref_groups fuel1 offset_bits payload out
  = ref_groups fuel2 offset_bits payload out.
Proof.
  revert fuel2 payload out.
  induction fuel1 as [|fuel1 IH]; intros fuel2 [|flag payload] out H1 H2;
    try (simpl in *; lia).
  - by destruct fuel2.
  - by destruct fuel2.
  - destruct fuel2 as [|fuel2]; [simpl in H2; lia|].
    cbn [ref_groups].
    pose proof (ref_tokens_grows offset_bits flag 8 0 payload out) as Hgrow.
    destruct (ref_tokens _ _ _ _ _ _) as [payload' out'| |]; try done.
    destruct Hgrow as [_ Hsuffix]. apply suffix_length in Hsuffix.
    simpl in H1, H2. apply IH; lia.
Qed.

(** ** Packing, then unpacking *)

Lemma uint_of_file_size_bytes (file_size : Z) :
  uint_of_bytes (file_size_bytes file_size) = file_size mod 2 ^ 32.
Proof.
  unfold uint_of_bytes, file_size_bytes, to_uint. cbn [foldr].
  rewrite !byte_val_of_Z.
  change 255 with (Z.ones 8). rewrite !Z.land_ones by lia.
  rewrite !Z.shiftr_div_pow2 by lia.
  rewrite !Z.mod_mod by lia.
  assert (H : 0 <= file_size mod 2 ^ 32 < 2 ^ 32)
    by (apply Z.mod_pos_bound; lia).
  generalize dependent (file_size mod 2 ^ 32). intros u Hu.
  change (2 ^ 8) with 256. change (2 ^ 16) with 65536.
  change (2 ^ 24) with 16777216. change (2 ^ 32) with 4294967296 in Hu.
  Z.div_mod_to_equations. lia.
Qed.

Lemma fread_app (front bytes : list byte) (size : nat) :
  fread (front ++ bytes) (length front) size = take size bytes.
Proof. unfold fread. by rewrite drop_app_length. Qed.

Lemma c_string_app (name tail : list byte) :
  Forall legal_filename_byte name -> c_string (name ++ x00 :: tail) = name.
Proof.
  induction 1 as [|c name Hc Hname IH]; [done|].
  cbn [app c_string].
  destruct (decide (c = x00)) as [Hz|_].
  - by apply legal_filename_byte_nonzero in Hc.
  - by rewrite IH.
Qed.

Lemma pack_loop_app (entries : list (list byte * list byte))
    (archive : list byte) :
  pack_loop entries archive = archive ++ pack_loop entries [].
Proof.
  revert archive. induction entries as [|[d_name file_data] entries IH];
    intros archive; simpl.
  - by rewrite app_nil_r.
  - destruct (decide _); [apply IH|].
    rewrite IH. rewrite (IH (metadata _ _ ++ _)). by rewrite <- !app_assoc.
Qed.

Lemma pack_cons (d_name file_data : list byte)
    (entries : list (list byte * list byte)) :
  d_name ≠ dot -> d_name ≠ dotdot ->
  pack ((d_name, file_data) :: entries)
  = metadata d_name (Z.of_nat (length file_data)) ++ file_data ++ pack entries.
Proof.
  intros H1 H2. unfold pack. simpl.
  rewrite decide_False by (intros [?|?]; done).
  rewrite pack_loop_app. by rewrite <- !app_assoc.
Qed.

Lemma read_entry_end_marker (char_signed : bool) (front : list byte) (w : world) :
  read_entry char_signed (front ++ [x00]) (length front) w = Stop (Break w).
Proof. unfold read_entry. by rewrite fread_app. Qed.

Lemma read_entry_packed (char_signed : bool)
    (front d_name file_data rest : list byte) (w : world) :
  representable_name d_name ->
  Z.of_nat (length file_data) < 2 ^ 32 ->
  read_entry char_signed
    (front ++ metadata d_name (Z.of_nat (length file_data)) ++ file_data ++ rest)
    (length front) w
  = if decide (file_data = []) then
      Stop (Return EXIT_FAILURE
              (say CouldNotReadFileData (say (Extracting d_name) w)))
    else
      Entry d_name (length file_data) (length file_data) 0
            (length front + length d_name + 10) file_data
            (say (Extracting d_name) w).
Proof.
  intros (Hlen & Hlegal & _) Hsize.
  unfold read_entry, metadata.
  set (size := file_size_bytes (Z.of_nat (length file_data))).
  assert (Hsz : length size = 4%nat) by done.
  rewrite fread_app.
  assert (Hwindow : exists tail,
    take FILENAME_SIZE
      ((d_name ++ [x00] ++ size ++ size ++ [x00]) ++ file_data ++ rest)
    = d_name ++ x00 :: tail).
  { rewrite <- !app_assoc. unfold FILENAME_SIZE.
    rewrite take_app_ge by lia. simpl.
    destruct (13 - length d_name)%nat as [|n] eqn:E; [lia|]. simpl. eauto. }
  destruct Hwindow as [tail ->].
  assert (Hgood : check_filename char_signed (d_name ++ x00 :: tail)
                  = GoodFilename).
  { apply check_filename_good. exists d_name, tail.
    repeat split; [|done]. intros ->. simpl in Hlen. lia. }
  rewrite Hgood. unfold strlen. rewrite c_string_app by done.
  assert (Hvalue : Z.to_nat (uint_of_bytes size) = length file_data).
  { unfold size. rewrite uint_of_file_size_bytes, Z.mod_small by lia. lia. }
  unfold read_uint.
  replace (front ++ (d_name ++ [x00] ++ size ++ size ++ [x00])
                 ++ file_data ++ rest)
    with ((front ++ d_name ++ [x00]) ++ size ++ size ++ [x00]
            ++ file_data ++ rest)
    by (by rewrite <- !app_assoc).
  replace (length front + length d_name + 1)%nat
    with (length (front ++ d_name ++ [x00]))
    by (rewrite !length_app; simpl; lia).
  rewrite fread_app, take_app_length' by done.
  rewrite decide_True by done. rewrite Hvalue.
  replace ((front ++ d_name ++ [x00]) ++ size ++ size ++ [x00]
             ++ file_data ++ rest)
    with (((front ++ d_name ++ [x00]) ++ size) ++ size ++ [x00]
            ++ file_data ++ rest)
    by (by rewrite <- !app_assoc).
  replace (length (front ++ d_name ++ [x00]) + 4)%nat
    with (length ((front ++ d_name ++ [x00]) ++ size))
    by (rewrite !length_app; simpl; lia).
  rewrite fread_app, take_app_length' by done.
  rewrite decide_True by done. rewrite Hvalue.
  replace (((front ++ d_name ++ [x00]) ++ size) ++ size ++ [x00]
             ++ file_data ++ rest)
    with ((((front ++ d_name ++ [x00]) ++ size) ++ size) ++ x00
            :: file_data ++ rest)
    by (by rewrite <- !app_assoc).
  replace (length (front ++ d_name ++ [x00]) + 8)%nat
    with (length (((front ++ d_name ++ [x00]) ++ size) ++ size))
    by (rewrite !length_app; simpl; lia).
  rewrite list_lookup_middle by done.
  replace ((((front ++ d_name ++ [x00]) ++ size) ++ size) ++ x00
             :: file_data ++ rest)
    with (((((front ++ d_name ++ [x00]) ++ size) ++ size) ++ [x00])
            ++ file_data ++ rest)
    by (by rewrite <- !app_assoc).
  replace (length (front ++ d_name ++ [x00]) + 9)%nat
    with (length ((((front ++ d_name ++ [x00]) ++ size) ++ size) ++ [x00]))
    by (rewrite !length_app; simpl; lia).
  rewrite fread_app, take_app_length.
  destruct (decide (file_data = [])) as [->|Hdata].
  - by rewrite decide_True by (by left).
  - rewrite decide_False by (intros [H|H]; [by destruct file_data|lia]).
    replace (char_val char_signed x00) with 0 by (by destruct char_signed).
    f_equal. rewrite !length_app. simpl. lia.
Qed.

Lemma pack_loop_cons (d_name file_data : list byte)
    (entries : list (list byte * list byte)) :
  d_name ≠ dot ∧ d_name ≠ dotdot ->
  pack_loop ((d_name, file_data) :: entries) []
  = metadata d_name (Z.of_nat (length file_data)) ++ file_data
      ++ pack_loop entries [].
Proof.
  intros [H1 H2]. simpl.
  rewrite decide_False by (intros [?|?]; done).
  rewrite pack_loop_app. by rewrite <- !app_assoc.
Qed.

Lemma pack_app (entries entries' : list (list byte * list byte)) :
  pack (entries ++ entries') = pack_loop entries [] ++ pack entries'.
Proof.
  unfold pack. rewrite app_assoc. f_equal.
  induction entries as [|[d_name file_data] entries IH]; [done|].
  simpl. destruct (decide _); [done|].
  rewrite pack_loop_app, (pack_loop_app entries), IH.
  by rewrite <- !app_assoc.
Qed.

(** [unpack] goes through the entries that the packer wrote for
    non-empty files, one iteration each. *)
Lemma unpack_loop_packed (char_signed : bool) (junk : nat -> byte)
    (entries : list (list byte * list byte)) :
  Forall extractable entries ->
  forall (fuel : nat) (front tail : list byte) (w : world),
  unpack_loop (length entries + fuel) char_signed junk
    (front ++ pack_loop entries [] ++ tail) (length front) w
  = unpack_loop fuel char_signed junk
      (front ++ pack_loop entries [] ++ tail)
      (length (front ++ pack_loop entries []))
      (World (foldl insert_entry (files w) entries)
             (reverse ((fun entry => Extracting entry.1) <$> entries)
              ++ printed w)).
Proof.
  induction 1 as [|[d_name file_data] entries (Hname & Hdata & Hsize) _ IH];
    intros fuel front tail w.
  - simpl. rewrite app_nil_r. by destruct w.
  - simpl in Hname, Hdata, Hsize.
    cbn [length Nat.add]. rewrite unpack_loop_step. unfold unpack_entry.
    rewrite pack_loop_cons by apply Hname.
    rewrite <- !app_assoc.
    rewrite read_entry_packed by done.
    rewrite decide_False by done.
    unfold extract. cbn [Z.eqb exec_bind].
    rewrite decide_False by (intros H; by apply H).
    replace (front ++ metadata d_name (Z.of_nat (length file_data))
                   ++ file_data ++ pack_loop entries [] ++ tail)
      with ((front ++ metadata d_name (Z.of_nat (length file_data))
                   ++ file_data) ++ pack_loop entries [] ++ tail)
      by (by rewrite <- !app_assoc).
    replace (length front + length d_name + 10 + length file_data)%nat
      with (length (front ++ metadata d_name (Z.of_nat (length file_data))
                          ++ file_data))
      by (unfold metadata; rewrite !length_app; simpl; lia).
    rewrite IH.
    cbn [foldl fmap list_fmap]. rewrite reverse_cons.
    unfold write_file, say, insert_entry. simpl.
    rewrite <- !app_assoc. done.
Qed.

Lemma length_pack_loop (entries : list (list byte * list byte)) :
  Forall extractable entries ->
  (length entries <= length (pack_loop entries []))%nat.
Proof.
  induction 1 as [|[d_name file_data] entries (Hname & _) _ IH]; [done|].
  rewrite pack_loop_cons by apply Hname.
  unfold metadata. rewrite !length_app. simpl. lia.
Qed.

Lemma unpack_loop_more_fuel (char_signed : bool) (junk : nat -> byte)
    (archive : list byte) (fuel fuel' : nat) (position : nat) (w : world)
    (result : Z * world) :
  (fuel <= fuel')%nat ->
  unpack_loop fuel char_signed junk archive position w = Ok result ->
  unpack_loop fuel' char_signed junk archive position w = Ok result.
Proof.
  revert fuel' position w. induction fuel as [|fuel IH];
    intros fuel' position w Hle H; [done|].
  destruct fuel' as [|fuel']; [lia|].
  rewrite unpack_loop_step in *.
  destruct (unpack_entry _ _ _ _ _) as [[status w'|w'|stream w']| |]; try done.
  cbn [exec_bind] in *. apply IH; [lia|done].
Qed.

(** An empty file stops [unpack]: its entry has [compressed_size] 0, the
    [fread] of line 122 returns 0 and [unpack] returns [EXIT_FAILURE],
    having extracted the entries before it only. *)
Theorem unpack_pack_empty_file (char_signed : bool) (junk : nat -> byte)
    (before after : list (list byte * list byte)) (d_name : list byte)
    (folder : gmap (list byte) (list byte)) :
  Forall extractable before -> representable_name d_name ->
  unpack char_signed junk (pack (before ++ (d_name, []) :: after)) folder
  = Ok (EXIT_FAILURE,
        World (foldl insert_entry folder before)
              (CouldNotReadFileData :: Extracting d_name
               :: reverse ((fun entry => Extracting entry.1) <$> before))).
Proof.
  intros Hbefore Hname. unfold unpack.
  apply (unpack_loop_more_fuel _ _ _ (length before + 1)).
  { pose proof (length_pack_loop before Hbefore).
    rewrite pack_app, length_app. lia. }
  rewrite pack_app.
  etransitivity;
    [exact (unpack_loop_packed char_signed junk before Hbefore 1 []
              (pack ((d_name, []) :: after)) (World folder []))|].
  rewrite unpack_loop_step. unfold unpack_entry.
  rewrite pack_cons by apply Hname.
  change ([] ++ pack_loop before []
             ++ metadata d_name (Z.of_nat (length (@nil byte)))
             ++ [] ++ pack after)
    with (([] ++ pack_loop before [])
             ++ metadata d_name (Z.of_nat (length (@nil byte)))
             ++ [] ++ pack after).
  rewrite read_entry_packed by (done || simpl; lia).
  simpl. by rewrite app_nil_r.
Qed.

(** C1 (the failing input). The folder that holds the single empty file
    ["A"]: the packer writes the 12 bytes ['A' 00, eight zero bytes for
    the two sizes, 00 for the level, 00 for the end], and [unpack]
    returns [EXIT_FAILURE] on them with the output folder unchanged. *)
Theorem empty_file_breaks_round_trip (char_signed : bool) (junk : nat -> byte)
    (folder : gmap (list byte) (list byte)) :
  pack [([x41], [])]
  = [x41; x00; x00; x00; x00; x00; x00; x00; x00; x00; x00; x00]
  ∧ unpack char_signed junk (pack [([x41], [])]) folder
    = Ok (EXIT_FAILURE,
          World folder [CouldNotReadFileData; Extracting [x41]]).
Proof.
  split; [reflexivity|].
  apply (unpack_pack_empty_file char_signed junk [] [] [x41] folder);
    [constructor|].
  split; [simpl; lia|]. split; [|split; discriminate].
  constructor; [|constructor].
  unfold legal_filename_byte. change (byte_val x41) with 65. lia.
Qed.

(** ** Accesses of the decoders *)

(** C4 (counterexample). Neither decoder checks an index against
    [compressed_size] or [uncompressed_size]. The level-1 payload [80]
    announces a byte to repeat that is not there: the decoder reads index
    1 of a 1-byte payload. The level-1 payload [00 'A'] decodes to one
    byte: with [uncompressed_size] 0 the decoder writes index 0 of an
    empty buffer. The level-2 payload [01] is a flag byte that announces
    a literal that is not there. An archive with the first of these
    entries takes [unpack] outside the payload buffer. *)
Lemma decoders_leave_the_buffers :
  let junk := fun _ : nat => x00 in
  rle_decode [x80] (malloc junk 3) = OutOfBounds
  ∧ rle_decode [x00; x41] (malloc junk 0) = OutOfBounds
  ∧ win_decode true (offset_bits_of 2) [x01] (malloc junk 1)
      (malloc junk (Z.to_nat (max_offset_of (offset_bits_of 2))))
    = OutOfBounds
  ∧ unpack true junk
      [x41; x00; x01; x00; x00; x00; x03; x00; x00; x00; x01; x80; x00] ∅
    = OutOfBounds.
Proof. cbv zeta. repeat split; vm_compute; reflexivity. Qed.

(** X22. The decoder of a supported level above 1 makes an access
    outside a buffer exactly when the payload ends inside a token (a
    flag byte with no token after it, a back-reference cut after its
    first byte) or the bytes produced, up to the end or to an escape,
    outgrow the output buffer or the window. *)
Theorem win_decode_out_of_bounds (char_signed : bool) (offset_bits : Z)
    (payload buffer window : list byte) :
  0 <= offset_bits <= 8 ->
  length window = Z.to_nat (max_offset_of offset_bits) ->
  win_decode char_signed offset_bits payload buffer window = OutOfBounds
  <-> ¬ ref_fits (win_limit buffer window) (win_reference offset_bits payload).
Proof.
  intros Hsupported Hwindow.
  rewrite (win_decode_ref char_signed offset_bits payload buffer window)
    by done.
  unfold ref_exec. destruct (decide _) as [Hfits|Hno]; [|done].
  split; [|done]. unfold ref_fits in Hfits.
  by destruct (win_reference offset_bits payload).
Qed.

(** The window has [max_offset] bytes and its cursors run up to index
    [max_offset]: at level 6, where [max_offset] is 255, the payload of
    32 groups of 8 literals decodes to 256 bytes, and with an output
    buffer of 256 bytes the decoder writes index 255 of the 255-byte
    window. With 31 groups and a half, 252 bytes, it stays within the
    buffers. *)
Lemma window_is_one_byte_short :
  let junk := fun _ : nat => x00 in
  let group := xff :: replicate 8 x41 in
  let window := malloc junk (Z.to_nat (max_offset_of (offset_bits_of 6))) in
  length window = 255%nat
  ∧ win_decode true (offset_bits_of 6) (mjoin (replicate 32 group))
      (malloc junk 256) window
    = OutOfBounds
  ∧ win_decode true (offset_bits_of 6)
      (mjoin (replicate 31 group) ++ [x0f; x41; x41; x41; x41])
      (malloc junk 256) window
    = Ok (Next (WinState 284 (replicate 252 x41 ++ replicate 4 x00) 252
                  (replicate 252 x41 ++ replicate 3 x00) 252)).
Proof. cbv zeta. repeat split; vm_compute; reflexivity. Qed.

(** C4 (amended). The level-1 decoder stays within the payload and the
    output buffer exactly when the payload is a sequence of whole groups
    and what they stand for is no longer than the output buffer;
    otherwise it makes an access outside a buffer. The decoder of a
    supported level above 1 stays within the payload, the output buffer
    and the window when every token of the payload is whole and the bytes
    produced, up to the end or to an escape, are no more than
    [uncompressed_size] and no more than [max_offset]; it then leaves
    what the reference decoder produced at the start of the output
    buffer. *)
Theorem decoders_in_bounds_on_whole_payloads :
  (forall payload buffer : list byte,
     (exists st, rle_decode payload buffer = Ok st)
     <-> (exists decoded, rle_groups payload decoded
                          ∧ (length decoded <= length buffer)%nat))
  ∧ (forall payload buffer : list byte,
       rle_decode payload buffer = OutOfBounds
       <-> ¬ (exists decoded, rle_groups payload decoded
                              ∧ (length decoded <= length buffer)%nat))
  ∧ (forall (char_signed : bool) (offset_bits : Z)
            (payload buffer window : list byte),
       0 <= offset_bits <= 8 ->
       length window = Z.to_nat (max_offset_of offset_bits) ->
       ref_fits (win_limit buffer window) (win_reference offset_bits payload) ->
       win_decode char_signed offset_bits payload buffer window
       = ref_signal payload buffer window (win_reference offset_bits payload)
       ∧ exists r, win_decode char_signed offset_bits payload buffer window
                   = Ok r).
Proof.
  assert (Hrle : forall payload buffer : list byte,
    (exists st, rle_decode payload buffer = Ok st)
    <-> (exists decoded, rle_groups payload decoded
                         ∧ (length decoded <= length buffer)%nat)).
  { intros payload buffer. split.
    - intros [st H]. by apply rle_decode_ok in H.
    - intros (decoded & Hgroups & Hroom).
      rewrite (rle_decode_groups payload decoded buffer) by done. eauto. }
  split; [exact Hrle|]. split.
  - intros payload buffer. rewrite <- Hrle.
    pose proof (rle_decode_in_fuel payload buffer).
    destruct (rle_decode payload buffer) as [st| |]; split; try done.
    + intros Hno. destruct Hno. eauto.
    + by intros _ [st ?].
  - intros char_signed offset_bits payload buffer window
           Hsupported Hwindow Hfits.
    rewrite (win_decode_ref char_signed offset_bits payload buffer window)
      by done.
    unfold ref_exec. rewrite decide_True by done. split; [done|].
    unfold ref_fits in Hfits.
    destruct (win_reference offset_bits payload); simpl in *; eauto. done.
Qed.

Lemma decoders_in_bounds_on_whole_payloads_witness :
  let junk := fun _ : nat => x00 in
  (exists st, rle_decode [x02; x41; x42; x43; x80; x58] (malloc junk 6) = Ok st)
  ∧ win_decode true 4 [x07; x58; x59; x5a; x01; x10] (malloc junk 6)
      (malloc junk 4095)
    = Ok (Next (WinState 6 [x58; x59; x5a; x58; x59; x5a] 6
                  ([x58; x59; x5a; x58; x59; x5a] ++ drop 6 (malloc junk 4095))
                  6)).
Proof.
  intros junk.
  destruct decoders_in_bounds_on_whole_payloads as (Hrle & _ & Hwin).
  split.
  - apply (Hrle [x02; x41; x42; x43; x80; x58] (malloc junk 6)).
    exists [x41; x42; x43; x58; x58; x58]. split; [|simpl; lia].
    apply (rle_groups_literal x02 [x41; x42; x43] [x80; x58] [x58; x58; x58]).
    + change (byte_val x02) with 2. lia.
    + reflexivity.
    + apply (rle_groups_duplicate x80 x58 [] []); [|apply rle_groups_end].
      change (byte_val x80) with 128. lia.
  - destruct (Hwin true 4 [x07; x58; x59; x5a; x01; x10] (malloc junk 6)
                (malloc junk 4095)) as [H _].
    + lia.
    + vm_compute. reflexivity.
    + vm_compute. lia.
    + exact H.
Defined.

(** * Further properties *)

Lemma legal_x41 : legal_filename_byte x41.
Proof. unfold legal_filename_byte. change (byte_val x41) with 65. lia. Qed.

Lemma legal_x42 : legal_filename_byte x42.
Proof. unfold legal_filename_byte. change (byte_val x42) with 66. lia. Qed.

Lemma extractable_x41 : extractable ([x41], [x58; x59]).
Proof.
  split; [|split; [discriminate|simpl; lia]].
  split; [simpl; lia|]. split; [|split; discriminate].
  constructor; [apply legal_x41|constructor].
Qed.

(** ** Archives written by [pack] *)

Lemma pack_loop_skipped (skipped : list (list byte * list byte)) :
  Forall (fun entry => entry.1 = dot ∨ entry.1 = dotdot) skipped ->
  pack_loop skipped [] = [].
Proof.
  induction 1 as [|[d_name file_data] skipped Hname _ IH]; [done|].
  simpl in *. by rewrite decide_True.
Qed.

Lemma fopen_wb_representable (writable : list byte -> bool)
    (name : list byte) :
  representable_name name -> fopen_wb writable name = writable name.
Proof.
  intros (_ & _ & Hdot & Hdotdot). unfold fopen_wb.
  by rewrite decide_False by (intros [?|?]; done).
Qed.

(** X1. The round trip, with the calls of [free]. [pack] skips ["."] and
    [".."]: on the archive of a folder that lists nothing else, [unpack]
    returns 0 and leaves the output folder as it was. On the archive of
    a folder whose first other entry is a non-empty file, with a name of
    1 to 12 legal bytes and a size below 2^32, [unpack] runs into
    undefined behaviour at that entry, which has level 0: where its file
    opens, [compressed_data] is freed at line 154 and again at line 368;
    where it does not, the [file_path] freed at line 144 is read at line
    147. No later entry is reached. *)
Theorem packed_archive_is_not_extracted (writable : list byte -> bool)
    (char_signed : bool) (junk : nat -> byte)
    (skipped : list (list byte * list byte)) (d_name file_data : list byte)
    (entries : list (list byte * list byte))
    (folder : gmap (list byte) (list byte)) :
  Forall (fun entry => entry.1 = dot ∨ entry.1 = dotdot) skipped ->
  run_unpack writable char_signed junk (pack skipped) folder
  = Done (EXIT_SUCCESS, World folder [])
  ∧ (extractable (d_name, file_data) ->
     run_unpack writable char_signed junk
       (pack (skipped ++ (d_name, file_data) :: entries)) folder
     = Undefined (if writable d_name then FreedTwice CompressedData
                  else UsedAfterFree FilePath)).
Proof.
  intros Hskipped. split.
  - unfold pack. by rewrite pack_loop_skipped.
  - intros (Hname & Hdata & Hsize). simpl in Hname, Hdata, Hsize.
    rewrite pack_app, pack_loop_skipped by done. cbn [app].
    unfold run_unpack. rewrite run_unpack_loop_step. unfold run_unpack_entry.
    rewrite pack_cons by apply Hname.
    pose proof (read_entry_packed char_signed [] d_name file_data
                  (pack entries) (World folder []) Hname Hsize) as Hread.
    rewrite decide_False in Hread by done. cbn [app length] in Hread.
    rewrite Hread. unfold run_extract. cbn [Z.eqb].
    rewrite fopen_wb_representable by done.
    by destruct (writable d_name).
Qed.

Lemma packed_archive_is_not_extracted_witness :
  run_unpack (fun _ => true) true (fun _ => x00)
    (pack [(dot, []); ([x41], [x58; x59]); ([x42], [x5a])]) ∅
  = Undefined (FreedTwice CompressedData).
Proof.
  destruct (packed_archive_is_not_extracted (fun _ => true) true
              (fun _ => x00) [(dot, [])] [x41] [x58; x59] [([x42], [x5a])] ∅)
    as [_ H].
  - constructor; [by left|constructor].
  - apply H, extractable_x41.
Defined.

Lemma first_zero_unique (n1 n2 t1 t2 : list byte) :
  n1 ++ x00 :: t1 = n2 ++ x00 :: t2 -> x00 ∉ n1 -> x00 ∉ n2 -> n1 = n2.
Proof.
  revert n2. induction n1 as [|a n1 IH]; intros [|b n2] Heq H1 H2;
    simplify_eq/=; auto.
  - by destruct H2; left.
  - by destruct H1; left.
  - f_equal. apply IH; [done| |].
    + intros ?. apply H1. by right.
    + intros ?. apply H2. by right.
Qed.

Lemma legal_no_zero (name : list byte) :
  Forall legal_filename_byte name -> x00 ∉ name.
Proof.
  intros H Hin. rewrite Forall_forall in H.
  by apply (legal_filename_byte_nonzero x00 (H x00 Hin)).
Qed.

(** X4. [pack] writes the name that [readdir] gives without checking it,
    and [unpack] checks it: when the first entry of a folder has a name
    of more than 12 bytes, or a name with a byte outside the legal set,
    [unpack] of the archive returns [EXIT_FAILURE] with the
    invalid-filename message and writes no file at all, whatever the
    other entries are. *)
Theorem unpack_rejects_unchecked_names (char_signed : bool)
    (junk : nat -> byte) (d_name file_data : list byte)
    (entries : list (list byte * list byte))
    (folder : gmap (list byte) (list byte)) :
  d_name ≠ [] -> x00 ∉ d_name -> d_name ≠ dot -> d_name ≠ dotdot ->
  (12 < length d_name)%nat ∨ ¬ Forall legal_filename_byte d_name ->
  unpack char_signed junk (pack ((d_name, file_data) :: entries)) folder
  = Ok (EXIT_FAILURE, World folder [InvalidFilename]).
Proof.
  intros Hne Hzero Hdot Hdotdot Hbad.
  unfold unpack. rewrite unpack_loop_step. unfold unpack_entry, read_entry.
  rewrite pack_cons by done. unfold metadata, fread. rewrite drop_0.
  set (tail := file_size_bytes (Z.of_nat (length file_data))
                 ++ file_size_bytes (Z.of_nat (length file_data)) ++ [x00]).
  set (window := take FILENAME_SIZE
                   ((d_name ++ [x00] ++ tail) ++ file_data ++ pack entries)).
  assert (Hverdict : check_filename char_signed window = BadFilename).
  { destruct (check_filename char_signed window) eqn:Hv; [| | done|].
    - apply check_filename_none in Hv. subst window.
      destruct d_name; [done|]. discriminate.
    - apply check_filename_end in Hv. subst window.
      destruct d_name as [|c d_name]; [done|]. simpl in Hv.
      injection Hv as -> _. destruct Hzero. by left.
    - apply check_filename_good in Hv as (name & rest & Hw & _ & Hlegal).
      exfalso. subst window. rewrite <- !app_assoc in Hw.
      destruct (decide (length d_name <= 12)%nat) as [Hlen|Hlen].
      + unfold FILENAME_SIZE in Hw. rewrite take_app_ge in Hw by lia.
        destruct (13 - length d_name)%nat as [|n] eqn:E; [lia|].
        simpl in Hw. apply first_zero_unique in Hw;
          [|done|by apply legal_no_zero].
        subst name. destruct Hbad as [?|Hbad]; [lia|done].
      + unfold FILENAME_SIZE in Hw. rewrite take_app_le in Hw by lia.
        apply Hzero. rewrite <- (take_drop 13 d_name), Hw.
        apply elem_of_app. left. apply elem_of_app. right. by left. }
  rewrite Hverdict. reflexivity.
Qed.

Lemma unpack_rejects_unchecked_names_witness :
  unpack true (fun _ => x00) (pack [([x41; x20; x42], [x58])]) ∅
  = Ok (EXIT_FAILURE, World ∅ [InvalidFilename])
  ∧ unpack true (fun _ => x00) (pack [(replicate 13 x41, [x58])]) ∅
    = Ok (EXIT_FAILURE, World ∅ [InvalidFilename]).
Proof.
  split.
  - apply (unpack_rejects_unchecked_names true (fun _ => x00) [x41; x20; x42]);
      try discriminate.
    + intros H. repeat (apply elem_of_cons in H as [H|H]; [discriminate|]).
      by apply elem_of_nil in H.
    + right. intros H. apply Forall_cons_1 in H as [_ H].
      apply Forall_cons_1 in H as [H _].
      unfold legal_filename_byte in H. change (byte_val x20) with 32 in H.
      cbv zeta in H. lia.
  - apply (unpack_rejects_unchecked_names true (fun _ => x00) (replicate 13 x41));
      try discriminate.
    + intros H. apply elem_of_replicate in H as [H _]. discriminate.
    + left. simpl. lia.
Defined.

Lemma length_file_size_bytes (file_size : Z) :
  length (file_size_bytes file_size) = 4%nat.
Proof. reflexivity. Qed.

(** X5. The archive that [pack] writes: for each entry that [readdir]
    gives, in that order and leaving ["."] and [".."] out, the name, a
    zero byte, the size of the file as four bytes (low byte first) twice,
    a zero byte for the level and the content of the file; then one zero
    byte. Its length is 1 plus, for each such entry, the length of the
    name plus 10 plus the size of the file. *)
Theorem pack_layout (entries : list (list byte * list byte)) :
  let listed :=
    filter (fun entry : list byte * list byte =>
              entry.1 ≠ dot ∧ entry.1 ≠ dotdot) entries in
  pack entries
  = concat ((fun entry : list byte * list byte =>
               entry.1 ++ [x00]
                 ++ file_size_bytes (Z.of_nat (length entry.2))
                 ++ file_size_bytes (Z.of_nat (length entry.2))
                 ++ [x00] ++ entry.2) <$> listed)
      ++ [x00]
  ∧ length (pack entries)
    = S (sum_list ((fun entry : list byte * list byte =>
                      length entry.1 + 10 + length entry.2)%nat <$> listed)).
Proof.
  intros listed.
  assert (Hloop : pack_loop entries []
    = concat ((fun entry : list byte * list byte =>
                 entry.1 ++ [x00]
                   ++ file_size_bytes (Z.of_nat (length entry.2))
                   ++ file_size_bytes (Z.of_nat (length entry.2))
                   ++ [x00] ++ entry.2) <$> listed)).
  { subst listed. induction entries as [|[d_name file_data] entries IH];
      [done|].
    cbn [pack_loop]. rewrite filter_cons. cbn [fst snd].
    destruct (decide (d_name = dot ∨ d_name = dotdot)) as [Hdot|Hname].
    - rewrite decide_False by (intros [? ?]; by destruct Hdot). exact IH.
    - rewrite decide_True by (split; intros ->; apply Hname; auto).
      rewrite pack_loop_app, IH. cbn [fmap list_fmap concat fst snd app].
      unfold metadata. by rewrite <- !app_assoc. }
  unfold pack. rewrite Hloop. split; [done|].
  rewrite length_app. cbn [length]. rewrite Nat.add_1_r. f_equal.
  clear Hloop. clearbody listed.
  induction listed as [|[d_name file_data] listed IH]; [done|].
  cbn [fmap list_fmap concat sum_list fst snd].
  rewrite length_app, IH, !length_app, !length_file_size_bytes.
  cbn [length]. unfold id. lia.
Qed.

(** X6. The size field that [pack] writes and the way [unpack] reads it
    agree up to 2^32: the four bytes written for a file of [file_size]
    bytes are read back as [file_size mod 2^32], so that the size of a
    file of 4 GiB or more is recorded short. *)
Theorem size_field_round_trip (front rest : list byte) (file_size : Z) :
  read_uint (front ++ file_size_bytes file_size ++ rest) (length front)
  = Some (Z.to_nat (file_size mod 2 ^ 32)).
Proof.
  unfold read_uint. rewrite fread_app.
  rewrite take_app_length' by done.
  rewrite decide_True by done.
  by rewrite uint_of_file_size_bytes.
Qed.

(** ** The layout of an entry *)

Lemma filename_window (char_signed : bool) (front name tail : list byte) :
  name ≠ [] -> (length name <= 12)%nat -> Forall legal_filename_byte name ->
  check_filename char_signed
    (fread (front ++ name ++ x00 :: tail) (length front) FILENAME_SIZE)
  = GoodFilename
  ∧ c_string (fread (front ++ name ++ x00 :: tail) (length front) FILENAME_SIZE)
    = name.
Proof.
  intros Hne Hlen Hlegal. rewrite fread_app.
  assert (Hwindow : exists rest,
    take FILENAME_SIZE (name ++ x00 :: tail) = name ++ x00 :: rest).
  { unfold FILENAME_SIZE. rewrite take_app_ge by lia.
    destruct (13 - length name)%nat as [|n] eqn:E; [lia|]. simpl. eauto. }
  destruct Hwindow as [rest ->]. split.
  - apply check_filename_good. by exists name, rest.
  - by apply c_string_app.
Qed.

Lemma fread_shift (front tail : list byte) (stream offset size : nat) :
  stream = (length front + offset)%nat ->
  fread (front ++ tail) stream size = fread tail offset size.
Proof. intros ->. unfold fread. by rewrite drop_app_add. Qed.

Lemma read_uint_shift (front tail : list byte) (stream offset : nat) :
  stream = (length front + offset)%nat ->
  read_uint (front ++ tail) stream = read_uint tail offset.
Proof. intros H. unfold read_uint. by rewrite (fread_shift _ _ _ offset). Qed.

(** What follows a name and its terminator decides the rest of the
    header: the fields are read at the offsets 0, 4, 8 and 9 after the
    terminator. *)
Lemma read_entry_fields (char_signed : bool) (front name tail : list byte)
    (w : world) :
  name ≠ [] -> (length name <= 12)%nat -> Forall legal_filename_byte name ->
  read_entry char_signed (front ++ name ++ x00 :: tail) (length front) w
  = let w := say (Extracting name) w in
    match read_uint tail 0 with
    | None => Stop (Return EXIT_FAILURE (say CouldNotReadCompressedSize w))
    | Some compressed_size =>
    match read_uint tail 4 with
    | None => Stop (Return EXIT_FAILURE (say CouldNotReadUncompressedSize w))
    | Some uncompressed_size =>
    match tail !! 8%nat with
    | None => Stop (Return EXIT_FAILURE (say CouldNotReadCompressionLevel w))
    | Some level =>
        let compressed_data := fread tail 9 compressed_size in
        if decide (compressed_size = 0%nat
                   ∨ (length compressed_data < compressed_size)%nat)
        then Stop (Return EXIT_FAILURE (say CouldNotReadFileData w))
        else Entry name compressed_size uncompressed_size
                   (char_val char_signed level)
                   (length front + length name + 10) compressed_data w
    end end end.
Proof.
  intros Hne Hlen Hlegal. unfold read_entry.
  destruct (filename_window char_signed front name tail Hne Hlen Hlegal)
    as [-> Hs].
  unfold strlen. rewrite Hs. cbv zeta.
  replace (front ++ name ++ x00 :: tail) with ((front ++ name ++ [x00]) ++ tail)
    by (by rewrite <- !app_assoc).
  assert (Hfront : length (front ++ name ++ [x00])
                   = (length front + length name + 1)%nat)
    by (rewrite !length_app; simpl; lia).
  rewrite (read_uint_shift _ _ _ 0) by lia.
  destruct (read_uint tail 0) as [cs|]; [|done].
  rewrite (read_uint_shift _ _ _ 4) by lia.
  destruct (read_uint tail 4) as [us|]; [|done].
  rewrite lookup_app_r by lia.
  replace (length front + length name + 1 + 8
           - length (front ++ name ++ [x00]))%nat with 8%nat by lia.
  destruct (tail !! 8%nat) as [level|]; [|done].
  rewrite (fread_shift _ _ _ 9) by lia.
  destruct (decide _); [done|]. f_equal. lia.
Qed.

Lemma read_uint_size (rest : list byte) (size : nat) :
  Z.of_nat size < 2 ^ 32 ->
  read_uint (file_size_bytes (Z.of_nat size) ++ rest) 0 = Some size.
Proof.
  intros H. unfold read_uint, fread. rewrite drop_0.
  rewrite take_app_length' by done. rewrite decide_True by done.
  rewrite uint_of_file_size_bytes, Z.mod_small by lia.
  by rewrite Nat2Z.id.
Qed.

Lemma read_uint_short (bytes : list byte) (offset : nat) :
  (length bytes < offset + 4)%nat -> read_uint bytes offset = None.
Proof.
  intros H. unfold read_uint. rewrite decide_False; [done|].
  rewrite length_fread. lia.
Qed.

(** X7. The layout that [unpack] reads, at any position of the archive:
    a name of 1 to 12 legal bytes, a zero byte, the compressed size and
    the uncompressed size as four bytes each (low byte first), one byte
    for the level, and the payload. The entry is read with these fields,
    the level as a plain [char], and the payload is found 10 bytes after
    the end of the name. *)
Theorem entry_layout (char_signed : bool)
    (front name : list byte) (uncompressed_size : nat) (level : byte)
    (payload rest : list byte) (w : world) :
  name ≠ [] -> (length name <= 12)%nat -> Forall legal_filename_byte name ->
  payload ≠ [] -> Z.of_nat (length payload) < 2 ^ 32 ->
  Z.of_nat uncompressed_size < 2 ^ 32 ->
  let archive :=
    front ++ name ++ [x00]
      ++ file_size_bytes (Z.of_nat (length payload))
      ++ file_size_bytes (Z.of_nat uncompressed_size)
      ++ [level] ++ payload ++ rest in
  read_entry char_signed archive (length front) w
  = Entry name (length payload) uncompressed_size (char_val char_signed level)
          (length front + length name + 10) payload (say (Extracting name) w).
Proof.
  intros Hne Hlen Hlegal Hpayload Hcs Hus archive.
  subst archive. cbn [app]. rewrite read_entry_fields by done. cbv zeta.
  rewrite read_uint_size by done.
  rewrite (read_uint_shift (file_size_bytes _) _ 4 0) by done.
  rewrite read_uint_size by done.
  rewrite (lookup_app_r (file_size_bytes _)) by (simpl; lia).
  rewrite (lookup_app_r (file_size_bytes _)) by (simpl; lia).
  rewrite !length_file_size_bytes. cbn [Nat.sub lookup list_lookup app].
  rewrite (fread_shift (file_size_bytes _) _ 9 5) by done.
  rewrite (fread_shift (file_size_bytes _) _ 5 1) by done.
  unfold fread. cbn [drop]. rewrite drop_0, take_app_length.
  rewrite decide_False by (intros [H|H]; [by destruct payload|lia]).
  done.
Qed.

Lemma entry_layout_witness :
  let archive :=
    [x07; x41; x42; x00; x03; x00; x00; x00; x2c; x01; x00; x00; x02;
     x58; x59; x5a; x00] in
  read_entry true archive 1 (World ∅ [])
  = Entry [x41; x42] 3 300 2 13 [x58; x59; x5a]
          (World ∅ [Extracting [x41; x42]]).
Proof.
  intros archive.
  apply (entry_layout true [x07] [x41; x42] 300 x02 [x58; x59; x5a] [x00]
           (World ∅ []));
    try discriminate; try (simpl; lia).
  constructor; [apply legal_x41|constructor; [apply legal_x42|constructor]].
Defined.

(** X8. An archive that ends inside an entry: after a name of 1 to 12
    legal bytes and its terminator, fewer than 4 bytes where the
    compressed size should be, fewer than 4 bytes where the uncompressed
    size should be, no byte for the level, or fewer payload bytes than the
    compressed size announces, each make [unpack] return [EXIT_FAILURE]
    with the message of the field that is missing, after the line that
    names the entry; no file is written. *)
Theorem truncated_entry_is_reported (char_signed : bool) (junk : nat -> byte)
    (name : list byte) (folder : gmap (list byte) (list byte)) :
  name ≠ [] -> (length name <= 12)%nat -> Forall legal_filename_byte name ->
  let failure := fun m : message =>
    Ok (EXIT_FAILURE, World folder [m; Extracting name]) in
  (forall tail : list byte, (length tail < 4)%nat ->
     unpack char_signed junk (name ++ [x00] ++ tail) folder
     = failure CouldNotReadCompressedSize)
  ∧ (forall (compressed_size : Z) (tail : list byte), (length tail < 4)%nat ->
       unpack char_signed junk
         (name ++ [x00] ++ file_size_bytes compressed_size ++ tail) folder
       = failure CouldNotReadUncompressedSize)
  ∧ (forall compressed_size uncompressed_size : Z,
       unpack char_signed junk
         (name ++ [x00] ++ file_size_bytes compressed_size
            ++ file_size_bytes uncompressed_size) folder
       = failure CouldNotReadCompressionLevel)
  ∧ (forall (compressed_size : nat) (uncompressed_size : Z) (level : byte)
            (payload : list byte),
       Z.of_nat compressed_size < 2 ^ 32 ->
       (length payload < compressed_size)%nat ->
       unpack char_signed junk
         (name ++ [x00] ++ file_size_bytes (Z.of_nat compressed_size)
            ++ file_size_bytes uncompressed_size ++ [level] ++ payload) folder
       = failure CouldNotReadFileData).
Proof.
  intros Hne Hlen Hlegal failure.
  assert (Hstep : forall tail : list byte,
    unpack char_signed junk (name ++ [x00] ++ tail) folder
    = (s <-- unpack_entry char_signed junk ([] ++ name ++ x00 :: tail)
               (length (@nil byte)) (World folder []) ;;
       match s with
       | Return status w' => Ok (status, w')
       | Break w' => Ok (EXIT_SUCCESS, w')
       | Continue stream w' =>
           unpack_loop (length (name ++ [x00] ++ tail)) char_signed junk
             (name ++ [x00] ++ tail) stream w'
       end)) by done.
  assert (Hsizes : forall (size : Z) (rest : list byte),
    exists n : nat, read_uint (file_size_bytes size ++ rest) 0 = Some n).
  { intros size rest. unfold read_uint, fread. rewrite drop_0.
    rewrite take_app_length' by done. rewrite decide_True by done. eauto. }
  split; [|split; [|split]].
  - intros tail Htail. rewrite Hstep. unfold unpack_entry.
    rewrite read_entry_fields by done. cbv zeta.
    by rewrite read_uint_short by lia.
  - intros cs tail Htail. rewrite Hstep. unfold unpack_entry.
    rewrite read_entry_fields by done. cbv zeta.
    destruct (Hsizes cs tail) as [n ->].
    by rewrite read_uint_short by (rewrite length_app; simpl; lia).
  - intros cs us. rewrite Hstep. unfold unpack_entry.
    rewrite read_entry_fields by done. cbv zeta.
    destruct (Hsizes cs (file_size_bytes us)) as [n ->].
    rewrite (read_uint_shift (file_size_bytes cs) _ 4 0) by done.
    destruct (Hsizes us []) as [m Hm]. rewrite app_nil_r in Hm. rewrite Hm.
    by rewrite lookup_ge_None_2 by (rewrite length_app; simpl; lia).
  - intros cs us level payload Hcs Hshort. rewrite Hstep. unfold unpack_entry.
    rewrite read_entry_fields by done. cbv zeta.
    rewrite read_uint_size by done.
    rewrite (read_uint_shift (file_size_bytes _) _ 4 0) by done.
    destruct (Hsizes us ([level] ++ payload)) as [m ->].
    rewrite (lookup_app_r (file_size_bytes _)) by (simpl; lia).
    rewrite (lookup_app_r (file_size_bytes _)) by (simpl; lia).
    rewrite !length_file_size_bytes. cbn [Nat.sub lookup list_lookup app].
    rewrite decide_True; [done|]. right. rewrite length_fread.
    rewrite !length_app. simpl. lia.
Qed.

Lemma truncated_entry_is_reported_witness :
  unpack true (fun _ => x00) ([x41] ++ [x00] ++ [x01; x00]) ∅
  = Ok (EXIT_FAILURE, World ∅ [CouldNotReadCompressedSize; Extracting [x41]])
  ∧ unpack true (fun _ => x00)
      ([x41] ++ [x00] ++ file_size_bytes (Z.of_nat 2)
         ++ file_size_bytes 2 ++ [x00] ++ [x58]) ∅
    = Ok (EXIT_FAILURE, World ∅ [CouldNotReadFileData; Extracting [x41]]).
Proof.
  destruct (truncated_entry_is_reported true (fun _ => x00) [x41] ∅)
    as (Hcs & _ & _ & Hdata); try discriminate; try (simpl; lia).
  { constructor; [apply legal_x41|constructor]. }
  split.
  - apply (Hcs [x01; x00]). simpl. lia.
  - apply (Hdata 2%nat 2 x00 [x58]); simpl; lia.
Defined.

(** ** [unpack] on every archive *)

Lemma unpack_loop_fuel (char_signed : bool) (junk : nat -> byte)
    (archive : list byte) (fuel1 fuel2 : nat) (position : nat) (w : world) :
  (position <= length archive)%nat ->
  (length archive - position < fuel1)%nat ->
  (length archive - position < fuel2)%nat ->
  unpack_loop fuel1 char_signed junk archive position w
  = unpack_loop fuel2 char_signed junk archive position w.
Proof.
  revert fuel2 position w. induction fuel1 as [|fuel1 IH];
    intros fuel2 position w Hp H1 H2; [lia|].
  destruct fuel2 as [|fuel2]; [lia|].
  rewrite !unpack_loop_step.
  pose proof (unpack_entry_forward char_signed junk archive position w) as H.
  destruct (unpack_entry _ _ _ _ _) as [[status w'|w'|stream w']| |];
    try done.
  cbn [exec_bind]. apply IH; lia.
Qed.

(** X9. The loop of [unpack] ends on every archive: an iteration that
    goes on has moved the stream forward, within the archive, so the
    loop runs out of archive before it runs out of the fuel that
    [unpack] gives it, and with any larger amount of fuel the result is
    the same. [unpack] returns a status, or makes an access outside a
    buffer. *)
Theorem unpack_always_returns (char_signed : bool) (junk : nat -> byte)
    (archive : list byte) (folder : gmap (list byte) (list byte)) :
  unpack char_signed junk archive folder ≠ OutOfFuel
  ∧ forall fuel : nat, (length archive < fuel)%nat ->
      unpack_loop fuel char_signed junk archive 0 (World folder [])
      = unpack char_signed junk archive folder.
Proof.
  split.
  - unfold unpack. apply unpack_loop_in_fuel; lia.
  - intros fuel Hfuel. unfold unpack. apply unpack_loop_fuel; lia.
Qed.

(** ** The files that [unpack] touches *)

Lemma read_entry_filename (char_signed : bool) (archive : list byte)
    (position : nat) (w : world) (filename : list byte)
    (compressed_size uncompressed_size : nat) (compression_level : Z)
    (payload_position : nat) (compressed_data : list byte) (w1 : world) :
  read_entry char_signed archive position w
  = Entry filename compressed_size uncompressed_size compression_level
          payload_position compressed_data w1 ->
  (1 <= length filename <= 12)%nat
  ∧ Forall legal_filename_byte filename
  ∧ w1 = say (Extracting filename) w.
Proof.
  unfold read_entry. intros H.
  destruct (check_filename _ _) eqn:Hv; try done.
  apply check_filename_good in Hv as (name & tail & Hw & Hne & Hlegal).
  assert (Hlen : (length (fread archive position FILENAME_SIZE) <= 13)%nat)
    by (rewrite length_fread; unfold FILENAME_SIZE; lia).
  rewrite Hw in *. rewrite c_string_app in H by done.
  rewrite length_app in Hlen. cbn [length] in Hlen.
  destruct (read_uint archive _) as [cs|]; [|done].
  destruct (read_uint archive _) as [us|]; [|done].
  destruct (archive !! _) as [level|]; [|done].
  destruct (decide _); [done|].
  injection H as <- <- <- <- <- <- <-.
  split; [|done]. destruct name; [done|]. cbn [length] in *. lia.
Qed.

Lemma read_entry_stop_files (char_signed : bool) (archive : list byte)
    (position : nat) (w : world) (s : step) :
  read_entry char_signed archive position w = Stop s ->
  files (step_world s) = files w.
Proof.
  unfold read_entry. intros H.
  repeat match type of H with
  | context [match ?o with _ => _ end] => destruct o
  end; by simplify_eq.
Qed.

Lemma extract_files (char_signed : bool) (junk : nat -> byte)
    (filename : list byte) (compressed_size uncompressed_size : nat)
    (compression_level : Z) (compressed_data : list byte)
    (position stream : nat) (w : world) (s : step) (name : list byte) :
  extract char_signed junk filename compressed_size uncompressed_size
          compression_level compressed_data position stream w = Ok s ->
  name ≠ filename ->
  files (step_world s) !! name = files w !! name.
Proof.
  unfold extract. intros H Hname.
  destruct (compression_level =? 0).
  { simplify_eq. simpl. rewrite lookup_insert_ne by done.
    by destruct (decide _). }
  destruct (compression_level =? 1).
  { destruct (rle_decode _ _) as [st| |]; try done. cbn [exec_bind] in H.
    destruct (decide (uncompressed_size = 0%nat)); simplify_eq; simpl;
      rewrite lookup_insert_ne by done; by destruct (decide _). }
  destruct (1 <? compression_level); [|by simplify_eq].
  destruct (8 <? offset_bits_of compression_level); [by simplify_eq|].
  destruct (win_decode _ _ _ _ _) as [[st|m st]| |]; try done;
    cbn [exec_bind] in H; simplify_eq; simpl;
    rewrite lookup_insert_ne by done; by destruct (decide _).
Qed.

Lemma unpack_entry_files (char_signed : bool) (junk : nat -> byte)
    (archive : list byte) (position : nat) (w : world) (s : step)
    (name : list byte) :
  unpack_entry char_signed junk archive position w = Ok s ->
  files (step_world s) !! name ≠ files w !! name ->
  (1 <= length name <= 12)%nat ∧ Forall legal_filename_byte name.
Proof.
  unfold unpack_entry. intros H Hchanged.
  destruct (read_entry char_signed archive position w)
    as [s'|filename cs us level q cd w1] eqn:Hentry.
  - simplify_eq. apply read_entry_stop_files in Hentry.
    by rewrite Hentry in Hchanged.
  - apply read_entry_filename in Hentry as (Hlen & Hlegal & ->).
    destruct (decide (name = filename)) as [->|Hne]; [done|].
    destruct Hchanged.
    by rewrite (extract_files _ _ _ _ _ _ _ _ _ _ _ name H Hne).
Qed.

Lemma unpack_loop_files (char_signed : bool) (junk : nat -> byte)
    (archive : list byte) (fuel : nat) (position : nat) (w w' : world)
    (status : Z) (name : list byte) :
  unpack_loop fuel char_signed junk archive position w = Ok (status, w') ->
  files w' !! name ≠ files w !! name ->
  (1 <= length name <= 12)%nat ∧ Forall legal_filename_byte name.
Proof.
  revert position w. induction fuel as [|fuel IH]; intros position w H Hchanged;
    [done|].
  rewrite unpack_loop_step in H.
  destruct (unpack_entry char_signed junk archive position w)
    as [s| |] eqn:Hentry; try done.
  cbn [exec_bind] in H.
  destruct (decide (files (step_world s) !! name = files w !! name))
    as [Hsame|Hdiff].
  - destruct s as [status' w1|w1|stream w1]; simpl in *.
    + injection H as <- <-. by destruct Hchanged.
    + injection H as <- <-. by destruct Hchanged.
    + apply (IH stream w1); [done|]. by rewrite Hsame.
  - by apply (unpack_entry_files _ _ _ _ _ _ _ Hentry).
Qed.

(** X10. [unpack] creates or overwrites only files whose names passed
    its check: whatever the archive holds, a name under which the output
    folder differs after [unpack] from what it was before has 1 to 12
    bytes, all of them legal, so it holds no zero byte, no ['/'] and no
    backslash. *)
Theorem unpack_writes_legal_names_only (char_signed : bool)
    (junk : nat -> byte) (archive : list byte)
    (folder : gmap (list byte) (list byte)) (status : Z) (w : world)
    (name : list byte) :
  unpack char_signed junk archive folder = Ok (status, w) ->
  files w !! name ≠ folder !! name ->
  (1 <= length name <= 12)%nat
  ∧ Forall legal_filename_byte name
  ∧ (x00 ∉ name) ∧ (x2f ∉ name) ∧ (x5c ∉ name).
Proof.
  unfold unpack. intros H Hchanged.
  destruct (unpack_loop_files _ _ _ _ _ _ _ _ name H Hchanged) as [Hlen Hlegal].
  split; [done|]. split; [done|].
  rewrite Forall_forall in Hlegal.
  repeat split; intros Hin; apply Hlegal in Hin;
    unfold legal_filename_byte in Hin; vm_compute in Hin;
    repeat destruct Hin as [Hin|Hin]; try discriminate;
    destruct Hin as [H1 H2]; auto.
Qed.

Lemma unpack_writes_legal_names_only_witness :
  (1 <= length [x41] <= 12)%nat
  ∧ Forall legal_filename_byte [x41]
  ∧ (x00 ∉ [x41]) ∧ (x2f ∉ [x41]) ∧ (x5c ∉ [x41]).
Proof.
  apply (unpack_writes_legal_names_only true (fun _ => x00)
           [x41; x00; x01; x00; x00; x00; x01; x00; x00; x00; x00; x58; x00]
           ∅ EXIT_SUCCESS
           (World {[ [x41] := [x58] ]} [Extracting [x41]]) [x41]).
  - vm_compute. reflexivity.
  - vm_compute. discriminate.
Defined.

(** ** Signedness of plain [char] *)

Lemma filename_loop_char (last i : nat) (rest : list byte) :
  filename_loop true last i rest = filename_loop false last i rest.
Proof.
  revert i. induction rest as [|c rest IH]; intros i; [done|].
  cbn [filename_loop].
  rewrite !char_val_zero, !valid_filename_character_char. by rewrite IH.
Qed.

Lemma check_filename_char (window : list byte) :
  check_filename true window = check_filename false window.
Proof. unfold check_filename, filename_ok. by rewrite filename_loop_char. Qed.

Lemma extract_char (junk : nat -> byte)
    (filename : list byte) (compressed_size uncompressed_size : nat)
    (compression_level : Z) (compressed_data : list byte)
    (position stream : nat) (w : world) :
  extract true junk filename compressed_size uncompressed_size
          compression_level compressed_data position stream w
  = extract false junk filename compressed_size uncompressed_size
            compression_level compressed_data position stream w.
Proof.
  unfold extract.
  destruct (compression_level =? 0); [done|].
  destruct (compression_level =? 1); [done|].
  destruct (1 <? compression_level); [|done].
  pose proof (offset_bits_of_range compression_level) as Hrange.
  destruct (Z.ltb_spec 8 (offset_bits_of compression_level)) as [|Hle]; [done|].
  rewrite !(win_decode_ref _ (offset_bits_of compression_level))
    by (lia || by rewrite length_malloc).
  done.
Qed.

(** X11. Whether plain [char] is signed matters for the level byte and
    for nothing else: the verdict on a filename window is the same, the
    decoder of a supported level above 1 gives the same result, an entry
    is extracted in the same way once its level is given, and an
    iteration of the loop of [unpack] either does the same on both kinds
    of platform or has read an entry whose level byte is 0x80 or more,
    which is a negative level where [char] is signed and that level plus
    256 where it is not. *)
Theorem char_signedness_matters_for_the_level_only (junk : nat -> byte) :
  (forall window : list byte,
     check_filename true window = check_filename false window)
  ∧ (forall (offset_bits : Z) (compressed_data buffer window : list byte),
       0 <= offset_bits <= 8 ->
       length window = Z.to_nat (max_offset_of offset_bits) ->
       win_decode true offset_bits compressed_data buffer window
       = win_decode false offset_bits compressed_data buffer window)
  ∧ (forall (filename : list byte) (compressed_size uncompressed_size : nat)
            (compression_level : Z) (compressed_data : list byte)
            (position stream : nat) (w : world),
       extract true junk filename compressed_size uncompressed_size
               compression_level compressed_data position stream w
       = extract false junk filename compressed_size uncompressed_size
                 compression_level compressed_data position stream w)
  ∧ (forall (archive : list byte) (position : nat) (w : world),
       unpack_entry true junk archive position w
       = unpack_entry false junk archive position w
       ∨ exists (filename : list byte) (compressed_size uncompressed_size : nat)
                (compression_level : Z) (payload_position : nat)
                (compressed_data : list byte) (w1 : world),
           read_entry true archive position w
           = Entry filename compressed_size uncompressed_size
                   compression_level payload_position compressed_data w1
           ∧ compression_level < 0
           ∧ read_entry false archive position w
             = Entry filename compressed_size uncompressed_size
                     (compression_level + 256) payload_position
                     compressed_data w1).
Proof.
  split; [exact check_filename_char|]. split; [|split; [apply extract_char|]].
  - intros offset_bits compressed_data buffer window Hsupported Hwindow.
    by rewrite !(win_decode_ref _ offset_bits) by done.
  - intros archive position w. unfold unpack_entry, read_entry.
    rewrite check_filename_char.
    destruct (check_filename false _); try (by left).
    destruct (read_uint archive _) as [cs|]; [|by left].
    destruct (read_uint archive _) as [us|]; [|by left].
    destruct (archive !! _) as [level|]; [|by left].
    destruct (decide _); [by left|].
    unfold char_val. cbn [andb].
    destruct (Z.leb_spec 128 (byte_val level)) as [Hhigh|Hlow].
    + right. eexists _, _, _, _, _, _, _. split; [reflexivity|].
      pose proof (byte_val_range level). split; [lia|].
      do 2 f_equal. lia.
    + left. apply extract_char.
Qed.

(** ** Back-references *)

Lemma advance_range (max_offset cursor : Z) :
  0 <= cursor <= max_offset ->
  0 <= advance max_offset cursor <= max_offset
  ∧ advance max_offset cursor <= cursor + 1.
Proof. unfold advance. destruct (Z.ltb_spec cursor max_offset); lia. Qed.

(** Once the first byte of a run has passed the check of line 306, the
    check cannot fail for the bytes that follow: the offset and the
    number of bytes produced grow together. *)
Lemma copy_run_no_escape (max_offset : Z) (left : nat) (offset : Z)
    (st st' : win_state) (m : escape_message) :
  0 <= offset <= max_offset -> max_offset < 2 ^ 32 ->
  offset < Z.of_nat (uncompressed_pointer st) ->
  copy_run max_offset left offset st ≠ Ok (Escape m st').
Proof.
  revert offset st. induction left as [|left IH]; intros offset st Ho Hmax Hup;
    [done|].
  cbn [copy_run]. unfold to_uint. rewrite (Z.mod_small offset) by lia.
  rewrite (proj2 (Z.ltb_ge _ _)) by lia.
  rewrite (proj2 (Z.leb_gt _ _)) by lia. cbn [orb].
  destruct (load_at _ _) as [b| |]; try done. cbn [exec_bind].
  destruct (store_at _ _ _) as [window| |]; try done. cbn [exec_bind].
  destruct (store _ _ _) as [data| |]; try done. cbn [exec_bind].
  pose proof (advance_range max_offset offset Ho).
  apply IH; [lia|done|]. cbn [uncompressed_pointer]. lia.
Qed.

Lemma copy_run_escape (max_offset : Z) (left : nat) (offset : Z)
    (st st' : win_state) (m : escape_message) :
  0 <= offset -> 0 <= max_offset < 2 ^ 32 ->
  copy_run max_offset left offset st = Ok (Escape m st') ->
  m = InvalidOffset ∧ st' = st.
Proof.
  intros Ho Hmax. destruct left as [|left]; [done|].
  cbn [copy_run].
  destruct (Z.ltb_spec max_offset offset) as [Hgt|Hle]; cbn [orb].
  { intros H. by simplify_eq. }
  unfold to_uint. rewrite (Z.mod_small offset) by lia.
  destruct (Z.leb_spec (Z.of_nat (uncompressed_pointer st)) offset)
    as [Hge|Hup].
  { intros H. by simplify_eq. }
  destruct (load_at _ _) as [b| |]; try done. cbn [exec_bind].
  destruct (store_at _ _ _) as [window| |]; try done. cbn [exec_bind].
  destruct (store _ _ _) as [data| |]; try done. cbn [exec_bind].
  intros H. exfalso. revert H.
  pose proof (advance_range max_offset offset (conj Ho Hle)).
  apply copy_run_no_escape; [lia|lia|]. cbn [uncompressed_pointer]. lia.
Qed.

Lemma literal_no_escape (offset_bits : Z) (compressed_data : list byte)
    (st st' : win_state) (m : escape_message) :
  literal offset_bits compressed_data st ≠ Ok (Escape m st').
Proof.
  unfold literal.
  destruct (load _ _) as [b| |]; try done. cbn [exec_bind].
  destruct (store _ _ _) as [data| |]; try done. cbn [exec_bind].
  destruct (store_at _ _ _) as [window| |]; done.
Qed.

Lemma back_reference_escape (char_signed : bool) (offset_bits : Z)
    (compressed_data : list byte) (st st' : win_state) (m : escape_message) :
  0 <= offset_bits <= 8 ->
  back_reference char_signed offset_bits compressed_data st
  = Ok (Escape m st') ->
  m = InvalidOffset
  ∧ st' = WinState (S (S (compressed_pointer st))) (uncompressed_data st)
            (uncompressed_pointer st) (sliding_window st) (sliding_offset st).
Proof.
  intros Hsupported. unfold back_reference.
  destruct (load _ _) as [c1| |]; try done. cbn [exec_bind].
  destruct (load _ _) as [c2| |]; try done. cbn [exec_bind].
  rewrite decode_token_bits by done.
  destruct (token_within_limits offset_bits c1 c2 Hsupported) as [Ho Hr].
  pose proof (max_offset_of_range offset_bits Hsupported) as Hmax.
  destruct (Z.ltb_spec (token_offset offset_bits c1 c2) 0) as [Hneg|Hpos].
  { intros H. by simplify_eq. }
  rewrite (proj2 (Z.ltb_ge _ _)) by lia.
  intros H. apply copy_run_escape in H; [done|lia|lia].
Qed.

(** X12. At a supported level a back-reference is rejected before it
    copies anything: when the token makes the decoder escape, the message
    is the one for an invalid offset, the two bytes of the token have
    been read, and the output buffer, the number of bytes produced, the
    window and its cursor are what they were before the token. The check
    of line 306 can only fail for the first byte of a run. *)
Theorem rejected_back_reference_writes_nothing (char_signed : bool)
    (offset_bits : Z) (compressed_data : list byte) (st st' : win_state)
    (m : escape_message) :
  0 <= offset_bits <= 8 ->
  back_reference char_signed offset_bits compressed_data st
  = Ok (Escape m st') ->
  m = InvalidOffset
  ∧ compressed_pointer st' = S (S (compressed_pointer st))
  ∧ uncompressed_data st' = uncompressed_data st
  ∧ uncompressed_pointer st' = uncompressed_pointer st
  ∧ sliding_window st' = sliding_window st
  ∧ sliding_offset st' = sliding_offset st.
Proof.
  intros Hsupported H.
  apply back_reference_escape in H as [-> ->]; done.
Qed.

Lemma rejected_back_reference_writes_nothing_witness :
  let st := WinState 1 [x58; x00; x00] 1 (x58 :: replicate 4094 x00) 1 in
  back_reference true 4 [x01; x05; x10] st
  = Ok (Escape InvalidOffset
          (WinState 3 [x58; x00; x00] 1 (x58 :: replicate 4094 x00) 1))
  ∧ uncompressed_data
      (WinState 3 [x58; x00; x00] 1 (x58 :: replicate 4094 x00) 1)
    = uncompressed_data st.
Proof.
  intros st.
  assert (H : back_reference true 4 [x01; x05; x10] st
              = Ok (Escape InvalidOffset
                      (WinState 3 [x58; x00; x00] 1
                         (x58 :: replicate 4094 x00) 1)))
    by (vm_compute; reflexivity).
  split; [exact H|].
  apply (rejected_back_reference_writes_nothing true 4 [x01; x05; x10] st
           _ InvalidOffset); [lia|exact H].
Defined.

(** X13. What a back-reference copies. At a supported level, with the
    output produced so far at the start of the output buffer and of the
    window, a run of [left] bytes from an offset below the number of
    bytes produced, with room for the run in both buffers, ends without
    an escape and appends [left] bytes to the output: the byte of rank
    [k] of the run is the byte at index [offset + k] of the output,
    counted from its start and with the run itself included, so a run may
    overlap what it writes. When [offset + left] does not exceed the
    bytes produced before the run, the run is that slice of the
    output. *)
Theorem back_reference_copies_from_the_output (offset_bits : Z)
    (compressed_data buffer window payload out : list byte)
    (left : nat) (offset : Z) :
  0 <= offset_bits <= 8 ->
  length window = Z.to_nat (max_offset_of offset_bits) ->
  0 <= offset < Z.of_nat (length out) ->
  (length out + left <= length buffer)%nat ->
  (length out + left <= length window)%nat ->
  exists run : list byte,
    copy_run (max_offset_of offset_bits) left offset
      (win_abs compressed_data payload out buffer window)
    = Ok (Next (win_abs compressed_data payload (out ++ run) buffer window))
    ∧ length run = left
    ∧ (forall k : nat, (k < left)%nat ->
         run !! k = (out ++ run) !! (Z.to_nat offset + k)%nat)
    ∧ ((Z.to_nat offset + left <= length out)%nat ->
       run = take left (drop (Z.to_nat offset) out)).
Proof.
  intros Hsupported Hwindow Ho Hbuffer Hroom.
  pose proof (max_offset_of_range offset_bits Hsupported) as Hmax.
  destruct (ref_copy_run (max_offset_of offset_bits) left offset out)
    as (run & Hcopy & Hlen & Hrun); [done|lia|].
  exists run.
  rewrite (copy_run_ref offset_bits compressed_data buffer window)
    by (done || lia || unfold win_limit; lia).
  rewrite Hcopy. cbn [fst snd].
  rewrite decide_True by (unfold win_limit; rewrite length_app; lia).
  split; [done|]. split; [done|]. split; [done|].
  intros Hinside. apply list_eq. intros k.
  destruct (decide (k < left)%nat) as [Hk|Hk].
  - rewrite Hrun by done.
    rewrite lookup_app_l by lia.
    rewrite lookup_take_lt by done. by rewrite lookup_drop.
  - rewrite lookup_ge_None_2 by lia.
    symmetry. apply lookup_ge_None_2. rewrite length_take, length_drop. lia.
Qed.

Lemma back_reference_copies_from_the_output_witness :
  let junk := fun _ : nat => x00 in
  exists run : list byte,
    copy_run (max_offset_of 4) 5 1
      (win_abs [] [] [x58; x59; x5a] (malloc junk 8) (malloc junk 4095))
    = Ok (Next (win_abs [] [] ([x58; x59; x5a] ++ run) (malloc junk 8)
                  (malloc junk 4095)))
    ∧ length run = 5%nat
    ∧ run !! 0%nat = Some x59 ∧ run !! 2%nat = Some x59.
Proof.
  intros junk.
  destruct (back_reference_copies_from_the_output 4 [] (malloc junk 8)
              (malloc junk 4095) [] [x58; x59; x5a] 5 1)
    as (run & Hcopy & Hlen & Hrun & _).
  - lia.
  - vm_compute. reflexivity.
  - simpl. lia.
  - rewrite length_malloc. simpl. lia.
  - rewrite length_malloc. simpl. lia.
  - exists run. split; [exact Hcopy|]. split; [exact Hlen|].
    pose proof (Hrun 0%nat ltac:(lia)) as H0.
    pose proof (Hrun 1%nat ltac:(lia)) as H1.
    pose proof (Hrun 2%nat ltac:(lia)) as H2.
    simpl in H0, H1, H2. split; [exact H0|].
    rewrite H2. exact H0.
Defined.

(** ** Messages that are never printed *)

Lemma token_loop_escape (char_signed : bool) (offset_bits : Z)
    (compressed_data : list byte) (flag : Z) (left : nat) (bit : Z)
    (st st' : win_state) (m : escape_message) :
  0 <= offset_bits <= 8 ->
  token_loop char_signed offset_bits compressed_data flag left bit st
  = Ok (Escape m st') ->
  m = InvalidOffset.
Proof.
  intros Hsupported. revert bit st.
  induction left as [|left IH]; intros bit st; [done|].
  cbn [token_loop].
  destruct (bit_is_set flag bit).
  - pose proof (literal_no_escape offset_bits compressed_data st) as Hlit.
    destruct (literal _ _ _) as [[st1|m1 st1]| |]; try done; cbn [exec_bind].
    + destruct (decide _); [done|]. apply IH.
    + by destruct (Hlit st1 m1).
  - destruct (back_reference _ _ _ _) as [[st1|m1 st1]| |] eqn:Hback;
      try done; cbn [exec_bind].
    + destruct (decide _); [done|]. apply IH.
    + apply back_reference_escape in Hback as [-> _]; [|done].
      intros H. by simplify_eq.
Qed.

Lemma win_loop_escape (fuel : nat) (char_signed : bool) (offset_bits : Z)
    (compressed_data : list byte) (st st' : win_state) (m : escape_message) :
  0 <= offset_bits <= 8 ->
  win_loop fuel char_signed offset_bits compressed_data st
  = Ok (Escape m st') ->
  m = InvalidOffset.
Proof.
  intros Hsupported. revert st.
  induction fuel as [|fuel IH]; intros st; cbn [win_loop];
    (destruct (decide _); [|done]); [done|].
  unfold win_group.
  destruct (load _ _) as [c| |]; try done. cbn [exec_bind].
  destruct (token_loop _ _ _ _ _ _ _) as [[st1|m1 st1]| |] eqn:Htokens;
    try done; cbn [exec_bind].
  - apply IH.
  - apply token_loop_escape in Htokens as ->; [|done].
    intros H. by simplify_eq.
Qed.

Lemma extract_no_run_length_line (char_signed : bool) (junk : nat -> byte)
    (filename : list byte) (compressed_size uncompressed_size : nat)
    (compression_level : Z) (compressed_data : list byte)
    (position stream : nat) (w : world) (s : step) (name : list byte) :
  extract char_signed junk filename compressed_size uncompressed_size
          compression_level compressed_data position stream w = Ok s ->
  InvalidRunLengthDuringDecompression name ∉ printed w ->
  InvalidRunLengthDuringDecompression name ∉ printed (step_world s).
Proof.
  unfold extract. intros H Hw.
  assert (Hsay : forall m w0, m ≠ InvalidRunLengthDuringDecompression name ->
    InvalidRunLengthDuringDecompression name ∉ printed w0 ->
    InvalidRunLengthDuringDecompression name ∉ printed (say m w0)).
  { intros m w0 Hm Hw0. simpl. apply not_elem_of_cons. split; done. }
  destruct (compression_level =? 0).
  { simplify_eq. simpl. destruct (decide _); [|done]. by apply Hsay. }
  destruct (compression_level =? 1).
  { destruct (rle_decode _ _) as [st| |]; try done. cbn [exec_bind] in H.
    destruct (decide (uncompressed_size = 0%nat)); simplify_eq; simpl;
      repeat (apply not_elem_of_cons; split; [done|]);
      destruct (decide _); try done; by apply Hsay. }
  destruct (1 <? compression_level); [|by simplify_eq].
  pose proof (offset_bits_of_range compression_level) as Hrange.
  destruct (Z.ltb_spec 8 (offset_bits_of compression_level)) as [Hun|Hsup].
  { simplify_eq. by apply Hsay. }
  destruct (win_decode _ _ _ _ _) as [[st|m st]| |] eqn:Hdecode; try done;
    cbn [exec_bind] in H; simplify_eq; simpl.
  - destruct (decide _); [|done]. by apply Hsay.
  - apply win_loop_escape in Hdecode as ->; [|lia].
    destruct (decide _); [apply Hsay; [done|]|]; by apply Hsay.
Qed.

Lemma read_entry_no_run_length_line (char_signed : bool) (archive : list byte)
    (position : nat) (w : world) (name : list byte) :
  InvalidRunLengthDuringDecompression name ∉ printed w ->
  match read_entry char_signed archive position w with
  | Stop s => InvalidRunLengthDuringDecompression name ∉ printed (step_world s)
  | Entry _ _ _ _ _ _ w1 =>
      InvalidRunLengthDuringDecompression name ∉ printed w1
  end.
Proof.
  intros Hw. unfold read_entry.
  destruct (check_filename _ _); simpl; try done;
    try (by apply not_elem_of_cons).
  all: repeat match goal with
  | |- context [match ?o with Some _ => _ | None => _ end] => destruct o
  | |- context [if ?b then _ else _] => destruct b
  end; simpl; repeat (apply not_elem_of_cons; split; [done|]); done.
Qed.

Lemma unpack_loop_no_run_length_line (char_signed : bool) (junk : nat -> byte)
    (archive : list byte) (fuel : nat) (position : nat) (w w' : world)
    (status : Z) (name : list byte) :
  unpack_loop fuel char_signed junk archive position w = Ok (status, w') ->
  InvalidRunLengthDuringDecompression name ∉ printed w ->
  InvalidRunLengthDuringDecompression name ∉ printed w'.
Proof.
  revert position w. induction fuel as [|fuel IH]; intros position w H Hw;
    [done|].
  rewrite unpack_loop_step in H. unfold unpack_entry in H.
  pose proof (read_entry_no_run_length_line char_signed archive position w
                name Hw) as Hread.
  destruct (read_entry char_signed archive position w)
    as [s|filename cs us level q cd w1].
  - cbn [exec_bind] in H.
    destruct s as [status' w1|w1|stream w1]; simpl in *.
    + by injection H as <- <-.
    + by injection H as <- <-.
    + by apply (IH stream w1).
  - destruct (extract _ _ _ _ _ _ _ _ _ _) as [s| |] eqn:Hextract; try done.
    cbn [exec_bind] in H.
    pose proof (extract_no_run_length_line _ _ _ _ _ _ _ _ _ _ _ name
                  Hextract Hread) as Hs.
    destruct s as [status' w2|w2|stream w2]; simpl in *.
    + by injection H as <- <-.
    + by injection H as <- <-.
    + by apply (IH stream w2).
Qed.

(** X14. The check of the run length, line 297, never fails: at a
    supported level a token's run length is below [max_run_length], so
    the only message with which the decoder escapes is the one for an
    invalid offset, and the line "has invalid run length during
    decompression" is not among those that [unpack] has printed when it
    returns, whatever the archive. *)
Theorem invalid_run_length_never_reported (char_signed : bool)
    (junk : nat -> byte) :
  (forall (offset_bits : Z) (compressed_data buffer window : list byte)
          (m : escape_message) (st : win_state),
     0 <= offset_bits <= 8 ->
     win_decode char_signed offset_bits compressed_data buffer window
     = Ok (Escape m st) ->
     m = InvalidOffset)
  ∧ (forall (archive : list byte) (folder : gmap (list byte) (list byte))
            (status : Z) (w : world) (name : list byte),
       unpack char_signed junk archive folder = Ok (status, w) ->
       InvalidRunLengthDuringDecompression name ∉ printed w).
Proof.
  split.
  - intros offset_bits compressed_data buffer window m st Hsupported H.
    by apply win_loop_escape in H.
  - intros archive folder status w name H.
    apply (unpack_loop_no_run_length_line _ _ _ _ _ _ _ _ name H).
    simpl. apply not_elem_of_nil.
Qed.

Lemma invalid_run_length_never_reported_witness :
  InvalidOffset = InvalidOffset
  ∧ InvalidRunLengthDuringDecompression [x41]
    ∉ [DoesNotMatchExpectedSize [x41];
       InvalidOffsetDuringDecompression [x41]; Extracting [x41]].
Proof.
  destruct (invalid_run_length_never_reported true (fun _ => xee))
    as [Hdecode Hunpack].
  split.
  - apply (Hdecode 3 [x00; x00; x00] (malloc (fun _ => xee) 4)
             (malloc (fun _ => xee) 2047) InvalidOffset
             (WinState 3 (malloc (fun _ => xee) 4) 0
                (malloc (fun _ => xee) 2047) 0)); [lia|].
    vm_compute. reflexivity.
  - apply (Hunpack [x41; x00; x03; x00; x00; x00; x04; x00; x00; x00; x03;
                    x00; x00; x00; x00] ∅ EXIT_SUCCESS
             (World {[ [x41] := [xee; xee; xee; xee] ]}
                [DoesNotMatchExpectedSize [x41];
                 InvalidOffsetDuringDecompression [x41]; Extracting [x41]])
             [x41]).
    vm_compute. reflexivity.
Defined.

(** ** What a run within the buffers leaves *)

Lemma win_decode_ok (char_signed : bool) (offset_bits : Z)
    (compressed_data buffer window : list byte) (r : signal) :
  0 <= offset_bits <= 8 ->
  length window = Z.to_nat (max_offset_of offset_bits) ->
  win_decode char_signed offset_bits compressed_data buffer window = Ok r ->
  exists payload out : list byte,
    signal_state r = win_abs compressed_data payload out buffer window
    ∧ (length out <= length buffer)%nat
    ∧ (length out <= length window)%nat.
Proof.
  intros Hsupported Hwindow.
  rewrite (win_decode_ref char_signed offset_bits compressed_data buffer window)
    by done.
  unfold ref_exec. destruct (decide _) as [Hfits|]; [|done].
  unfold ref_fits, win_limit in Hfits.
  destruct (win_reference offset_bits compressed_data)
    as [payload out|m payload out|]; simpl in *; [| |done];
    intros H; simplify_eq; exists payload, out; (split; [done|lia]).
Qed.

(** X15. The window bounds what an entry can hold. A run of the decoder
    of a supported level that stays within its buffers, to the end of the
    payload or to an escape, has produced no more bytes than the output
    buffer has and no more than [max_offset] (255 at level 6, 4095 at
    level 2), and the cursor of the window is then the number of bytes
    produced: the window, of [max_offset] bytes, is written at the index
    of each byte produced and the cursor has not yet gone back to 0. An
    entry that decodes to more than [max_offset] bytes makes the decoder
    write outside the window. *)
Theorem window_capacity_bounds_output (char_signed : bool) (offset_bits : Z)
    (compressed_data buffer window : list byte) (r : signal) :
  0 <= offset_bits <= 8 ->
  length window = Z.to_nat (max_offset_of offset_bits) ->
  win_decode char_signed offset_bits compressed_data buffer window = Ok r ->
  (uncompressed_pointer (signal_state r) <= length buffer)%nat
  ∧ Z.of_nat (uncompressed_pointer (signal_state r)) <= max_offset_of offset_bits
  ∧ sliding_offset (signal_state r)
    = Z.of_nat (uncompressed_pointer (signal_state r)).
Proof.
  intros Hsupported Hwindow H.
  pose proof (max_offset_of_range offset_bits Hsupported).
  apply win_decode_ok in H as (payload & out & -> & Hb & Hw); [|done..].
  simpl. repeat split; lia.
Qed.

Lemma window_capacity_bounds_output_witness :
  let junk := fun _ : nat => x00 in
  let r := Next (WinState 6 [x58; x59; x5a; x58; x59; x5a] 6
                   ([x58; x59; x5a; x58; x59; x5a] ++ drop 6 (malloc junk 4095))
                   6) in
  (uncompressed_pointer (signal_state r) <= length (malloc junk 6))%nat
  ∧ Z.of_nat (uncompressed_pointer (signal_state r)) <= max_offset_of 4
  ∧ sliding_offset (signal_state r)
    = Z.of_nat (uncompressed_pointer (signal_state r)).
Proof.
  intros junk r.
  apply (window_capacity_bounds_output true 4
           [x07; x58; x59; x5a; x01; x10] (malloc junk 6) (malloc junk 4095) r).
  - lia.
  - vm_compute. reflexivity.
  - vm_compute. reflexivity.
Defined.

Lemma lookup_malloc (junk : nat -> byte) (size i : nat) :
  (i < size)%nat -> malloc junk size !! i = Some (junk i).
Proof.
  intros H. unfold malloc. rewrite list_lookup_fmap.
  by rewrite lookup_seq_lt.
Qed.

Lemma lookup_unwritten (junk : nat -> byte) (out : list byte) (size i : nat) :
  (length out <= i < size)%nat ->
  (out ++ drop (length out) (malloc junk size)) !! i = Some (junk i).
Proof.
  intros H. rewrite lookup_app_r by lia. rewrite lookup_drop.
  rewrite lookup_malloc by lia. f_equal. f_equal. lia.
Qed.

Lemma length_unwritten (out buffer : list byte) :
  (length out <= length buffer)%nat ->
  length (out ++ drop (length out) buffer) = length buffer.
Proof. intros H. rewrite length_app, length_drop. lia. Qed.

(** X16. What was not decoded is written all the same. When the decoder
    of level 1, or of a supported level above 1, stops within its buffers
    after fewer bytes than [uncompressed_size] (a short payload, or an
    escape), the output buffer still has [uncompressed_size] bytes, and
    from the number of bytes produced on they are what [malloc] returned.
    At a supported level above 1, when the entry's file opens, the
    iteration writes the whole buffer to it, so the file ends with that
    uninitialised memory. *)
Theorem undecoded_tail_is_uninitialised (junk : nat -> byte) :
  (forall (payload : list byte) (uncompressed_size : nat) (st : rle_state),
     rle_decode payload (malloc junk uncompressed_size) = Ok st ->
     length (rle_uncompressed_data st) = uncompressed_size
     ∧ (rle_uncompressed_pointer st <= uncompressed_size)%nat
     ∧ forall i : nat,
         (rle_uncompressed_pointer st <= i < uncompressed_size)%nat ->
         rle_uncompressed_data st !! i = Some (junk i))
  ∧ (forall (char_signed : bool) (offset_bits : Z)
            (payload window : list byte) (uncompressed_size : nat)
            (r : signal),
       0 <= offset_bits <= 8 ->
       length window = Z.to_nat (max_offset_of offset_bits) ->
       win_decode char_signed offset_bits payload
                  (malloc junk uncompressed_size) window = Ok r ->
       length (uncompressed_data (signal_state r)) = uncompressed_size
       ∧ (uncompressed_pointer (signal_state r) <= uncompressed_size)%nat
       ∧ forall i : nat,
           (uncompressed_pointer (signal_state r) <= i < uncompressed_size)%nat ->
           uncompressed_data (signal_state r) !! i = Some (junk i))
  ∧ (forall (writable : list byte -> bool) (char_signed : bool)
            (filename : list byte) (compressed_size uncompressed_size : nat)
            (compression_level : Z) (compressed_data : list byte)
            (position stream : nat) (w : world) (r : signal),
       1 < compression_level ->
       offset_bits_of compression_level <= 8 ->
       win_decode char_signed (offset_bits_of compression_level)
         compressed_data (malloc junk uncompressed_size)
         (malloc junk
            (Z.to_nat (max_offset_of (offset_bits_of compression_level))))
       = Ok r ->
       fopen_wb writable filename = true ->
       exists (w' : world) (allocated : list block),
         run_extract writable char_signed junk filename compressed_size
           uncompressed_size compression_level compressed_data position
           stream w
         = Done (Continue (position + compressed_size) w', allocated)
         ∧ files w' !! filename = Some (uncompressed_data (signal_state r))).
Proof.
  split; [|split].
  - intros payload us st H.
    destruct (rle_decode_ok _ _ _ H) as (decoded & Hgroups & Hroom).
    rewrite (rle_decode_groups payload decoded) in H by done.
    rewrite length_malloc in Hroom.
    injection H as <-. simpl.
    split; [by rewrite length_unwritten; rewrite length_malloc|].
    split; [done|]. intros i Hi. by apply lookup_unwritten.
  - intros char_signed offset_bits payload window us r Hsupported Hwindow H.
    apply win_decode_ok in H as (rest & out & -> & Hb & _); [|done..].
    rewrite length_malloc in Hb. simpl.
    split; [by rewrite length_unwritten; rewrite length_malloc|].
    split; [done|]. intros i Hi. by apply lookup_unwritten.
  - intros writable char_signed filename cs us level cd position stream w r
           Hlevel Hsupported Hdecode Hopen.
    rewrite (run_extract_window writable char_signed junk filename cs us
               level cd position stream w r Hlevel Hsupported Hdecode).
    rewrite Hopen. eexists _, _. split; [reflexivity|].
    simpl. by rewrite lookup_insert_eq.
Qed.

Lemma undecoded_tail_is_uninitialised_witness :
  let junk := fun i : nat => byte_of_Z (Z.of_nat i + 160) in
  let st := RleState 2 [x41; xa1; xa2] 1 in
  rle_decode [x00; x41] (malloc junk 3) = Ok st
  ∧ rle_uncompressed_data st !! 1%nat = Some (junk 1%nat)
  ∧ rle_uncompressed_data st !! 2%nat = Some (junk 2%nat).
Proof.
  intros junk st.
  assert (H : rle_decode [x00; x41] (malloc junk 3) = Ok st)
    by (vm_compute; reflexivity).
  split; [exact H|].
  destruct (undecoded_tail_is_uninitialised junk) as [Hrle _].
  destruct (Hrle [x00; x41] 3%nat st H) as (_ & _ & Htail).
  split; apply Htail; simpl; lia.
Defined.

(** ** Strings in their blocks *)

Lemma write_bytes_over (front old : list byte) (bytes : list byte) :
  (length bytes <= length old)%nat ->
  write_bytes (front ++ old) (length front) bytes
  = Ok (front ++ bytes ++ drop (length bytes) old).
Proof.
  revert front old. induction bytes as [|b bytes IH]; intros front old Hlen.
  { by rewrite drop_0. }
  destruct old as [|o old]; [simpl in Hlen; lia|].
  cbn [write_bytes]. rewrite store_app. cbn [exec_bind].
  replace (S (length front)) with (length (front ++ [b]))
    by (rewrite length_app; simpl; lia).
  rewrite IH by (simpl in Hlen; lia).
  by rewrite <- !app_assoc.
Qed.

Lemma c_string_zero (name tail : list byte) :
  x00 ∉ name -> c_string (name ++ x00 :: tail) = name.
Proof.
  induction name as [|c name IH]; intros H; cbn [app c_string].
  - by rewrite decide_True.
  - apply not_elem_of_cons in H as [Hc H].
    rewrite decide_False by done. by rewrite IH.
Qed.

Lemma zero_in_string (name tail : list byte) : x00 ∈ name ++ x00 :: tail.
Proof. apply elem_of_app. right. by left. Qed.

Lemma memcpy_whole (dest : list byte) (index : nat) (src : list byte)
    (n : nat) :
  n = length src -> memcpy dest index src n = write_bytes dest index src.
Proof.
  intros ->. unfold memcpy. rewrite decide_True by done.
  by rewrite firstn_all.
Qed.

(** X17. The metadata of an entry fills its block: the [strcpy], the two
    [memcpy] and the store of lines 444-447 stay within the
    [strlen(d_name) + 10] bytes of the block and write every one of them,
    so what [pack] then writes to the archive is the name, a zero byte,
    the size twice and a zero byte, with nothing left of what [malloc]
    returned. *)
Theorem metadata_block_is_filled (junk : nat -> byte)
    (name rest : list byte) (file_size : Z) :
  x00 ∉ name ->
  metadata_block junk (name ++ x00 :: rest) file_size
  = Ok (metadata name file_size)
  ∧ length (metadata name file_size)
    = (strlen (name ++ x00 :: rest) + 10)%nat.
Proof.
  intros Hname. unfold metadata_block, strlen.
  rewrite c_string_zero by done.
  set (size := file_size_bytes file_size).
  assert (Hsize : length size = 4%nat) by done.
  split.
  2: { unfold metadata. fold size. rewrite !length_app, Hsize. simpl. lia. }
  unfold strcpy. rewrite decide_True by apply zero_in_string.
  rewrite c_string_zero by done.
  pose proof (write_bytes_over [] (malloc junk (length name + 10))
                (name ++ [x00])) as H0.
  cbn [app length] in H0. rewrite H0
    by (rewrite length_malloc, length_app; simpl; lia).
  cbn [exec_bind]. clear H0.
  set (fresh := malloc junk (length name + 10)).
  assert (Hfresh : length fresh = (length name + 10)%nat)
    by apply length_malloc.
  rewrite memcpy_whole by done.
  replace (length name + 10 - 9)%nat with (length (name ++ [x00]))
    by (rewrite length_app; simpl; lia).
  rewrite write_bytes_over
    by (rewrite length_drop, Hfresh, Hsize, length_app; simpl; lia).
  cbn [exec_bind]. rewrite drop_drop.
  rewrite memcpy_whole by done.
  replace (length name + 10 - 5)%nat with (length ((name ++ [x00]) ++ size))
    by (rewrite !length_app, Hsize; simpl; lia).
  rewrite (app_assoc (name ++ [x00]) size).
  rewrite write_bytes_over
    by (rewrite length_drop, Hfresh, Hsize, length_app; simpl; lia).
  cbn [exec_bind]. rewrite drop_drop.
  replace (length name + 10 - 1)%nat
    with (length (((name ++ [x00]) ++ size) ++ size))
    by (rewrite !length_app, Hsize; simpl; lia).
  rewrite (app_assoc ((name ++ [x00]) ++ size) size).
  destruct (drop (length (name ++ [x00]) + length size + length size) fresh)
    as [|last rest'] eqn:Hdrop.
  { apply (f_equal length) in Hdrop. rewrite length_drop, Hfresh in Hdrop.
    rewrite length_app, Hsize in Hdrop. simpl in Hdrop. lia. }
  assert (rest' = []) as ->.
  { apply (f_equal length) in Hdrop. rewrite length_drop, Hfresh in Hdrop.
    rewrite length_app, Hsize in Hdrop. simpl in Hdrop.
    destruct rest'; [done|]. simpl in Hdrop. lia. }
  rewrite store_app. unfold metadata. fold size.
  by rewrite <- !app_assoc.
Qed.

Lemma metadata_block_is_filled_witness :
  metadata_block (fun _ => xee) ([x41] ++ x00 :: [x07; x07]) 258
  = Ok [x41; x00; x02; x01; x00; x00; x02; x01; x00; x00; x00]
  ∧ length [x41; x00; x02; x01; x00; x00; x02; x01; x00; x00; x00]
    = 11%nat.
Proof.
  apply (metadata_block_is_filled (fun _ => xee) [x41] [x07; x07] 258).
  intros H. apply list_elem_of_singleton in H. discriminate.
Defined.

(** X18. The path of a file fits its block exactly: with a folder path
    and a filename that are strings, the [strcpy] and the two [strcat]
    of lines 131-133 (and 412-414) stay within the
    [strlen(filename) + strlen(folder_path) + 2] bytes of the block and
    leave in it the folder path, ['/'], the filename and the terminator,
    which are all of its bytes. *)
Theorem file_path_fills_its_block (junk : nat -> byte)
    (folder rest1 name rest2 : list byte) :
  x00 ∉ folder -> x00 ∉ name ->
  file_path junk (folder ++ x00 :: rest1) (name ++ x00 :: rest2)
  = Ok (folder ++ [x2f] ++ name ++ [x00])
  ∧ length (folder ++ [x2f] ++ name ++ [x00])
    = (strlen (name ++ x00 :: rest2) + strlen (folder ++ x00 :: rest1) + 2)%nat.
Proof.
  intros Hfolder Hname. unfold file_path, strlen.
  rewrite !c_string_zero by done.
  split; [|rewrite !length_app; simpl; lia].
  set (fresh := malloc junk (length name + length folder + 2)).
  assert (Hfresh : length fresh = (length name + length folder + 2)%nat)
    by apply length_malloc.
  unfold strcpy. rewrite decide_True by apply zero_in_string.
  rewrite c_string_zero by done.
  pose proof (write_bytes_over [] fresh (folder ++ [x00])) as H0.
  cbn [app length] in H0.
  rewrite H0 by (rewrite Hfresh, length_app; simpl; lia).
  cbn [exec_bind]. clear H0.
  unfold strcat at 1.
  rewrite <- (app_assoc folder [x00]). cbn [app].
  rewrite decide_True by (split; [apply zero_in_string|by right; left]).
  unfold strlen. rewrite c_string_zero by done.
  change (c_string slash ++ [x00]) with [x2f; x00].
  change (folder ++ x00 :: drop (length (folder ++ [x00])) fresh)
    with (folder ++ [x00] ++ drop (length (folder ++ [x00])) fresh).
  rewrite (write_bytes_over folder)
    by (rewrite ?length_app, ?length_drop, ?length_app, ?Hfresh; cbn [length];
        lia).
  cbn [exec_bind]. rewrite drop_app_ge by (simpl; lia).
  cbn [app length Nat.sub]. rewrite drop_drop.
  unfold strcat.
  replace (folder ++ x2f :: x00 :: drop (length (folder ++ [x00]) + 1) fresh)
    with ((folder ++ [x2f]) ++ x00 :: drop (length (folder ++ [x00]) + 1) fresh)
    by (by rewrite <- app_assoc).
  rewrite decide_True by (split; apply zero_in_string).
  unfold strlen.
  rewrite (c_string_zero (folder ++ [x2f]))
    by (rewrite not_elem_of_app; split; [done|];
        rewrite list_elem_of_singleton; discriminate).
  rewrite c_string_zero by done.
  rewrite write_bytes_over
    by (cbn [length]; rewrite ?length_app, ?length_drop, ?length_app, ?Hfresh;
        cbn [length]; lia).
  rewrite drop_ge
    by (cbn [length]; rewrite ?length_app, ?length_drop, ?length_app, ?Hfresh;
        cbn [length]; lia).
  by rewrite app_nil_r, <- !app_assoc.
Qed.

Lemma file_path_fills_its_block_witness :
  file_path (fun _ => xee) ([x6f; x75; x74] ++ x00 :: [])
    ([x41] ++ x00 :: [x07])
  = Ok [x6f; x75; x74; x2f; x41; x00]
  ∧ length [x6f; x75; x74; x2f; x41; x00] = 6%nat.
Proof.
  apply (file_path_fills_its_block (fun _ => xee) [x6f; x75; x74] []
           [x41] [x07]).
  - intros H. repeat (apply elem_of_cons in H as [H|H]; [discriminate|]).
    by apply elem_of_nil in H.
  - intros H. apply list_elem_of_singleton in H. discriminate.
Defined.

(** ** Allocation and release *)

(** X19. [compressed_data] is freed twice. For a level-0 entry whose file
    opens, and for a level-1 entry that is decoded within its buffers,
    with an [uncompressed_size] that is not 0, and whose file opens, the
    calls of lines 121-368 free the payload block at line 154 or 187 and
    again at line 368. Every entry that [pack] writes for a non-empty
    file is a level-0 entry, so extracting any archive made by [pack]
    goes through this. *)
Theorem stored_and_rle_entries_free_the_payload_twice (char_signed : bool)
    (junk : nat -> byte) :
  (forall (uncompressed_size : nat) (compressed_data : list byte),
     exists events : list heap_event,
       extract_heap char_signed junk uncompressed_size 0 compressed_data true
       = Ok events
       ∧ heap_run [] events = DoubleFree CompressedData)
  ∧ (forall (uncompressed_size : nat) (compressed_data : list byte)
            (st : rle_state),
       rle_decode compressed_data (malloc junk uncompressed_size) = Ok st ->
       uncompressed_size ≠ 0%nat ->
       exists events : list heap_event,
         extract_heap char_signed junk uncompressed_size 1 compressed_data true
         = Ok events
         ∧ heap_run [] events = DoubleFree CompressedData)
  ∧ (forall (d_name file_data : list byte)
            (entries : list (list byte * list byte)) (w : world),
       extractable (d_name, file_data) ->
       exists (payload_position : nat) (w1 : world)
              (events : list heap_event),
         read_entry char_signed (pack ((d_name, file_data) :: entries)) 0 w
         = Entry d_name (length file_data) (length file_data) 0
                 payload_position file_data w1
         ∧ extract_heap char_signed junk (length file_data) 0 file_data true
           = Ok events
         ∧ heap_run [] events = DoubleFree CompressedData).
Proof.
  split; [|split].
  - intros us cd. eexists. split; reflexivity.
  - intros us cd st Hdecode Hus. unfold extract_heap. cbn [Z.eqb Pos.eqb].
    rewrite Hdecode. cbn [exec_bind]. rewrite decide_False by done.
    eexists. split; reflexivity.
  - intros d_name file_data entries w (Hname & Hdata & Hsize).
    simpl in Hname, Hdata, Hsize.
    pose proof (read_entry_packed char_signed [] d_name file_data
                  (pack entries) w Hname Hsize) as Hread.
    rewrite decide_False in Hread by done.
    rewrite pack_cons by apply Hname.
    eexists _, _, _. split; [exact Hread|]. split; reflexivity.
Qed.

(** X20. The blocks of an entry of a level above 1, when its file opens.
    An entry of an unsupported level has its two blocks freed before the
    loop goes on. An entry that is decoded to the end of its payload has
    its four blocks freed, each once. An entry whose decoding escapes
    jumps over the [free] of line 340: the sliding window stays
    allocated when the iteration ends, and nothing refers to it any
    more. *)
Theorem window_entry_blocks (char_signed : bool) (junk : nat -> byte)
    (uncompressed_size : nat) (compression_level : Z)
    (compressed_data : list byte) :
  1 < compression_level ->
  let offset_bits := offset_bits_of compression_level in
  let decoded :=
    win_decode char_signed offset_bits compressed_data
      (malloc junk uncompressed_size)
      (malloc junk (Z.to_nat (max_offset_of offset_bits))) in
  (8 < offset_bits ->
   exists events : list heap_event,
     extract_heap char_signed junk uncompressed_size compression_level
                  compressed_data true = Ok events
     ∧ heap_run [] events = StillAllocated [])
  ∧ (forall st : win_state,
       offset_bits <= 8 -> decoded = Ok (Next st) ->
       exists events : list heap_event,
         extract_heap char_signed junk uncompressed_size compression_level
                      compressed_data true = Ok events
         ∧ heap_run [] events = StillAllocated [])
  ∧ (forall (m : escape_message) (st : win_state),
       offset_bits <= 8 -> decoded = Ok (Escape m st) ->
       exists events : list heap_event,
         extract_heap char_signed junk uncompressed_size compression_level
                      compressed_data true = Ok events
         ∧ heap_run [] events = StillAllocated [SlidingWindow]).
Proof.
  intros Hlevel offset_bits decoded.
  assert (Hbranch : extract_heap char_signed junk uncompressed_size
                      compression_level compressed_data true
    = if 8 <? offset_bits
      then Ok ([Malloc CompressedData; Access CompressedData;
                Malloc FilePath; Access FilePath]
                 ++ [Free FilePath; Free CompressedData])
      else
        r <-- decoded ;;
        Ok ([Malloc CompressedData; Access CompressedData;
             Malloc FilePath; Access FilePath]
              ++ [Malloc UncompressedData; Malloc SlidingWindow;
                  Access CompressedData; Access UncompressedData;
                  Access SlidingWindow]
              ++ match r with
                 | Next _ => [Free SlidingWindow]
                 | Escape _ _ => []
                 end
              ++ [Access FilePath]
              ++ [Free FilePath; Access UncompressedData;
                  Free UncompressedData; Free CompressedData])).
  { unfold extract_heap.
    rewrite (proj2 (Z.eqb_neq compression_level 0)) by lia.
    rewrite (proj2 (Z.eqb_neq compression_level 1)) by lia.
    by rewrite (proj2 (Z.ltb_lt 1 compression_level)) by lia. }
  rewrite Hbranch. split; [|split].
  - intros Hun. rewrite (proj2 (Z.ltb_lt _ _) Hun).
    eexists. split; reflexivity.
  - intros st Hsup Hdecoded. rewrite (proj2 (Z.ltb_ge _ _) Hsup), Hdecoded.
    eexists. split; reflexivity.
  - intros m st Hsup Hdecoded. rewrite (proj2 (Z.ltb_ge _ _) Hsup), Hdecoded.
    eexists. split; reflexivity.
Qed.

Lemma window_entry_blocks_witness :
  (exists events : list heap_event,
     extract_heap true (fun _ => x00) 6 2 [x07; x58; x59; x5a; x01; x10] true
     = Ok events
     ∧ heap_run [] events = StillAllocated [])
  ∧ (exists events : list heap_event,
       extract_heap true (fun _ => x00) 4 3 [x00; x00; x00] true = Ok events
       ∧ heap_run [] events = StillAllocated [SlidingWindow]).
Proof.
  split.
  - destruct (window_entry_blocks true (fun _ => x00) 6 2
                [x07; x58; x59; x5a; x01; x10]) as (_ & Hnext & _); [lia|].
    eapply Hnext; [vm_compute; discriminate|vm_compute; reflexivity].
  - destruct (window_entry_blocks true (fun _ => x00) 4 3 [x00; x00; x00])
      as (_ & _ & Hescape); [lia|].
    eapply Hescape; [vm_compute; discriminate|vm_compute; reflexivity].
Defined.

(** X21. When the file of a level-0 or level-1 entry cannot be opened,
    the error message is built from a block that has been freed:
    [file_path] is freed at line 144 or 196, before the test of the
    result of [fopen], and read by the [fprintf] of line 147 or 200. *)
Theorem failed_open_reads_the_freed_path (char_signed : bool)
    (junk : nat -> byte) (uncompressed_size : nat)
    (compressed_data : list byte) :
  (exists events : list heap_event,
     extract_heap char_signed junk uncompressed_size 0 compressed_data false
     = Ok events
     ∧ heap_run [] events = UseAfterFree FilePath)
  ∧ (forall st : rle_state,
       rle_decode compressed_data (malloc junk uncompressed_size) = Ok st ->
       exists events : list heap_event,
         extract_heap char_signed junk uncompressed_size 1 compressed_data false
         = Ok events
         ∧ heap_run [] events = UseAfterFree FilePath).
Proof.
  split.
  - eexists. split; reflexivity.
  - intros st Hdecode. unfold extract_heap. cbn [Z.eqb Pos.eqb].
    rewrite Hdecode. eexists. split; reflexivity.
Qed.

Lemma win_decode_out_of_bounds_witness :
  win_decode true 4 [x01] (malloc (fun _ => x00) 1)
    (malloc (fun _ => x00) 4095)
  = OutOfBounds.
Proof.
  apply (win_decode_out_of_bounds true 4 [x01] (malloc (fun _ => x00) 1)
           (malloc (fun _ => x00) 4095)).
  - lia.
  - vm_compute. reflexivity.
  - vm_compute. intros H. exact H.
Defined.

(** ** The ways out of an iteration *)

Lemma rle_groups_nothing (payload : list byte) :
  rle_groups payload [] -> payload = [].
Proof.
  intros H. inversion H as [|f b rest out Hf Hrest Hp Hout
                             |f run rest out Hf Hlen Hrest Hp Hout]; [done| |].
  - exfalso. pose proof (byte_val_range f).
    destruct (Z.to_nat (byte_val f - 125)) as [|n] eqn:E; [lia|].
    simpl in Hout. discriminate.
  - exfalso. pose proof (byte_val_range f).
    destruct run as [|r run]; [simpl in Hlen; lia|]. discriminate.
Qed.

(** A level-1 payload that is not empty stands for at least one byte: with
    an [uncompressed_size] of 0 the decoder writes outside its buffer. *)
Lemma rle_decode_no_room (junk : nat -> byte) (compressed_data : list byte)
    (st : rle_state) :
  compressed_data ≠ [] ->
  rle_decode compressed_data (malloc junk 0) ≠ Ok st.
Proof.
  intros Hne H. apply rle_decode_ok in H as (decoded & Hgroups & Hroom).
  rewrite length_malloc in Hroom.
  destruct decoded; [|simpl in Hroom; lia].
  by apply rle_groups_nothing in Hgroups.
Qed.

(** [run_extract] puts together what [extract] and [extract_heap] follow
    apart: its blocks are those of [extract_heap], and where the file
    opens and the blocks are used as C defines its way out is that of
    [extract]. *)
Lemma run_extract_agrees (writable : list byte -> bool) (char_signed : bool)
    (junk : nat -> byte) (filename : list byte)
    (compressed_size uncompressed_size : nat) (compression_level : Z)
    (compressed_data : list byte) (position stream : nat) (w : world) :
  let file_opens := fopen_wb writable filename in
  let events := extract_heap char_signed junk uncompressed_size
                  compression_level compressed_data file_opens in
  match run_extract writable char_signed junk filename compressed_size
          uncompressed_size compression_level compressed_data position
          stream w with
  | Done (s, allocated) =>
      (exists trace : list heap_event,
         events = Ok trace ∧ heap_run [] trace = StillAllocated allocated)
      ∧ (file_opens = true ->
         extract char_signed junk filename compressed_size uncompressed_size
                 compression_level compressed_data position stream w = Ok s)
  | Undefined OutsideBuffer => events = OutOfBounds
  | Undefined (FreedTwice b) =>
      exists trace : list heap_event,
        events = Ok trace ∧ heap_run [] trace = DoubleFree b
  | Undefined (UsedAfterFree b) =>
      exists trace : list heap_event,
        events = Ok trace ∧ heap_run [] trace = UseAfterFree b
  | NoFuel => False
  end.
Proof.
  intros file_opens events. unfold events, run_extract, extract, extract_heap.
  fold file_opens.
  destruct (compression_level =? 0).
  { destruct file_opens; simpl; eexists; split; reflexivity. }
  destruct (compression_level =? 1).
  { pose proof (rle_decode_in_fuel compressed_data
                  (malloc junk uncompressed_size)) as Hfuel.
    destruct (rle_decode _ _) as [st| |]; [|done..].
    cbn [within_buffers run_bind exec_bind].
    destruct file_opens; [|simpl; eexists; split; reflexivity].
    destruct (decide (uncompressed_size = 0%nat)); simpl.
    - split; [|done]. eexists. split; reflexivity.
    - eexists. split; reflexivity. }
  destruct (1 <? compression_level).
  2:{ split; [|done]. eexists. split; reflexivity. }
  destruct (8 <? offset_bits_of compression_level).
  { split; [|done]. eexists. split; reflexivity. }
  pose proof (win_decode_in_fuel char_signed (offset_bits_of compression_level)
                compressed_data (malloc junk uncompressed_size)
                (malloc junk (Z.to_nat (max_offset_of
                                          (offset_bits_of compression_level)))))
    as Hfuel.
  destruct (win_decode _ _ _ _ _) as [r| |]; [|done..].
  cbn [within_buffers run_bind exec_bind].
  destruct r as [st|m st], file_opens; simpl;
    (split; [eexists; split; reflexivity|done]).
Qed.

(** X23. How lines 128-375 end for an entry whose payload, which is not
    empty, has been read. A negative level returns [EXIT_FAILURE] with
    nothing printed, written or freed. Levels 0 and 1 never end within
    what C defines: at level 0, and at level 1 once the decoder has kept
    within its buffers, [compressed_data] is freed a second time at line
    368 where the file opens, and the freed [file_path] is read at line
    147 or 200 where it does not; a level-1 decoder that leaves its
    buffers has made an access outside them, which is always so when
    [uncompressed_size] is 0. An unsupported level above 1 frees its two
    blocks and the loop goes on where the stream is. At a supported level
    above 1 a decoder that leaves its buffers has made an access outside
    them; otherwise the iteration writes the output buffer to the entry's
    file and goes on at the payload position plus [compressed_size] where
    the file opens, and returns [EXIT_FAILURE] after the message of line
    350, with no file written, where it does not. *)
Theorem ways_out_of_an_iteration (writable : list byte -> bool)
    (char_signed : bool) (junk : nat -> byte) (filename : list byte)
    (compressed_size uncompressed_size : nat) (compression_level : Z)
    (compressed_data : list byte) (position stream : nat) (w : world) :
  compressed_data ≠ [] ->
  let ended :=
    run_extract writable char_signed junk filename compressed_size
      uncompressed_size compression_level compressed_data position stream w in
  let file_opens := fopen_wb writable filename in
  let offset_bits := offset_bits_of compression_level in
  (compression_level < 0 ->
   ended = Done (Return EXIT_FAILURE w, [FilePath; CompressedData]))
  ∧ (compression_level = 0 ->
     ended = Undefined (if file_opens then FreedTwice CompressedData
                        else UsedAfterFree FilePath))
  ∧ (compression_level = 1 ->
     ended = Undefined
               match rle_decode compressed_data
                       (malloc junk uncompressed_size) with
               | Ok _ => if file_opens then FreedTwice CompressedData
                         else UsedAfterFree FilePath
               | _ => OutsideBuffer
               end
     ∧ (uncompressed_size = 0%nat -> ended = Undefined OutsideBuffer))
  ∧ (1 < compression_level -> 8 < offset_bits ->
     ended = Done (Continue stream
                     (say (UnsupportedRunAndOffsetLength filename) w), []))
  ∧ (1 < compression_level -> offset_bits <= 8 ->
     match win_decode char_signed offset_bits compressed_data
             (malloc junk uncompressed_size)
             (malloc junk (Z.to_nat (max_offset_of offset_bits))) with
     | Ok r =>
         exists (w' : world) (allocated : list block),
           ended = Done (if file_opens
                         then Continue (position + compressed_size)
                                (write_file filename
                                   (uncompressed_data (signal_state r)) w')
                         else Return EXIT_FAILURE
                                (say (ErrorOpeningFile filename) w'),
                         allocated)
           ∧ files w' = files w
     | _ => ended = Undefined OutsideBuffer
     end).
Proof.
  intros Hne ended file_opens offset_bits.
  split; [|split; [|split; [|split]]].
  - intros Hneg. unfold ended, run_extract.
    rewrite (proj2 (Z.eqb_neq compression_level 0)) by lia.
    rewrite (proj2 (Z.eqb_neq compression_level 1)) by lia.
    by rewrite (proj2 (Z.ltb_ge 1 compression_level)) by lia.
  - intros ->. unfold ended, run_extract. cbn [Z.eqb]. fold file_opens.
    by destruct file_opens.
  - intros ->. unfold ended, run_extract. cbn [Z.eqb Pos.eqb].
    fold file_opens.
    pose proof (rle_decode_in_fuel compressed_data
                  (malloc junk uncompressed_size)) as Hfuel.
    destruct (rle_decode compressed_data (malloc junk uncompressed_size))
      as [st| |] eqn:Hdecode; [|done..].
    cbn [within_buffers run_bind].
    destruct (decide (uncompressed_size = 0%nat)) as [Hzero|Hus].
    { subst uncompressed_size.
      by destruct (rle_decode_no_room junk compressed_data st). }
    split; [|done]. by destruct file_opens.
  - intros Hlevel Hunsupported. unfold ended, run_extract.
    rewrite (proj2 (Z.eqb_neq compression_level 0)) by lia.
    rewrite (proj2 (Z.eqb_neq compression_level 1)) by lia.
    rewrite (proj2 (Z.ltb_lt 1 compression_level)) by lia.
    fold offset_bits.
    by rewrite (proj2 (Z.ltb_lt 8 offset_bits)) by lia.
  - intros Hlevel Hsupported.
    pose proof (win_decode_in_fuel char_signed offset_bits compressed_data
                  (malloc junk uncompressed_size)
                  (malloc junk (Z.to_nat (max_offset_of offset_bits))))
      as Hfuel.
    destruct (win_decode char_signed offset_bits compressed_data
                (malloc junk uncompressed_size)
                (malloc junk (Z.to_nat (max_offset_of offset_bits))))
      as [r| |] eqn:Hdecode; [| |done].
    + unfold ended.
      rewrite (run_extract_window writable char_signed junk filename
                 compressed_size uncompressed_size compression_level
                 compressed_data position stream w r Hlevel Hsupported Hdecode).
      fold file_opens.
      destruct file_opens; eexists _, _; (split; [reflexivity|]);
        destruct r; simpl; by destruct (decide _).
    + unfold ended, run_extract.
      rewrite (proj2 (Z.eqb_neq compression_level 0)) by lia.
      rewrite (proj2 (Z.eqb_neq compression_level 1)) by lia.
      rewrite (proj2 (Z.ltb_lt 1 compression_level)) by lia.
      fold offset_bits.
      rewrite (proj2 (Z.ltb_ge 8 offset_bits)) by lia.
      by rewrite Hdecode.
Qed.

Lemma ways_out_of_an_iteration_witness :
  run_extract (fun _ => true) true (fun _ => x00) [x41] 2 0 1 [x00; x41] 11 13
    (World ∅ [Extracting [x41]])
  = Undefined OutsideBuffer
  ∧ run_extract (fun _ => true) true (fun _ => x00) [x41] 2 1 1 [x00; x41]
      11 13 (World ∅ [Extracting [x41]])
    = Undefined (FreedTwice CompressedData).
Proof.
  split.
  - destruct (ways_out_of_an_iteration (fun _ => true) true (fun _ => x00)
                [x41] 2 0 1 [x00; x41] 11 13 (World ∅ [Extracting [x41]]))
      as (_ & _ & H & _); [discriminate|].
    destruct (H eq_refl) as [_ Hzero]. exact (Hzero eq_refl).
  - destruct (ways_out_of_an_iteration (fun _ => true) true (fun _ => x00)
                [x41] 2 1 1 [x00; x41] 11 13 (World ∅ [Extracting [x41]]))
      as (_ & _ & H & _); [discriminate|].
    destruct (H eq_refl) as [Hrle _]. exact Hrle.
Defined.
